(** * RealisticShadowGenerator: the pixel pipeline, embedded and verified

    The TypeScript sources under [src/lib] are translated function by
    function, one module per class.  Conventions of the embedding:

    - a JavaScript [number] that holds a coordinate, a distance or an
      opacity is a rational [Q]; arithmetic is exact (IEEE rounding of the
      intermediate results is not modelled);
    - cells of a [Uint8Array] or of [ImageData.data] are integers [Z];
    - image dimensions are [nat]: [ImageData.width] and [ImageData.height]
      are unsigned;
    - a typed array is a [list]; [buf[i] = v] is stdpp's [<[i:=v]> buf],
      which, like a typed array, ignores a write past the end; [buf[i]]
      is [buf !! i], with [None] for JavaScript's [undefined];
    - a [while (true)] loop takes a fuel argument and answers [None] when
      the fuel runs out before the [break];
    - the functions of utils/math ([distance], [degreesToRadians],
      [exponentialFalloff], [normalize], [lerp], [clamp]) and the built-in
      [Math.cos] and [Math.sin] are parameters of the functions that call
      them;
    - a record field keeps the name of the source behind a prefix where
      the name is also that of a variable ([lv_dx] for [LightVector.dx],
      [pt_x] for the [x] of a point, [col_r] for the [r] of a color).

    The file has five parts: the functions; the same pipeline over a
    store of buffers; the vocabulary of the properties; the properties
    of the specification (C1 to C10); further properties of the code
    (X1 to X30). *)

From Stdlib Require Import ZArith QArith Qround Qabs Qminmax Lia Lqa Bool List String.
From stdpp Require Import base option list.

Open Scope Z_scope.

(** ** JavaScript numerics *)

Module JS.

(** [a < b] on numbers. *)
Definition Qlt_bool (a b : Q) : bool := negb (Qle_bool b a).

(** [Math.round]: nearest integer, a tie goes up. *)
Definition Math_round (q : Q) : Z := Qfloor (q + (1 # 2)).

(** [Math.ceil]. *)
Definition Math_ceil (q : Q) : Z := Qceiling q.

End JS.

(** ** Loops *)

(** [for (let i = 0; i < n; i++) body(i)] over a state [S]. *)
Definition for_loop {S : Type} (n : nat) (body : nat -> S -> S) (s : S) : S :=
  fold_left (fun acc i => body i acc) (seq 0 n) s.

(** The same loop when the body may fail to return. *)
Fixpoint for_loop_from {S : Type} (i n : nat) (body : nat -> S -> option S)
    (s : S) : option S :=
  match n with
  | O => Some s
  | Datatypes.S n' =>
      match body i s with
      | Some s' => for_loop_from (Datatypes.S i) n' body s'
      | None => None
      end
  end.

Definition for_loop_opt {S : Type} (n : nat) (body : nat -> S -> option S)
    (s : S) : option S :=
  for_loop_from 0 n body s.

(** ** Typed arrays *)

(** [buf[i] === v]; an index past the end reads [undefined], equal to
    no number. *)
Definition cell_is (v : Z) (buf : list Z) (i : nat) : bool :=
  match buf !! i with
  | Some c => c =? v
  | None => false
  end.

(** [buf[i]] used as a number.  Past the end JavaScript reads
    [undefined], [NaN] in arithmetic; the embedding has no [NaN] and gives
    0: statements about pixel values assume buffers of the size of the
    image, which [ImageData] guarantees ([data.length = 4 * width * height]). *)
Definition px (buf : list Z) (i : nat) : Q :=
  match buf !! i with
  | Some c => inject_Z c
  | None => 0%Q
  end.

(** A store into [ImageData.data], a [Uint8ClampedArray]: the number is
    rounded to the nearest integer, a tie to the even one, and clamped to
    [0, 255]. *)
Definition to_uint8_clamped (q : Q) : Z :=
  let f := Qfloor q in
  let frac := (q - inject_Z f)%Q in
  let nearest :=
    if JS.Qlt_bool frac (1 # 2) then f
    else if JS.Qlt_bool (1 # 2) frac then f + 1
    else if Z.even f then f else f + 1 in
  Z.max 0 (Z.min 255 nearest).

(** Four consecutive stores, [pixels[idx] = r; ...; pixels[idx + 3] = a]. *)
Definition set_rgba (idx : nat) (c : Q * Q * Q * Q) (pixels : list Z)
    : list Z :=
  let '(r, g, b, a) := c in
  <[ (idx + 3)%nat := to_uint8_clamped a ]>
    (<[ (idx + 2)%nat := to_uint8_clamped b ]>
      (<[ (idx + 1)%nat := to_uint8_clamped g ]>
        (<[ idx := to_uint8_clamped r ]> pixels))).

(** [buf[i]] and [buf[i] = v] for an index computed from coordinates:
    a negative index names no cell, so that the read is [undefined] and
    the write is ignored. *)
Definition cell_at (buf : list Z) (i : Z) : option Z :=
  if i <? 0 then None else buf !! Z.to_nat i.

Definition store_at (i : Z) (v : Q) (buf : list Z) : list Z :=
  if i <? 0 then buf else <[ Z.to_nat i := to_uint8_clamped v ]> buf.

(** [lo, lo + 1, ..., hi], the values of [for (let d = lo; d <= hi; d++)]. *)
Definition z_range (lo hi : Z) : list Z :=
  map (fun k => lo + Z.of_nat k) (seq 0 (Z.to_nat (hi - lo + 1))).

(** ** core/types.ts *)

Record LightVector := { lv_dx : Q; lv_dy : Q; lv_dz : Q }.

Record ImageData := { width : nat; height : nat; data : list Z }.

(** [new ImageData(width, height)]: transparent black. *)
Definition new_ImageData (w h : nat) : ImageData :=
  {| width := w; height := h; data := replicate (w * h * 4) 0 |}.

(** A point of the contact line, [{ x, y }]. *)
Record Point := { pt_x : Z; pt_y : Z }.

Record ContactLine := { points : list Point }.

(** A number that may be [Infinity]. *)
Inductive number := Fin (q : Q) | Infinity.

(** [DistanceMap]: the cells of its [Float32Array] are kept as exact
    numbers. *)
Record DistanceMap := {
  dm_data : list number;
  dm_width : nat;
  dm_height : nat
}.

(** [Math.min], [Math.max], [+] and [/] on numbers that may be
    [Infinity].  The first argument of [number_max] is a running
    maximum that starts at [-Infinity], which is [None]. *)
Definition number_min (a b : number) : number :=
  match a, b with
  | Fin p, Fin q => Fin (Qmin p q)
  | Fin p, Infinity => Fin p
  | Infinity, _ => b
  end.

Definition number_max (a : option number) (b : number) : option number :=
  match a, b with
  | None, _ => Some b
  | Some (Fin p), Fin q => Some (Fin (Qmax p q))
  | Some _, _ => Some Infinity
  end.

Definition number_add (a b : number) : number :=
  match a, b with
  | Fin p, Fin q => Fin (p + q)
  | _, _ => Infinity
  end.

Definition number_div (a : number) (n : nat) : number :=
  match a with
  | Fin p => Fin (p / inject_Z (Z.of_nat n))
  | Infinity => Infinity
  end.

(** An integer, [Infinity] or [-Infinity]: the running minimum and
    maximum of integer coordinates. *)
Inductive ext_int := NegInfinity | Int (z : Z) | PosInfinity.

(** The box [getContactLineBounds] returns. *)
Record Bounds := {
  minX : ext_int; maxX : ext_int; minY : ext_int; maxY : ext_int
}.

(** What [getSuggestedShadowParams] returns. *)
Record SuggestedParams := {
  suggested_contactOpacity : Q;
  suggested_falloffRate : Q
}.

(** [ImageSet]; a field that is [null] or [undefined] at run time is
    [None]. *)
Record ImageSet := {
  foreground : option ImageData;
  background : option ImageData;
  depthMap : option ImageData
}.

(** [ShadowConfig]. *)
Record ShadowConfig := {
  lightAngle : Q;
  lightElevation : Q;
  maxShadowDistance : Q;
  contactOpacity : Q;
  falloffRate : Q;
  minBlurRadius : Q;
  maxBlurRadius : Q
}.

(** A color, [{ r, g, b, a }]. *)
Record RGBA := { col_r : Q; col_g : Q; col_b : Q; col_a : Q }.

(** The object [getPixel] returns, [{ r, g, b, a }] read from the cells;
    [None] is [undefined]. *)
Record PixelCells := {
  cell_r : option Z; cell_g : option Z; cell_b : option Z; cell_a : option Z
}.

(** ** algorithms/LightVectorCalculator.ts *)

Module LightVectorCalculator.

Section WithMath.

(** [degreesToRadians] of utils/math, a file that is not part of the
    sources at hand, and the built-in [Math.cos] and [Math.sin]:
    parameters. *)
Variable degreesToRadians : Q -> Q.
Variable Math_cos : Q -> Q.
Variable Math_sin : Q -> Q.

Definition calculate (angleDegrees elevationDegrees : Q) : LightVector :=
  let angleRad := degreesToRadians angleDegrees in
  let elevationRad := degreesToRadians elevationDegrees in
  {| lv_dx := Math_cos angleRad * Math_cos elevationRad;
     lv_dy := Math_sin angleRad * Math_cos elevationRad;
     lv_dz := Math_sin elevationRad |}.

Definition getShadowLengthMultiplier (elevationDegrees : Q) : Q :=
  let elevationRad := degreesToRadians elevationDegrees in
  let sinElevation := Math_sin elevationRad in
  (1 / Qmax (1 # 10) sinElevation)%Q.

End WithMath.

Definition getSuggestedShadowParams (elevationDegrees : Q) : SuggestedParams :=
  let elevationNorm := (elevationDegrees / 90)%Q in
  {| suggested_contactOpacity := ((9 # 10) - elevationNorm * (3 # 10))%Q;
     suggested_falloffRate := (3 + elevationNorm * 2)%Q |}.

End LightVectorCalculator.

(** ** algorithms/ShadowProjector.ts *)

Module ShadowProjector.

(** [if (x >= 0 && x < width && y >= 0 && y < height) buffer[y*width+x] = 1]. *)
Definition mark (width height : nat) (x y : Z) (buffer : list Z) : list Z :=
  if (0 <=? x) && (x <? Z.of_nat width) && (0 <=? y) && (y <? Z.of_nat height)
  then <[ Z.to_nat (y * Z.of_nat width + x) := 1 ]> buffer
  else buffer.

(** The two conditional steps after the end test. *)
Definition advance (dx dy : Q) (sx sy : Z) (x y : Z) (err : Q) : Z * Z * Q :=
  let e2 := (2 * err)%Q in
  let '(err1, x1) :=
    if JS.Qlt_bool (- dy) e2 then ((err - dy)%Q, x + sx) else (err, x) in
  let '(err2, y1) :=
    if JS.Qlt_bool e2 dx then ((err1 + dx)%Q, y + sy) else (err1, y) in
  (x1, y1, err2).

(** [while (true) { mark; if (x === endX && y === endY) break; step }]. *)
Fixpoint drawLine_loop (fuel : nat) (width height : nat) (dx dy : Q)
    (sx sy endX endY : Z) (buffer : list Z) (x y : Z) (err : Q)
    : option (list Z) :=
  match fuel with
  | O => None
  | S fuel' =>
      let buffer' := mark width height x y buffer in
      if (x =? endX) && (y =? endY) then Some buffer'
      else
        let '(x', y', err') := advance dx dy sx sy x y err in
        drawLine_loop fuel' width height dx dy sx sy endX endY buffer' x' y' err'
  end.

Definition drawLine (fuel : nat) (buffer : list Z) (width height : nat)
    (x0 y0 x1 y1 : Q) : option (list Z) :=
  let dx := Qabs (x1 - x0) in
  let dy := Qabs (y1 - y0) in
  let sx := if JS.Qlt_bool x0 x1 then 1 else -1 in
  let sy := if JS.Qlt_bool y0 y1 then 1 else -1 in
  let err := (dx - dy)%Q in
  let x := JS.Math_round x0 in
  let y := JS.Math_round y0 in
  let endX := JS.Math_round x1 in
  let endY := JS.Math_round y1 in
  drawLine_loop fuel width height dx dy sx sy endX endY buffer x y err.

(** [warpFactor]: [1.0] without a depth map, [1.0 + depth * 0.5] with
    one.  A depth map too short for the index reads [undefined]: the
    factor and the endpoint are then [NaN], which the end test of
    [drawLine] never accepts; [None] stands for that run. *)
Definition warpFactor (depthMap : option ImageData) (idx : nat) : option Q :=
  match depthMap with
  | None => Some 1%Q
  | Some dm =>
      match data dm !! (idx * 4)%nat with
      | Some d => Some (1 + (inject_Z d / 255) * (1 # 2))%Q
      | None => None
      end
  end.

(** The body of the two loops of [project], at pixel [(x, y)]. *)
Definition project_pixel (fuel : nat) (mask : list Z) (width height : nat)
    (lightVector : LightVector) (maxDistance : Q)
    (depthMap : option ImageData) (y x : nat) (shadowMask : list Z)
    : option (list Z) :=
  let idx := (y * width + x)%nat in
  if cell_is 0 mask idx then Some shadowMask
  else
    match warpFactor depthMap idx with
    | None => None
    | Some warp =>
        let xq := inject_Z (Z.of_nat x) in
        let yq := inject_Z (Z.of_nat y) in
        let projX := (xq - lv_dx lightVector * maxDistance * warp)%Q in
        let projY := (yq - lv_dy lightVector * maxDistance * warp)%Q in
        drawLine fuel shadowMask width height xq yq projX projY
    end.

Definition project (fuel : nat) (mask : list Z) (width height : nat)
    (lightVector : LightVector) (maxDistance : Q)
    (depthMap : option ImageData) : option (list Z) :=
  let shadowMask := replicate (width * height) 0 in
  for_loop_opt height (fun y =>
    for_loop_opt width (fun x =>
      project_pixel fuel mask width height lightVector maxDistance
        depthMap y x)) shadowMask.

(** The loop of [removeOcclusions] over the fresh [result]. *)
Definition removeOcclusions_body (shadowMask silhouetteMask : list Z)
    (i : nat) (result : list Z) : list Z :=
  if cell_is 1 shadowMask i && cell_is 0 silhouetteMask i
  then <[ i := 1 ]> result
  else result.

Definition removeOcclusions (shadowMask silhouetteMask : list Z)
    (width height : nat) : list Z :=
  let result := replicate (width * height) 0 in
  for_loop (length shadowMask)
    (removeOcclusions_body shadowMask silhouetteMask) result.

End ShadowProjector.

(** ** algorithms/ContactLineDetector.ts *)

Module ContactLineDetector.

(** The inner loop, [for (let y = height - 1; y >= 0; y--)], with [n]
    rows left to scan: the value of [lowestY] at its exit. *)
Fixpoint scan_column (mask : list Z) (width x : nat) (n : nat) : Z :=
  match n with
  | O => -1
  | S y =>
      if cell_is 1 mask (y * width + x) then Z.of_nat y
      else scan_column mask width x y
  end.

(** The body of the loop over the columns. *)
Definition detect_column (mask : list Z) (width height : nat) (x : nat)
    (pts : list Point) : list Point :=
  let lowestY := scan_column mask width x height in
  if 0 <=? lowestY
  then pts ++ [ {| pt_x := Z.of_nat x; pt_y := lowestY |} ]
  else pts.

Definition detect (mask : list Z) (width height : nat) : ContactLine :=
  {| points := for_loop width (detect_column mask width height) [] |}.

(** [Math.min] and [Math.max] of a running bound and a coordinate. *)
Definition ext_min (m : ext_int) (z : Z) : ext_int :=
  match m with
  | NegInfinity => NegInfinity
  | Int a => Int (Z.min a z)
  | PosInfinity => Int z
  end.

Definition ext_max (m : ext_int) (z : Z) : ext_int :=
  match m with
  | NegInfinity => Int z
  | Int a => Int (Z.max a z)
  | PosInfinity => PosInfinity
  end.

Definition getContactLineBounds (contactLine : ContactLine) : Bounds :=
  if (length (points contactLine) =? 0)%nat then
    {| minX := Int 0; maxX := Int 0; minY := Int 0; maxY := Int 0 |}
  else
    fold_left (fun b point =>
        {| minX := ext_min (minX b) (pt_x point);
           maxX := ext_max (maxX b) (pt_x point);
           minY := ext_min (minY b) (pt_y point);
           maxY := ext_max (maxY b) (pt_y point) |})
      (points contactLine)
      {| minX := PosInfinity; maxX := NegInfinity;
         minY := PosInfinity; maxY := NegInfinity |}.

(** [visualizeContactLine]: the mask in dim gray, then the contact
    points in red. *)
Definition visualizeContactLine (mask : list Z) (contactLine : ContactLine)
    (width height : nat) : ImageData :=
  let imageData := new_ImageData width height in
  let gray :=
    for_loop (length mask) (fun i pixels =>
      let value := (px mask i * 128)%Q in
      set_rgba (i * 4) (value, value, value, 255%Q) pixels)
      (data imageData) in
  let marked :=
    fold_left (fun pixels point =>
        let pixelIdx := (pt_y point * Z.of_nat width + pt_x point) * 4 in
        store_at (pixelIdx + 3) 255
          (store_at (pixelIdx + 2) 0
            (store_at (pixelIdx + 1) 0
              (store_at pixelIdx 255 pixels))))
      (points contactLine) gray in
  {| width := width; height := height; data := marked |}.

End ContactLineDetector.

(** ** algorithms/DistanceTransform.ts *)

Module DistanceTransform.

Section WithMath.

(** [distance(x1, y1, x2, y2)] of utils/math, a file that is not part of
    the sources at hand: a parameter. *)
Variable distance : Q -> Q -> Q -> Q -> Q.

(** [Math.min(minDist, dist)], where [minDist] starts at [Infinity]. *)
Definition Math_min (minDist : number) (dist : Q) : number :=
  match minDist with
  | Infinity => Fin dist
  | Fin q => Fin (Qmin q dist)
  end.

(** The loop over the contact points, at pixel [(x, y)]. *)
Definition nearest (x y : nat) (pts : list Point) : number :=
  fold_left (fun minDist point =>
      Math_min minDist
        (distance (inject_Z (Z.of_nat x)) (inject_Z (Z.of_nat y))
           (inject_Z (pt_x point)) (inject_Z (pt_y point))))
    pts Infinity.

(** The body of the two loops over the image. *)
Definition compute_pixel (mask : list Z) (contactLine : ContactLine)
    (width : nat) (y x : nat) (distances : list number) : list number :=
  let idx := (y * width + x)%nat in
  if cell_is 0 mask idx then <[ idx := Fin 0 ]> distances
  else <[ idx := nearest x y (points contactLine) ]> distances.

Definition compute (mask : list Z) (contactLine : ContactLine)
    (width height : nat) : DistanceMap :=
  let distances := replicate (width * height) (Fin 0) in
  if (length (points contactLine) =? 0)%nat then
    {| dm_data := distances; dm_width := width; dm_height := height |}
  else
    {| dm_data :=
         for_loop height (fun y =>
           for_loop width (fun x =>
             compute_pixel mask contactLine width y x)) distances;
       dm_width := width;
       dm_height := height |}.

End WithMath.

(** What [getStatistics] returns. *)
Record Statistics := {
  stat_min : number; stat_max : number; stat_average : number
}.

(** The running [min], [max], [sum] and [count] of [getStatistics]. *)
Record tally := {
  t_min : number; t_max : option number; t_sum : number; t_count : nat
}.

Definition getStatistics (distanceMap : DistanceMap) (mask : list Z)
    : Statistics :=
  let acc :=
    for_loop (length (dm_data distanceMap)) (fun i acc =>
      if cell_is 0 mask i then acc
      else
        match dm_data distanceMap !! i with
        | Some dist =>
            {| t_min := number_min (t_min acc) dist;
               t_max := number_max (t_max acc) dist;
               t_sum := number_add (t_sum acc) dist;
               t_count := S (t_count acc) |}
        | None => acc
        end)
      {| t_min := Infinity; t_max := None; t_sum := Fin 0; t_count := 0 |} in
  {| stat_min := match t_min acc with Infinity => Fin 0 | m => m end;
     stat_max := match t_max acc with None => Fin 0 | Some m => m end;
     stat_average :=
       if (0 <? t_count acc)%nat then number_div (t_sum acc) (t_count acc)
       else Fin 0 |}.

End DistanceTransform.

(** ** utils/imageData.ts *)

Module ImageDataUtils.

Definition alphaBlend (backdropR backdropG backdropB backdropA
    sourceR sourceG sourceB sourceA : Q) : RGBA :=
  let srcA := (sourceA / 255)%Q in
  let dstA := (backdropA / 255)%Q in
  if Qeq_bool srcA 0 then
    {| col_r := backdropR; col_g := backdropG; col_b := backdropB;
       col_a := backdropA |}
  else
    let outA := (srcA + dstA * (1 - srcA))%Q in
    let over (source backdrop : Q) : Q :=
      if JS.Qlt_bool 0 outA
      then ((source * srcA + backdrop * dstA * (1 - srcA)) / outA)%Q
      else backdrop in
    {| col_r := inject_Z (JS.Math_round (over sourceR backdropR));
       col_g := inject_Z (JS.Math_round (over sourceG backdropG));
       col_b := inject_Z (JS.Math_round (over sourceB backdropB));
       col_a := inject_Z (JS.Math_round (outA * 255)) |}.

Definition getPixelIndex (x y : Z) (width : nat) : Z :=
  (y * Z.of_nat width + x) * 4.

Definition getPixel (imageData : ImageData) (x y : Z) : PixelCells :=
  let idx := getPixelIndex x y (width imageData) in
  {| cell_r := cell_at (data imageData) idx;
     cell_g := cell_at (data imageData) (idx + 1);
     cell_b := cell_at (data imageData) (idx + 2);
     cell_a := cell_at (data imageData) (idx + 3) |}.

(** [setPixel] writes into the image it is given; the image after the
    call is returned. *)
Definition setPixel (imageData : ImageData) (x y : Z) (r g b a : Q)
    : ImageData :=
  let idx := getPixelIndex x y (width imageData) in
  {| width := width imageData;
     height := height imageData;
     data :=
       store_at (idx + 3) a
         (store_at (idx + 2) b
           (store_at (idx + 1) g
             (store_at idx r (data imageData)))) |}.

(** [fillImageData]: [for (let i = 0; i < data.length; i += 4)], one
    turn per started group of four cells; as for [setPixel], the image
    after the call is returned. *)
Definition fillImageData (imageData : ImageData) (r g b a : Q) : ImageData :=
  {| width := width imageData;
     height := height imageData;
     data :=
       for_loop ((length (data imageData) + 3) / 4)%nat
         (fun k pixels => set_rgba (k * 4) (r, g, b, a) pixels)
         (data imageData) |}.

Definition isInBounds (x y : Z) (width height : nat) : bool :=
  (0 <=? x) && (x <? Z.of_nat width) && (0 <=? y) && (y <? Z.of_nat height).

End ImageDataUtils.

(** ** compositing/ShadowCompositor.ts *)

Module ShadowCompositor.
Import ImageDataUtils.

(** The color [composite] writes at pixel [i]. *)
Definition composite_color (background shadow foreground : ImageData)
    (i : nat) : RGBA :=
  let pixelIdx := (i * 4)%nat in
  let r := px (data background) pixelIdx in
  let g := px (data background) (pixelIdx + 1) in
  let b := px (data background) (pixelIdx + 2) in
  let a := px (data background) (pixelIdx + 3) in
  let shadowBlend :=
    alphaBlend r g b a
      (px (data shadow) pixelIdx) (px (data shadow) (pixelIdx + 1))
      (px (data shadow) (pixelIdx + 2)) (px (data shadow) (pixelIdx + 3)) in
  alphaBlend (col_r shadowBlend) (col_g shadowBlend) (col_b shadowBlend)
    (col_a shadowBlend)
    (px (data foreground) pixelIdx) (px (data foreground) (pixelIdx + 1))
    (px (data foreground) (pixelIdx + 2)) (px (data foreground) (pixelIdx + 3)).

Definition composite (background shadow foreground : ImageData) : ImageData :=
  let w := width background in
  let h := height background in
  let result := new_ImageData w h in
  {| width := w;
     height := h;
     data :=
       for_loop (w * h) (fun i pixels =>
         let c := composite_color background shadow foreground i in
         set_rgba (i * 4) (col_r c, col_g c, col_b c, col_a c) pixels)
         (data result) |}.

(** The color [compositeAttachedShadow] writes at pixel [i]. *)
Definition attached_color (background shadow foreground : ImageData)
    (silhouetteMask : list Z) (i : nat) : RGBA :=
  let pixelIdx := (i * 4)%nat in
  let r := px (data background) pixelIdx in
  let g := px (data background) (pixelIdx + 1) in
  let b := px (data background) (pixelIdx + 2) in
  let a := px (data background) (pixelIdx + 3) in
  let under :=
    if cell_is 0 silhouetteMask i then
      alphaBlend r g b a
        (px (data shadow) pixelIdx) (px (data shadow) (pixelIdx + 1))
        (px (data shadow) (pixelIdx + 2)) (px (data shadow) (pixelIdx + 3))
    else {| col_r := r; col_g := g; col_b := b; col_a := a |} in
  alphaBlend (col_r under) (col_g under) (col_b under) (col_a under)
    (px (data foreground) pixelIdx) (px (data foreground) (pixelIdx + 1))
    (px (data foreground) (pixelIdx + 2)) (px (data foreground) (pixelIdx + 3)).

Definition compositeAttachedShadow (background shadow foreground : ImageData)
    (silhouetteMask : list Z) : ImageData :=
  let w := width background in
  let h := height background in
  let result := new_ImageData w h in
  {| width := w;
     height := h;
     data :=
       for_loop (w * h) (fun i pixels =>
         let c := attached_color background shadow foreground silhouetteMask i in
         set_rgba (i * 4) (col_r c, col_g c, col_b c, col_a c) pixels)
         (data result) |}.

Section WithMath.

(** [exponentialFalloff] of utils/math: a parameter. *)
Variable exponentialFalloff : number -> Q -> Q -> Q -> Q.

(** The four values [createShadowLayer] stores at pixel [(x, y)]. *)
Definition shadow_color (shadowMask : list Z) (distanceMap : DistanceMap)
    (config : ShadowConfig) (width : nat) (y x : nat) : Q * Q * Q * Q :=
  let idx := (y * width + x)%nat in
  if cell_is 0 shadowMask idx then (0, 0, 0, 0)%Q
  else
    let distance :=
      match dm_data distanceMap !! idx with
      | Some d => d
      | None => Fin 0
      end in
    let opacity :=
      exponentialFalloff distance (contactOpacity config)
        (falloffRate config) (maxShadowDistance config) in
    (0, 0, 0, opacity * 255)%Q.

Definition createShadowLayer (shadowMask : list Z) (distanceMap : DistanceMap)
    (config : ShadowConfig) (width height : nat) : ImageData :=
  let shadowData := new_ImageData width height in
  {| width := width;
     height := height;
     data :=
       for_loop height (fun y =>
         for_loop width (fun x pixels =>
           set_rgba ((y * width + x) * 4)
             (shadow_color shadowMask distanceMap config width y x) pixels))
         (data shadowData) |}.

End WithMath.

End ShadowCompositor.

(** ** algorithms/SilhouetteExtractor.ts *)

Module SilhouetteExtractor.

(** [extract(imageData, alphaThreshold = 10)]; the caller passes the
    threshold, 10 when the source leaves it out.  The counters of opaque
    and transparent pixels only feed the log. *)
Definition extract (imageData : ImageData) (alphaThreshold : Q) : list Z :=
  let w := width imageData in
  let h := height imageData in
  let pixels := data imageData in
  for_loop h (fun y =>
    for_loop w (fun x mask =>
      let pixelIdx := ((y * w + x) * 4)%nat in
      let alpha := px pixels (pixelIdx + 3) in
      let maskIdx := (y * w + x)%nat in
      <[ maskIdx := if JS.Qlt_bool alphaThreshold alpha then 1 else 0 ]> mask))
    (replicate (w * h) 0).

Definition maskToImageData (mask : list Z) (width height : nat) : ImageData :=
  let imageData := new_ImageData width height in
  {| width := width;
     height := height;
     data :=
       for_loop (length mask) (fun i pixels =>
         let value := (px mask i * 255)%Q in
         set_rgba (i * 4) (value, value, value, 255%Q) pixels)
         (data imageData) |}.

End SilhouetteExtractor.

(** ** algorithms/BlurEngine.ts *)

Module BlurEngine.

(** The running sums [r, g, b, a] and [count] of [gaussianBlurAtPixel]. *)
Record sums := {
  sum_r : Q; sum_g : Q; sum_b : Q; sum_a : Q; count : nat
}.

(** The body of the two loops over the neighborhood, at offset [(dx, dy)]. *)
Definition sample (imageData : ImageData) (cx cy : Z) (radius : Q)
    (dy dx : Z) (acc : sums) : sums :=
  let x := cx + dx in
  let y := cy + dy in
  if (x <? 0) || (Z.of_nat (width imageData) <=? x)
     || (y <? 0) || (Z.of_nat (height imageData) <=? y)
  then acc
  else
    let distSq := dx * dx + dy * dy in
    if JS.Qlt_bool (radius * radius) (inject_Z distSq) then acc
    else
      let idx := Z.to_nat ((y * Z.of_nat (width imageData) + x) * 4) in
      let pixels := data imageData in
      {| sum_r := sum_r acc + px pixels idx;
         sum_g := sum_g acc + px pixels (idx + 1);
         sum_b := sum_b acc + px pixels (idx + 2);
         sum_a := sum_a acc + px pixels (idx + 3);
         count := S (count acc) |}.

(** The sums at the exit of the loops. *)
Definition neighborhood (imageData : ImageData) (cx cy : Z) (radius : Q)
    : sums :=
  let intRadius := JS.Math_ceil radius in
  fold_left (fun acc dy =>
    fold_left (fun acc dx => sample imageData cx cy radius dy dx acc)
      (z_range (- intRadius) intRadius) acc)
    (z_range (- intRadius) intRadius)
    {| sum_r := 0; sum_g := 0; sum_b := 0; sum_a := 0; count := 0 |}.

Section WithMath.

(** [clamp] of utils/math, a file that is not part of the sources at
    hand: a parameter. *)
Variable clamp : Q -> Q -> Q -> Q.

Definition gaussianBlurAtPixel (imageData : ImageData) (cx cy : Z)
    (radius : Q) : RGBA :=
  if JS.Qlt_bool radius (1 # 2) then
    let idx := Z.to_nat ((cy * Z.of_nat (width imageData) + cx) * 4) in
    {| col_r := px (data imageData) idx;
       col_g := px (data imageData) (idx + 1);
       col_b := px (data imageData) (idx + 2);
       col_a := px (data imageData) (idx + 3) |}
  else
    let acc := neighborhood imageData cx cy radius in
    let n := inject_Z (Z.of_nat (count acc)) in
    let avg (v : Q) := if (0 <? count acc)%nat then (v / n)%Q else v in
    let rounded (v : Q) := inject_Z (JS.Math_round (avg v)) in
    {| col_r := clamp (rounded (sum_r acc)) 0 255;
       col_g := clamp (rounded (sum_g acc)) 0 255;
       col_b := clamp (rounded (sum_b acc)) 0 255;
       col_a := clamp (rounded (sum_a acc)) 0 255 |}.

Definition uniformBlur (imageData : ImageData) (radius : Q) : ImageData :=
  let w := width imageData in
  let h := height imageData in
  let result := new_ImageData w h in
  {| width := w;
     height := h;
     data :=
       for_loop h (fun y =>
         for_loop w (fun x pixels =>
           let blurred :=
             gaussianBlurAtPixel imageData (Z.of_nat x) (Z.of_nat y) radius in
           set_rgba ((y * w + x) * 4)
             (col_r blurred, col_g blurred, col_b blurred, col_a blurred)
             pixels))
         (data result) |}.

End WithMath.

End BlurEngine.

(** ** core/ImageProcessor.ts *)

Module ImageProcessor.

Definition MAX_DIMENSION : Q := 1200.

(** [MAX_DIMENSION / n], which is [Infinity] when [n] is 0. *)
Definition max_over (n : nat) : number :=
  if (n =? 0)%nat then Infinity
  else Fin (MAX_DIMENSION / inject_Z (Z.of_nat n)).

(** [imageToImageData], up to the canvas: the [width] and [height] it
    computes, which it gives to the canvas, to [drawImage] and to
    [getImageData]; the calls on the canvas are not modelled.  When the
    test holds one of the two quotients is finite, and so is their
    minimum; the other branch of the [match] is not reached. *)
Definition imageToImageData_size (img_width img_height : nat) : Z * Z :=
  let width := Z.of_nat img_width in
  let height := Z.of_nat img_height in
  if JS.Qlt_bool MAX_DIMENSION (inject_Z width)
     || JS.Qlt_bool MAX_DIMENSION (inject_Z height)
  then
    match number_min (max_over img_width) (max_over img_height) with
    | Fin ratio =>
        (JS.Math_round (inject_Z width * ratio),
         JS.Math_round (inject_Z height * ratio))
    | Infinity => (width, height)
    end
  else (width, height).

End ImageProcessor.

(** ** core/ShadowGenerator.ts: validation *)

Module ShadowGenerator.

(** What a call leaves behind: an [Error] thrown with its message, or a
    normal return after the listed [console.warn] calls. *)
Inductive outcome :=
| Threw (message : string)
| Returned (warnings : list string).

(** The two warnings; the dimensions spliced into the text are left out. *)
Definition image_mismatch : string := "Image dimension mismatch".
Definition depth_mismatch : string := "Depth map dimension mismatch".

Definition validateImages (images : ImageSet) : outcome :=
  match foreground images with
  | None => Threw "Foreground image is required"
  | Some fg =>
      match background images with
      | None => Threw "Background image is required"
      | Some bg =>
          let fgWidth := width fg in
          let fgHeight := height fg in
          let bgWidth := width bg in
          let bgHeight := height bg in
          let w1 :=
            if negb (fgWidth =? bgWidth)%nat || negb (fgHeight =? bgHeight)%nat
            then [image_mismatch] else [] in
          let w2 :=
            match depthMap images with
            | Some dm =>
                if negb (width dm =? fgWidth)%nat
                   || negb (height dm =? fgHeight)%nat
                then [depth_mismatch] else []
            | None => []
            end in
          Returned (w1 ++ w2)
      end
  end.

(** [getDefaultConfig(lightAngle = 135, lightElevation = 45)]; an
    argument left out is [None]. *)
Definition getDefaultConfig (lightAngle lightElevation : option Q)
    : ShadowConfig :=
  let lightAngle := match lightAngle with Some v => v | None => 135%Q end in
  let lightElevation :=
    match lightElevation with Some v => v | None => 45%Q end in
  let suggested :=
    LightVectorCalculator.getSuggestedShadowParams lightElevation in
  {| lightAngle := lightAngle;
     lightElevation := lightElevation;
     maxShadowDistance := 150;
     contactOpacity := suggested_contactOpacity suggested;
     falloffRate := suggested_falloffRate suggested;
     minBlurRadius := 1;
     maxBlurRadius := 10 |}.

End ShadowGenerator.

(** * The pipeline over a store of buffers

    To state which buffers [generate] writes, the stages are translated a
    second time with every typed array a location of a store: [new]
    allocates a location, [buf[i]] reads it and [buf[i] = v] writes it.
    The values written are computed by the functions above. *)

Module Store.

Inductive array :=
| Uint8Array (cells : list Z)
| Uint8ClampedArray (cells : list Z)
| Float32Array (cells : list number).

(** The store: the arrays allocated so far, a location is an index. *)
Abbreviation loc := nat.
Abbreviation store := (list array).

(** A computation over the store that may fail to return: a read of a
    location that holds no array of the expected kind, or a loop that
    runs out of fuel. *)
Definition M (A : Type) : Type := store -> option (A * store).

Definition ret {A : Type} (a : A) : M A := fun st => Some (a, st).

Definition bind {A B : Type} (m : M A) (k : A -> M B) : M B :=
  fun st =>
    match m st with
    | Some (a, st') => k a st'
    | None => None
    end.

Definition fail {A : Type} : M A := fun _ => None.

Notation "'do' x <- m ; k" := (bind m (fun x => k))
  (at level 10, x name, m at level 100, k at level 200, only parsing).
Notation "'run' m ; k" := (bind m (fun _ => k))
  (at level 10, m at level 100, k at level 200, only parsing).

(** [new Uint8Array(n)], [new Float32Array(n)]. *)
Definition new_Uint8Array (n : nat) : M loc :=
  fun st => Some (length st, st ++ [Uint8Array (replicate n 0)]).

Definition new_Float32Array (n : nat) : M loc :=
  fun st => Some (length st, st ++ [Float32Array (replicate n (Fin 0))]).

(** An [ImageData] object: its dimensions and the location of [data]. *)
Record ImageRef := { ref_width : nat; ref_height : nat; ref_data : loc }.

Definition new_ImageData (w h : nat) : M ImageRef :=
  fun st =>
    Some ({| ref_width := w; ref_height := h; ref_data := length st |},
          st ++ [Uint8ClampedArray (replicate (w * h * 4) 0)]).

(** The contents of an array, as they are when the read happens. *)
Definition read_Uint8Array (l : loc) : M (list Z) :=
  fun st =>
    match st !! l with
    | Some (Uint8Array cells) => Some (cells, st)
    | _ => None
    end.

Definition read_pixels (l : loc) : M (list Z) :=
  fun st =>
    match st !! l with
    | Some (Uint8ClampedArray cells) => Some (cells, st)
    | _ => None
    end.

Definition read_Float32Array (l : loc) : M (list number) :=
  fun st =>
    match st !! l with
    | Some (Float32Array cells) => Some (cells, st)
    | _ => None
    end.

(** [buf[i] = v] on each kind of array. *)
Definition write_Uint8Array (l : loc) (i : nat) (v : Z) : M unit :=
  fun st =>
    match st !! l with
    | Some (Uint8Array cells) =>
        Some (tt, <[ l := Uint8Array (<[ i := v ]> cells) ]> st)
    | _ => None
    end.

Definition write_Float32Array (l : loc) (i : nat) (v : number) : M unit :=
  fun st =>
    match st !! l with
    | Some (Float32Array cells) =>
        Some (tt, <[ l := Float32Array (<[ i := v ]> cells) ]> st)
    | _ => None
    end.

Definition write_rgba (l : loc) (idx : nat) (c : Q * Q * Q * Q) : M unit :=
  fun st =>
    match st !! l with
    | Some (Uint8ClampedArray cells) =>
        Some (tt, <[ l := Uint8ClampedArray (set_rgba idx c cells) ]> st)
    | _ => None
    end.

(** The [ImageData] behind a reference, as it is now. *)
Definition snapshot (img : ImageRef) : M ImageData :=
  do cells <- read_pixels (ref_data img);
  ret {| width := ref_width img; height := ref_height img; data := cells |}.

(** [for (let i = 0; i < n; i++) body(i)]. *)
Fixpoint for_from (i n : nat) (body : nat -> M unit) : M unit :=
  match n with
  | O => ret tt
  | S n' => run body i; for_from (S i) n' body
  end.

Definition for_each (n : nat) (body : nat -> M unit) : M unit :=
  for_from 0 n body.

(** [DistanceMap] and [ShadowResult], by reference. *)
Record DistanceMapRef := {
  dref_data : loc; dref_width : nat; dref_height : nat
}.

Record ImageSetRef := {
  foreground_ref : ImageRef;
  background_ref : ImageRef;
  depthMap_ref : option ImageRef
}.

Record ShadowResultRef := {
  shadowOnly : ImageRef;
  maskDebug : ImageRef;
  composite_result : ImageRef
}.

Section WithMath.

(** utils/math and the built-in trigonometry, as above. *)
Variable distance : Q -> Q -> Q -> Q -> Q.
Variable degreesToRadians : Q -> Q.
Variable Math_cos : Q -> Q.
Variable Math_sin : Q -> Q.
Variable exponentialFalloff : number -> Q -> Q -> Q -> Q.
Variable normalize : number -> Q -> Q -> Q.
Variable lerp : Q -> Q -> Q -> Q.
Variable clamp : Q -> Q -> Q -> Q.

(** SilhouetteExtractor.extract; the counters of opaque and transparent
    pixels only feed the log. *)
Definition extract (imageData : ImageRef) (alphaThreshold : Q) : M loc :=
  let w := ref_width imageData in
  let h := ref_height imageData in
  do mask <- new_Uint8Array (w * h);
  run for_each h (fun y =>
        for_each w (fun x =>
          do pixels <- read_pixels (ref_data imageData);
          let pixelIdx := ((y * w + x) * 4)%nat in
          let alpha := px pixels (pixelIdx + 3) in
          let maskIdx := (y * w + x)%nat in
          write_Uint8Array mask maskIdx
            (if JS.Qlt_bool alphaThreshold alpha then 1 else 0)));
  ret mask.

(** SilhouetteExtractor.maskToImageData. *)
Definition maskToImageData (mask : loc) (w h : nat) : M ImageRef :=
  do imageData <- new_ImageData w h;
  do cells <- read_Uint8Array mask;
  run for_each (length cells) (fun i =>
        do m <- read_Uint8Array mask;
        let pixelIdx := (i * 4)%nat in
        let value := (px m i * 255)%Q in
        write_rgba (ref_data imageData) pixelIdx (value, value, value, 255%Q));
  ret imageData.

(** ContactLineDetector.detect reads the mask and builds a new array of
    points. *)
Definition detect (mask : loc) (w h : nat) : M ContactLine :=
  do m <- read_Uint8Array mask;
  ret (ContactLineDetector.detect m w h).

(** DistanceTransform.compute. *)
Definition compute (mask : loc) (contactLine : ContactLine) (w h : nat)
    : M DistanceMapRef :=
  do distances <- new_Float32Array (w * h);
  let result :=
    {| dref_data := distances; dref_width := w; dref_height := h |} in
  if (length (points contactLine) =? 0)%nat then ret result
  else
    run for_each h (fun y =>
          for_each w (fun x =>
            do m <- read_Uint8Array mask;
            let idx := (y * w + x)%nat in
            if cell_is 0 m idx then write_Float32Array distances idx (Fin 0)
            else
              write_Float32Array distances idx
                (DistanceTransform.nearest distance x y (points contactLine))));
    ret result.

(** ShadowProjector.drawLine: the buffer is the caller's array. *)
Fixpoint drawLine_loop (fuel : nat) (buffer : loc) (w h : nat) (dx dy : Q)
    (sx sy endX endY : Z) (x y : Z) (err : Q) : M unit :=
  match fuel with
  | O => fail
  | S fuel' =>
      run (if (0 <=? x) && (x <? Z.of_nat w) && (0 <=? y) && (y <? Z.of_nat h)
           then write_Uint8Array buffer (Z.to_nat (y * Z.of_nat w + x)) 1
           else ret tt);
      if (x =? endX) && (y =? endY) then ret tt
      else
        let '(x', y', err') := ShadowProjector.advance dx dy sx sy x y err in
        drawLine_loop fuel' buffer w h dx dy sx sy endX endY x' y' err'
  end.

Definition drawLine (fuel : nat) (buffer : loc) (w h : nat)
    (x0 y0 x1 y1 : Q) : M unit :=
  let dx := Qabs (x1 - x0) in
  let dy := Qabs (y1 - y0) in
  let sx := if JS.Qlt_bool x0 x1 then 1 else -1 in
  let sy := if JS.Qlt_bool y0 y1 then 1 else -1 in
  drawLine_loop fuel buffer w h dx dy sx sy
    (JS.Math_round x1) (JS.Math_round y1)
    (JS.Math_round x0) (JS.Math_round y0) (dx - dy)%Q.

(** ShadowProjector.project. *)
Definition project (fuel : nat) (mask : loc) (w h : nat)
    (lightVector : LightVector) (maxDistance : Q)
    (depthMap : option ImageRef) : M loc :=
  do shadowMask <- new_Uint8Array (w * h);
  run for_each h (fun y =>
        for_each w (fun x =>
          do m <- read_Uint8Array mask;
          let idx := (y * w + x)%nat in
          if cell_is 0 m idx then ret tt
          else
            do warp <-
              match depthMap with
              | None => ret 1%Q
              | Some dm =>
                  do depth <- read_pixels (ref_data dm);
                  match depth !! (idx * 4)%nat with
                  | Some d => ret (1 + (inject_Z d / 255) * (1 # 2))%Q
                  | None => fail
                  end
              end;
            let xq := inject_Z (Z.of_nat x) in
            let yq := inject_Z (Z.of_nat y) in
            let projX := (xq - lv_dx lightVector * maxDistance * warp)%Q in
            let projY := (yq - lv_dy lightVector * maxDistance * warp)%Q in
            drawLine fuel shadowMask w h xq yq projX projY));
  ret shadowMask.

(** ShadowProjector.removeOcclusions. *)
Definition removeOcclusions (shadowMask silhouetteMask : loc) (w h : nat)
    : M loc :=
  do result <- new_Uint8Array (w * h);
  do cells <- read_Uint8Array shadowMask;
  run for_each (length cells) (fun i =>
        do sm <- read_Uint8Array shadowMask;
        do sil <- read_Uint8Array silhouetteMask;
        if cell_is 1 sm i && cell_is 0 sil i
        then write_Uint8Array result i 1
        else ret tt);
  ret result.

(** [distanceMap.data[idx]]. *)
Definition distance_at (cells : list number) (idx : nat) : number :=
  match cells !! idx with
  | Some d => d
  | None => Fin 0
  end.

(** ShadowCompositor.createShadowLayer. *)
Definition createShadowLayer (shadowMask : loc) (distanceMap : DistanceMapRef)
    (config : ShadowConfig) (w h : nat) : M ImageRef :=
  do shadowData <- new_ImageData w h;
  let pixels := ref_data shadowData in
  run for_each h (fun y =>
        for_each w (fun x =>
          do sm <- read_Uint8Array shadowMask;
          let idx := (y * w + x)%nat in
          let pixelIdx := (idx * 4)%nat in
          if cell_is 0 sm idx then write_rgba pixels pixelIdx (0, 0, 0, 0)%Q
          else
            do dist <- read_Float32Array (dref_data distanceMap);
            let opacity :=
              exponentialFalloff (distance_at dist idx) (contactOpacity config)
                (falloffRate config) (maxShadowDistance config) in
            write_rgba pixels pixelIdx (0, 0, 0, opacity * 255)%Q));
  ret shadowData.

(** BlurEngine.applyDistanceWeightedBlur; the clock and the progress log
    are left out. *)
Definition applyDistanceWeightedBlur (shadowData : ImageRef)
    (distanceMap : DistanceMapRef) (minBlur maxBlur maxDistance : Q)
    : M ImageRef :=
  let w := ref_width shadowData in
  let h := ref_height shadowData in
  do result <- new_ImageData w h;
  run for_each h (fun y =>
        for_each w (fun x =>
          let idx := (y * w + x)%nat in
          do dist <- read_Float32Array (dref_data distanceMap);
          let normalizedDist := normalize (distance_at dist idx) 0 maxDistance in
          let blurRadius := lerp minBlur maxBlur normalizedDist in
          do source <- snapshot shadowData;
          let blurred :=
            BlurEngine.gaussianBlurAtPixel clamp source
              (Z.of_nat x) (Z.of_nat y) blurRadius in
          write_rgba (ref_data result) (idx * 4)
            (col_r blurred, col_g blurred, col_b blurred, col_a blurred)));
  ret result.

(** ShadowCompositor.composite. *)
Definition composite (background shadow foreground : ImageRef) : M ImageRef :=
  let w := ref_width background in
  let h := ref_height background in
  do result <- new_ImageData w h;
  run for_each (w * h) (fun i =>
        do bg <- snapshot background;
        do sh <- snapshot shadow;
        do fg <- snapshot foreground;
        let c := ShadowCompositor.composite_color bg sh fg i in
        write_rgba (ref_data result) (i * 4)
          (col_r c, col_g c, col_b c, col_a c));
  ret result.

(** ShadowGenerator.generate; [console.log] is left out. *)
Definition generate (fuel : nat) (images : ImageSetRef) (config : ShadowConfig)
    : M ShadowResultRef :=
  let w := ref_width (foreground_ref images) in
  let h := ref_height (foreground_ref images) in
  do silhouette <- extract (foreground_ref images) 10;
  let lightVector :=
    LightVectorCalculator.calculate degreesToRadians Math_cos Math_sin
      (lightAngle config) (lightElevation config) in
  let shadowLengthMultiplier :=
    LightVectorCalculator.getShadowLengthMultiplier degreesToRadians Math_sin
      (lightElevation config) in
  let shadowLength := (shadowLengthMultiplier * maxShadowDistance config)%Q in
  do contactLine <- detect silhouette w h;
  do distanceMap <- compute silhouette contactLine w h;
  do projected <-
    project fuel silhouette w h lightVector shadowLength (depthMap_ref images);
  do shadowMask <- removeOcclusions projected silhouette w h;
  do shadowLayer <- createShadowLayer shadowMask distanceMap config w h;
  do blurredLayer <-
    applyDistanceWeightedBlur shadowLayer distanceMap
      (minBlurRadius config) (maxBlurRadius config) (maxShadowDistance config);
  do mask_debug <- maskToImageData silhouette w h;
  do final <-
    composite (background_ref images) blurredLayer (foreground_ref images);
  ret {| shadowOnly := blurredLayer;
         maskDebug := mask_debug;
         composite_result := final |}.

End WithMath.

End Store.

(** * The vocabulary of the properties *)

(** The integer line algorithm of the specification (Bresenham, in the
    error form of the page the source cites), between two integer
    points: the reference [drawLine] is compared with. *)
Fixpoint bresenham_loop (fuel : nat) (width height : nat) (dx dy : Z)
    (sx sy endX endY : Z) (buffer : list Z) (x y err : Z)
    : option (list Z) :=
  match fuel with
  | O => None
  | S fuel' =>
      let buffer' := ShadowProjector.mark width height x y buffer in
      if (x =? endX) && (y =? endY) then Some buffer'
      else
        let e2 := 2 * err in
        let '(err1, x1) := if - dy <? e2 then (err - dy, x + sx) else (err, x) in
        let '(err2, y1) := if e2 <? dx then (err1 + dx, y + sy) else (err1, y) in
        bresenham_loop fuel' width height dx dy sx sy endX endY buffer' x1 y1 err2
  end.

Definition bresenham (fuel : nat) (buffer : list Z) (width height : nat)
    (x0 y0 x1 y1 : Z) : option (list Z) :=
  let dx := Z.abs (x1 - x0) in
  let dy := Z.abs (y1 - y0) in
  let sx := if x0 <? x1 then 1 else -1 in
  let sy := if y0 <? y1 then 1 else -1 in
  bresenham_loop fuel width height dx dy sx sy x1 y1 buffer x0 y0 (dx - dy).

(** A point is the lowest opaque pixel of its column, inside the image. *)
Definition lowest_opaque (mask : list Z) (w h : nat) (p : Point) : Prop :=
  exists x y : nat,
    pt_x p = Z.of_nat x /\ pt_y p = Z.of_nat y /\
    (x < w)%nat /\ (y < h)%nat /\
    mask !! (y * w + x)%nat = Some 1 /\
    forall y', (y < y' < h)%nat -> mask !! (y' * w + x)%nat <> Some 1.

(** Channel [c] of a color, in the order of the buffer. *)
Definition channel (c : nat) (col : RGBA) : Q :=
  match c with
  | O => col_r col
  | 1%nat => col_g col
  | 2%nat => col_b col
  | _ => col_a col
  end.

(** The cells of an [ImageData] are bytes. *)
Definition bytes (buf : list Z) : Prop :=
  Forall (fun c => 0 <= c <= 255) buf.

(** A number that is a byte. *)
Definition byteQ (q : Q) : Prop :=
  exists z, 0 <= z <= 255 /\ q = inject_Z z.

(** The buffer of an [ImageData] holds four cells per pixel. *)
Definition well_formed (img : ImageData) : Prop :=
  length (data img) = (width img * height img * 4)%nat.

Definition nonneg (n : number) : Prop :=
  match n with
  | Fin q => (0 <= q)%Q
  | Infinity => True
  end.

Definition is_zero (n : number) : Prop :=
  match n with
  | Fin q => (q == 0)%Q
  | Infinity => False
  end.

(** The value [compute] leaves at pixel [(x, y)] when the contact line
    is not empty. *)
Definition pixel_distance (distance : Q -> Q -> Q -> Q -> Q)
    (mask : list Z) (contactLine : ContactLine)
    (w : nat) (y x : nat) : number :=
  if cell_is 0 mask (y * w + x) then Fin 0
  else DistanceTransform.nearest distance x y (points contactLine).

(** A computable instance of the helper: the Euclidean distance in fixed
    point, with 16 fractional bits. *)
Definition fixed_distance (x1 y1 x2 y2 : Q) : Q :=
  (inject_Z
     (Z.sqrt (Qfloor (((x2 - x1) * (x2 - x1) + (y2 - y1) * (y2 - y1))
                      * inject_Z 4294967296)))
   / inject_Z 65536)%Q.

(** The cells [drawLine] marks when it walks left from [x] for [n]
    steps on row [y]. *)
Fixpoint hline (w h : nat) (y x : Z) (n : nat) (buf : list Z) : list Z :=
  match n with
  | O => ShadowProjector.mark w h x y buf
  | S n' => hline w h y (x - 1) n' (ShadowProjector.mark w h x y buf)
  end.

(** The mask with the single opaque pixel [(X, Y)]. *)
Definition single_pixel (w h X Y : nat) : list Z :=
  <[ (Y * w + X)%nat := 1 ]> (replicate (w * h) 0).

(** Computable stand-ins for the trigonometry: pi as 355/113, Taylor
    polynomials for the cosine and the sine. *)
Definition degreesToRadians_approx (degrees : Q) : Q :=
  (degrees * (355 # 113) / 180)%Q.

Definition cos_approx (x : Q) : Q :=
  (1 - x * x / 2 + x * x * x * x / 24)%Q.

Definition sin_approx (x : Q) : Q :=
  (x - x * x * x / 6 + x * x * x * x * x / 120)%Q.

(** From [st] to [st'] the store has only grown, and the locations below
    [n0] hold what they held. *)
Definition frame (n0 : nat) (st st' : list Store.array) : Prop :=
  (length st <= length st')%nat /\
  forall l, (l < n0)%nat -> st' !! l = st !! l.

(** [m], run on a store of at least [n0] arrays, leaves the first [n0]
    alone, and what it returns satisfies [P]. *)
Definition safe {A : Type} (n0 : nat) (m : Store.M A) (P : A -> Prop)
    : Prop :=
  forall st a st',
    (n0 <= length st)%nat -> m st = Some (a, st') -> frame n0 st st' /\ P a.

(** Computable stand-ins for the rest of utils/math: [clamp], [lerp] and
    [normalize] as usually defined, and a rational decay in place of the
    exponential. *)
Definition clamp_std (value lo hi : Q) : Q := Qmax lo (Qmin hi value).

Definition lerp_std (a b t : Q) : Q := (a + (b - a) * t)%Q.

Definition normalize_std (value : number) (lo hi : Q) : Q :=
  match value with
  | Fin q => clamp_std ((q - lo) / (hi - lo)) 0 1
  | Infinity => 1%Q
  end.

Definition falloff_rational (dist : number)
    (contactOpacity falloffRate maxDistance : Q) : Q :=
  match dist with
  | Fin q => (contactOpacity / (1 + falloffRate * (q / maxDistance)))%Q
  | Infinity => 0%Q
  end.

(** From [buf] to [r] cells have only been set to 1. *)
Definition grows (buf r : list Z) : Prop :=
  length r = length buf /\ forall j : nat, r !! j = buf !! j \/ r !! j = Some 1.

(** * Properties *)

(** ** Numerics and loops *)

Lemma Qlt_bool_true a b : JS.Qlt_bool a b = true <-> (a < b)%Q.
Proof.
  unfold JS.Qlt_bool. rewrite negb_true_iff, <- not_true_iff_false, Qle_bool_iff.
  split; [apply Qnot_le_lt | apply Qlt_not_le].
Qed.

Lemma Qlt_bool_false a b : JS.Qlt_bool a b = false <-> (b <= a)%Q.
Proof.
  unfold JS.Qlt_bool. rewrite negb_false_iff. apply Qle_bool_iff.
Qed.

Lemma Math_round_Z (z : Z) : JS.Math_round (inject_Z z) = z.
Proof.
  unfold JS.Math_round, Qfloor, Qplus, inject_Z. simpl.
  rewrite Z.mul_1_r.
  replace (z * 2 + 1) with (1 + z * 2) by lia.
  rewrite Z.div_add by lia. reflexivity.
Qed.

Lemma Math_round_le (q : Q) (z : Z) : (q <= inject_Z z)%Q -> JS.Math_round q <= z.
Proof.
  intros H. rewrite <- (Math_round_Z z). unfold JS.Math_round.
  apply Qfloor_resp_le. lra.
Qed.

Lemma Math_round_byte (v : Q) :
  (0 <= v <= 255)%Q -> 0 <= JS.Math_round v <= 255.
Proof.
  intros [H0 H1]. split.
  - change 0 with (Qfloor 0). unfold JS.Math_round. apply Qfloor_resp_le. lra.
  - apply Math_round_le. exact H1.
Qed.

Lemma to_uint8_clamped_byte z :
  0 <= z <= 255 -> to_uint8_clamped (inject_Z z) = z.
Proof.
  intros Hz. unfold to_uint8_clamped. rewrite Qfloor_Z.
  replace (JS.Qlt_bool (inject_Z z - inject_Z z) (1 # 2)) with true.
  - lia.
  - symmetry. apply Qlt_bool_true.
    assert (H : (inject_Z z - inject_Z z == 0)%Q) by ring.
    rewrite H. reflexivity.
Qed.

Lemma for_loop_S {S : Type} n (body : nat -> S -> S) s :
  for_loop (Datatypes.S n) body s = body n (for_loop n body s).
Proof.
  unfold for_loop. rewrite seq_S, fold_left_app. reflexivity.
Qed.

Ltac split_decide :=
  repeat match goal with
         | |- context [decide ?P] => destruct (decide P)
         end;
  repeat match goal with
         | H : _ /\ _ |- _ => destruct H
         end;
  subst;
  try first
    [ reflexivity
    | congruence
    | lia
    | match goal with
      | H : ~ (_ /\ _) |- _ =>
          exfalso; apply H; repeat split; first [ lia | assumption | congruence ]
      end ].

(** A loop whose body assigns cell [i] at iteration [i], under a guard. *)
Lemma for_loop_insert_length {A : Type} n (c : nat -> bool) (v : nat -> A)
    (buf : list A) :
  length (for_loop n (fun i b => if c i then <[ i := v i ]> b else b) buf)
  = length buf.
Proof.
  induction n as [|n IH]; [reflexivity |].
  rewrite for_loop_S. destruct (c n); [rewrite length_insert |]; exact IH.
Qed.

Lemma for_loop_insert_lookup {A : Type} n (c : nat -> bool) (v : nat -> A)
    (buf : list A) (j : nat) :
  for_loop n (fun i b => if c i then <[ i := v i ]> b else b) buf !! j =
  if decide ((j < n)%nat /\ c j = true /\ (j < length buf)%nat)
  then Some (v j) else buf !! j.
Proof.
  induction n as [|n IH].
  - unfold for_loop. simpl. reflexivity.
  - rewrite for_loop_S. destruct (c n) eqn:Hc.
    + rewrite list_lookup_insert, for_loop_insert_length, IH. split_decide.
    + rewrite IH. split_decide.
      all: destruct (decide (j = n)) as [|Hne]; [congruence |].
      all: exfalso; match goal with H : ~ (_ /\ _) |- _ => apply H end.
      all: repeat split; first [lia | assumption].
Qed.

(** ** ShadowProjector *)

Section ShadowProjectorFacts.
Import ShadowProjector.

(** Once the trace is to the right of [endX] while stepping right, the
    end test fails for ever. *)
Lemma drawLine_loop_overshoot fuel w h dx dy sy endX endY :
  forall buffer x y err,
    endX < x ->
    drawLine_loop fuel w h dx dy 1 sy endX endY buffer x y err = None.
Proof.
  induction fuel as [|fuel IH]; intros buffer x y err Hx; [reflexivity |].
  simpl.
  replace (x =? endX) with false by (symmetry; apply Z.eqb_neq; lia).
  simpl. unfold advance.
  destruct (JS.Qlt_bool (- dy) (2 * err)); destruct (JS.Qlt_bool (2 * err) dx);
    apply IH; lia.
Qed.

Lemma drawLine_loop_S fuel w h dx dy sx sy endX endY buffer x y err :
  drawLine_loop (S fuel) w h dx dy sx sy endX endY buffer x y err =
  if (x =? endX) && (y =? endY) then Some (mark w h x y buffer)
  else
    let '(x', y', err') := advance dx dy sx sy x y err in
    drawLine_loop fuel w h dx dy sx sy endX endY (mark w h x y buffer) x' y' err'.
Proof. reflexivity. Qed.

(** One turn of the loop on concrete coordinates: the end test and the
    step are evaluated, the buffer is left alone. *)
Ltac line_step :=
  rewrite drawLine_loop_S;
  match goal with
  | |- context [andb ?a ?b] =>
      let t := fresh "t" in
      set (t := andb a b); vm_compute in t; subst t; cbv iota
  end;
  match goal with
  | |- context [advance ?dx ?dy ?sx ?sy ?x ?y ?e] =>
      let s := fresh "s" in
      set (s := advance dx dy sx sy x y e); vm_compute in s; subst s;
      cbv iota beta
  end.

(** The loop alone: the trace from [(0,0)] to [(1, 1/2)] visits
    [(0,0)], [(1,0)], [(2,1)] and never meets the rounded end [(1,1)],
    whatever the buffer and the size of the image. *)
Lemma drawLine_diverges :
  forall fuel buffer w h, drawLine fuel buffer w h 0 0 1 (1 # 2) = None.
Proof.
  intros fuel buffer w h.
  destruct fuel as [|[|fuel]]; [reflexivity | reflexivity |].
  unfold drawLine.
  set (endX := JS.Math_round 1). vm_compute in endX.
  set (sx := if JS.Qlt_bool 0 1 then 1 else -1). vm_compute in sx.
  subst endX sx.
  line_step. line_step.
  apply drawLine_loop_overshoot. lia.
Qed.

(** C1: [project] on a 1x1 mask with one opaque pixel, light vector
    [(-1/2, -1/4)] and [maxDistance = 2] never returns: whatever the fuel,
    the [while (true)] of [drawLine] has not reached its [break]. *)
Theorem project_diverges :
  forall fuel,
    project fuel [1] 1 1
      {| lv_dx := - (1 # 2); lv_dy := - (1 # 4); lv_dz := 0 |} 2 None = None.
Proof.
  intros fuel. unfold project, for_loop_opt. simpl.
  unfold project_pixel. simpl.
  destruct fuel as [|[|fuel]]; [reflexivity | reflexivity |].
  unfold drawLine.
  match goal with
  | |- context [drawLine_loop _ _ _ _ _ ?sx0 _ ?ex _ _ _ _ _] =>
      set (endX := ex); vm_compute in endX;
      set (sx := sx0); vm_compute in sx; subst endX sx
  end.
  line_step. line_step.
  rewrite drawLine_loop_overshoot by lia. reflexivity.
Qed.

(** C2: on a 2x4 mask with the pixel [(0,0)] opaque, light vector
    [(-1/8, -5/8)] and [maxDistance = 4], the endpoint is [(1/2, 5/2)],
    rounded to [(1,3)].  [project] marks [(0,0) (0,1) (0,2) (1,3)]; the
    integer algorithm between [(0,0)] and [(1,3)] marks
    [(0,0) (0,1) (1,2) (1,3)]. *)
Theorem project_differs_from_bresenham :
  let lv := {| lv_dx := - (1 # 8); lv_dy := - (5 # 8); lv_dz := 0 |} in
  let projX := (0 - lv_dx lv * 4 * 1)%Q in
  let projY := (0 - lv_dy lv * 4 * 1)%Q in
  let marked := [1; 0; 1; 0; 1; 0; 0; 1] in
  let reference := [1; 0; 1; 0; 0; 1; 0; 1] in
  project 10 [1; 0; 0; 0; 0; 0; 0; 0] 2 4 lv 4 None = Some marked /\
  bresenham 10 (replicate 8 0) 2 4
      (JS.Math_round 0) (JS.Math_round 0)
      (JS.Math_round projX) (JS.Math_round projY)
    = Some reference /\
  marked <> reference.
Proof.
  cbv zeta. split; [vm_compute; reflexivity |].
  split; [vm_compute; reflexivity |].
  intros Heq. discriminate Heq.
Qed.

(** A comparison of numbers that hold integers is the comparison of
    the integers. *)
Lemma Qlt_bool_inject_Z (a b : Q) (x y : Z) :
  (a == inject_Z x)%Q -> (b == inject_Z y)%Q -> JS.Qlt_bool a b = (x <? y).
Proof.
  intros Ha Hb. destruct (Z.ltb_spec x y) as [Hlt | Hge].
  - apply Qlt_bool_true. rewrite Ha, Hb, <- Zlt_Qlt. exact Hlt.
  - apply Qlt_bool_false. rewrite Ha, Hb, <- Zle_Qle. exact Hge.
Qed.

(** When the deltas and the error hold integers, the loop of [drawLine]
    is the loop of the integer algorithm. *)
Lemma drawLine_loop_integer w h (dx dy : Q) (DX DY sx sy endX endY : Z) fuel :
  (dx == inject_Z DX)%Q -> (dy == inject_Z DY)%Q ->
  forall buffer x y (err : Q) (E : Z),
    (err == inject_Z E)%Q ->
    drawLine_loop fuel w h dx dy sx sy endX endY buffer x y err
    = bresenham_loop fuel w h DX DY sx sy endX endY buffer x y E.
Proof.
  intros Hdx Hdy.
  induction fuel as [|fuel IH]; intros buffer x y err E Herr; [reflexivity |].
  simpl. destruct ((x =? endX) && (y =? endY)); [reflexivity |].
  unfold advance.
  rewrite (Qlt_bool_inject_Z (- dy) (2 * err) (- DY) (2 * E))
    by (rewrite ?Hdy, ?Herr, ?inject_Z_opp, ?inject_Z_mult; reflexivity).
  rewrite (Qlt_bool_inject_Z (2 * err) dx (2 * E) DX)
    by (rewrite ?Hdx, ?Herr, ?inject_Z_mult; reflexivity).
  destruct (- DY <? 2 * E); destruct (2 * E <? DX); apply IH;
    rewrite ?Hdx, ?Hdy, ?Herr, ?inject_Z_plus, ?inject_Z_opp;
    unfold Z.sub; rewrite ?inject_Z_plus, ?inject_Z_opp; ring.
Qed.

(** Between integer points [drawLine] is the integer algorithm: the two
    part only when an endpoint has a fractional part. *)
Lemma drawLine_integer_endpoints fuel buffer w h (X0 Y0 X1 Y1 : Z) :
  drawLine fuel buffer w h
    (inject_Z X0) (inject_Z Y0) (inject_Z X1) (inject_Z Y1)
  = bresenham fuel buffer w h X0 Y0 X1 Y1.
Proof.
  unfold drawLine, bresenham. rewrite !Math_round_Z.
  rewrite (Qlt_bool_inject_Z (inject_Z X0) (inject_Z X1) X0 X1)
    by reflexivity.
  rewrite (Qlt_bool_inject_Z (inject_Z Y0) (inject_Z Y1) Y0 Y1)
    by reflexivity.
  assert (Habs : forall a b : Z,
            (Qabs (inject_Z a - inject_Z b) == inject_Z (Z.abs (a - b)))%Q).
  { intros a b.
    assert (H : (inject_Z a - inject_Z b == inject_Z (a - b))%Q).
    { unfold Z.sub. rewrite inject_Z_plus, inject_Z_opp. ring. }
    rewrite H. reflexivity. }
  apply drawLine_loop_integer; [apply Habs | apply Habs |].
  rewrite !Habs. unfold Z.sub at 3.
  rewrite inject_Z_plus, inject_Z_opp. ring.
Qed.

(** Cell by cell, the result of [removeOcclusions]. *)
Lemma removeOcclusions_lookup shadowMask silhouetteMask w h (i : nat) :
  removeOcclusions shadowMask silhouetteMask w h !! i =
  if decide (i < w * h)%nat
  then Some (if cell_is 1 shadowMask i && cell_is 0 silhouetteMask i
             then 1 else 0)
  else None.
Proof.
  unfold removeOcclusions, removeOcclusions_body.
  rewrite (for_loop_insert_lookup (length shadowMask)
             (fun i => cell_is 1 shadowMask i && cell_is 0 silhouetteMask i)
             (fun _ => 1)).
  rewrite length_replicate.
  destruct (decide (i < w * h)%nat) as [Hi|Hi].
  - rewrite lookup_replicate_2 by exact Hi.
    destruct (cell_is 1 shadowMask i && cell_is 0 silhouetteMask i) eqn:Hc.
    + rewrite decide_True; [reflexivity |].
      repeat split; [| exact Hi].
      apply andb_true_iff in Hc as [Hc _]. unfold cell_is in Hc.
      destruct (shadowMask !! i) eqn:Hs; [| discriminate].
      eapply lookup_lt_Some; exact Hs.
    + rewrite decide_False; [reflexivity |].
      intros (_ & Habs & _). discriminate.
  - rewrite decide_False by (intros (_ & _ & ?); contradiction).
    apply lookup_replicate_None. lia.
Qed.

Lemma removeOcclusions_length shadowMask silhouetteMask w h :
  length (removeOcclusions shadowMask silhouetteMask w h) = (w * h)%nat.
Proof.
  unfold removeOcclusions, removeOcclusions_body.
  rewrite (for_loop_insert_length (length shadowMask)
             (fun i => cell_is 1 shadowMask i && cell_is 0 silhouetteMask i)
             (fun _ => 1)).
  apply length_replicate.
Qed.

(** C5: [removeOcclusions] is idempotent for a fixed silhouette, and no
    cell of its result is 1 where the silhouette is 1. *)
Theorem removeOcclusions_idempotent_disjoint :
  forall (shadowMask silhouetteMask : list Z) (w h : nat),
    removeOcclusions (removeOcclusions shadowMask silhouetteMask w h)
      silhouetteMask w h
    = removeOcclusions shadowMask silhouetteMask w h
    /\ forall i : nat,
         ~ (removeOcclusions shadowMask silhouetteMask w h !! i = Some 1
            /\ silhouetteMask !! i = Some 1).
Proof.
  intros shadowMask silhouetteMask w h. split.
  - apply list_eq. intros i.
    rewrite !removeOcclusions_lookup.
    destruct (decide (i < w * h)%nat) as [Hi|Hi]; [| reflexivity].
    f_equal.
    unfold cell_is at 1. rewrite removeOcclusions_lookup.
    rewrite decide_True by exact Hi.
    destruct (cell_is 1 shadowMask i && cell_is 0 silhouetteMask i) eqn:Hc.
    + apply andb_true_iff in Hc as [_ Hc]. simpl. rewrite Hc. reflexivity.
    + reflexivity.
  - intros i [Hr Hs].
    rewrite removeOcclusions_lookup in Hr.
    destruct (decide (i < w * h)%nat); [| discriminate].
    destruct (cell_is 1 shadowMask i && cell_is 0 silhouetteMask i) eqn:Hc;
      [| discriminate].
    apply andb_true_iff in Hc as [_ Hc].
    unfold cell_is in Hc. rewrite Hs in Hc. discriminate.
Qed.

End ShadowProjectorFacts.

(** ** ContactLineDetector *)

Section ContactLineDetectorFacts.
Import ContactLineDetector.

Lemma cell_is_true v buf i : cell_is v buf i = true <-> buf !! i = Some v.
Proof.
  unfold cell_is. destruct (buf !! i) as [c|]; [| split; discriminate].
  rewrite Z.eqb_eq. split; [intros -> | intros [= ->]]; reflexivity.
Qed.

(** What the scan of a column leaves in [lowestY]. *)
Lemma scan_column_spec mask w x n :
  (scan_column mask w x n = -1 /\
   forall y, (y < n)%nat -> mask !! (y * w + x)%nat <> Some 1)
  \/
  (exists y, (y < n)%nat /\ scan_column mask w x n = Z.of_nat y /\
     mask !! (y * w + x)%nat = Some 1 /\
     forall y', (y < y' < n)%nat -> mask !! (y' * w + x)%nat <> Some 1).
Proof.
  induction n as [|n IH]; simpl.
  - left. split; [reflexivity | intros y Hy; lia].
  - destruct (cell_is 1 mask (n * w + x)) eqn:Hc.
    + right. exists n. repeat split; [lia | | intros y' Hy'; lia].
      apply cell_is_true. exact Hc.
    + assert (Hn : mask !! (n * w + x)%nat <> Some 1).
      { intros H. apply cell_is_true in H. congruence. }
      destruct IH as [[Hm Hall] | (y & Hy & Hs & Hone & Hbelow)].
      * left. split; [exact Hm |].
        intros y Hy. destruct (decide (y = n)) as [->|]; [exact Hn |].
        apply Hall. lia.
      * right. exists y. repeat split; [lia | exact Hs | exact Hone |].
        intros y' Hy'. destruct (decide (y' = n)) as [->|]; [exact Hn |].
        apply Hbelow. lia.
Qed.

(** The invariant of the loop over the columns, after [n] columns. *)
Lemma detect_columns_inv mask w h n :
  (n <= w)%nat ->
  let pts := for_loop n (detect_column mask w h) [] in
  (forall p, p ∈ pts -> lowest_opaque mask w h p /\ pt_x p < Z.of_nat n) /\
  (forall i j p q, pts !! i = Some p -> pts !! j = Some q ->
     pt_x p = pt_x q -> i = j).
Proof.
  induction n as [|n IH]; intros Hn; cbv zeta.
  - split.
    + intros p Hp. unfold for_loop in Hp. simpl in Hp. inversion Hp.
    + intros i j p q Hi. unfold for_loop in Hi. simpl in Hi. discriminate.
  - rewrite for_loop_S.
    destruct IH as [IHp IHu]; [lia |].
    set (pts := for_loop n (detect_column mask w h) []) in *.
    unfold detect_column.
    destruct (0 <=? scan_column mask w n h) eqn:Hpos.
    + destruct (scan_column_spec mask w n h)
        as [[Hm _] | (y & Hy & Hs & Hone & Hbelow)];
        [rewrite Hm in Hpos; discriminate |].
      rewrite Hs. split.
      * intros p [Hp | Hp]%elem_of_app.
        -- destruct (IHp p Hp) as [Hl Hx]. split; [exact Hl | lia].
        -- apply list_elem_of_singleton in Hp. subst p. simpl.
           split; [| lia].
           exists n, y. simpl. repeat split; [lia | exact Hy | exact Hone | exact Hbelow].
      * intros i j p q Hi Hj Hxy.
        apply lookup_app_Some in Hi. apply lookup_app_Some in Hj.
        destruct Hi as [Hi | [Hil Hi]], Hj as [Hj | [Hjl Hj]].
        -- eapply IHu; eassumption.
        -- apply list_lookup_singleton_Some in Hj as [_ <-]. simpl in Hxy.
           apply list_elem_of_lookup_2 in Hi. apply IHp in Hi. lia.
        -- apply list_lookup_singleton_Some in Hi as [_ <-]. simpl in Hxy.
           apply list_elem_of_lookup_2 in Hj. apply IHp in Hj. lia.
        -- apply list_lookup_singleton_Some in Hi as [Hi _].
           apply list_lookup_singleton_Some in Hj as [Hj _]. lia.
    + split.
      * intros p Hp. destruct (IHp p Hp) as [Hl Hx]. split; [exact Hl | lia].
      * exact IHu.
Qed.

(** C3: every point of the contact line is an opaque pixel of the mask,
    the lowest one of its column, within the image, and no two points of
    the line share a column. *)
Theorem detect_lowest_opaque :
  forall (mask : list Z) (w h : nat),
    let line := points (detect mask w h) in
    (forall p, p ∈ line ->
       exists x y : nat,
         pt_x p = Z.of_nat x /\ pt_y p = Z.of_nat y /\
         (x < w)%nat /\ (y < h)%nat /\
         mask !! (y * w + x)%nat = Some 1 /\
         forall y', (y < y' < h)%nat -> mask !! (y' * w + x)%nat <> Some 1)
    /\ (forall i j p q, line !! i = Some p -> line !! j = Some q ->
          pt_x p = pt_x q -> i = j).
Proof.
  intros mask w h line.
  destruct (detect_columns_inv mask w h w (le_n w)) as [Hp Hu].
  split.
  - intros p Hin. apply (Hp p Hin).
  - exact Hu.
Qed.

End ContactLineDetectorFacts.

(** ** BlurEngine *)

Section BlurEngineFacts.
Import BlurEngine.

Lemma sample_count_mono imageData cx cy radius dy dx acc :
  (count acc <= count (sample imageData cx cy radius dy dx acc))%nat.
Proof.
  unfold sample.
  destruct (_ || _); [lia |].
  destruct (JS.Qlt_bool _ _); simpl; lia.
Qed.

(** A fold whose steps never lower a measure, and one of whose steps
    raises it, raises it. *)
Lemma fold_left_measure_lt {A B : Type} (m : A -> nat) (f : A -> B -> A)
    (l : list B) (d0 : B) :
  (forall a d, (m a <= m (f a d))%nat) ->
  (forall a, (m a < m (f a d0))%nat) ->
  d0 ∈ l ->
  forall a, (m a < m (fold_left f l a))%nat.
Proof.
  intros Hmono Hstrict Hin.
  assert (Hle : forall l' a, (m a <= m (fold_left f l' a))%nat).
  { induction l' as [|d l' IH]; intros a; simpl; [lia |].
    specialize (IH (f a d)). specialize (Hmono a d). lia. }
  induction l as [|d l IH]; intros a; [inversion Hin |].
  simpl. apply elem_of_cons in Hin as [<- | Hin].
  - specialize (Hstrict a). specialize (Hle l (f a d0)). lia.
  - specialize (IH Hin (f a d)). specialize (Hmono a d). lia.
Qed.

Lemma z_range_zero (R : Z) : 0 <= R -> 0 ∈ z_range (- R) R.
Proof.
  intros HR. unfold z_range.
  apply list_elem_of_fmap. exists (Z.to_nat R). split; [lia |].
  apply elem_of_seq. lia.
Qed.

(** The center sample is taken: it is inside the image and at distance 0. *)
Lemma sample_center imageData cx cy radius acc :
  0 <= cx < Z.of_nat (width imageData) ->
  0 <= cy < Z.of_nat (height imageData) ->
  count (sample imageData cx cy radius 0 0 acc) = S (count acc).
Proof.
  intros Hx Hy.
  assert (Hd : JS.Qlt_bool (radius * radius) (inject_Z (0 * 0 + 0 * 0)) = false).
  { apply Qlt_bool_false. simpl.
    change (inject_Z 0) with 0%Q.
    destruct (Qlt_le_dec radius 0) as [Hneg | Hpos].
    - assert (Heq : (radius * radius == (- radius) * (- radius))%Q) by ring.
      rewrite Heq.
      apply Qmult_le_0_compat; lra.
    - apply Qmult_le_0_compat; exact Hpos. }
  unfold sample. rewrite Hd.
  rewrite !Z.add_0_r.
  replace (cx <? 0) with false by (symmetry; apply Z.ltb_ge; lia).
  replace (Z.of_nat (width imageData) <=? cx) with false
    by (symmetry; apply Z.leb_gt; lia).
  replace (cy <? 0) with false by (symmetry; apply Z.ltb_ge; lia).
  replace (Z.of_nat (height imageData) <=? cy) with false
    by (symmetry; apply Z.leb_gt; lia).
  reflexivity.
Qed.

Lemma neighborhood_count imageData cx cy radius :
  0 <= cx < Z.of_nat (width imageData) ->
  0 <= cy < Z.of_nat (height imageData) ->
  ((1 # 2) <= radius)%Q ->
  (1 <= count (neighborhood imageData cx cy radius))%nat.
Proof.
  intros Hx Hy Hr.
  assert (HR : 0 <= JS.Math_ceil radius).
  { unfold JS.Math_ceil.
    pose proof (Qle_ceiling radius) as Hc.
    assert (H0 : (0 <= inject_Z (Qceiling radius))%Q) by lra.
    change 0%Q with (inject_Z 0) in H0. rewrite <- Zle_Qle in H0. exact H0. }
  unfold neighborhood.
  set (R := JS.Math_ceil radius) in *.
  set (row := fun acc dy =>
         fold_left (fun acc dx => sample imageData cx cy radius dy dx acc)
           (z_range (- R) R) acc).
  assert (Hmono : forall a d, (count a <= count (row a d))%nat).
  { intros a d. unfold row. generalize (z_range (- R) R). intros l. revert a.
    induction l as [|dx l IH]; intros a; simpl; [lia |].
    specialize (IH (sample imageData cx cy radius d dx a)).
    pose proof (sample_count_mono imageData cx cy radius d dx a). lia. }
  assert (Hcenter : forall a, (count a < count (row a 0%Z))%nat).
  { intros a. unfold row.
    apply (fold_left_measure_lt count
             (fun acc dx => sample imageData cx cy radius 0 dx acc)
             (z_range (- R) R) 0).
    - intros a' d. apply sample_count_mono.
    - intros a'. rewrite sample_center by assumption. lia.
    - apply z_range_zero. exact HR. }
  pose proof (fold_left_measure_lt count row (z_range (- R) R) 0
                Hmono Hcenter (z_range_zero R HR)
                {| sum_r := 0; sum_g := 0; sum_b := 0; sum_a := 0;
                   count := 0 |}) as Hfold.
  simpl count in Hfold at 1. lia.
Qed.

(** C10: for an in-bounds center and a radius of at least 0.5, the loops
    of [gaussianBlurAtPixel] count at least one sample (the center), so
    the function returns the clamped, rounded averages: the branch
    [count > 0] is the one taken and each sum is divided by a positive
    count. *)
Theorem neighborhood_count_positive :
  forall (imageData : ImageData) (cx cy : Z) (radius : Q),
    0 <= cx < Z.of_nat (width imageData) ->
    0 <= cy < Z.of_nat (height imageData) ->
    ((1 # 2) <= radius)%Q ->
    let acc := neighborhood imageData cx cy radius in
    let n := inject_Z (Z.of_nat (count acc)) in
    (1 <= count acc)%nat /\
    forall clamp : Q -> Q -> Q -> Q,
      gaussianBlurAtPixel clamp imageData cx cy radius =
      {| col_r := clamp (inject_Z (JS.Math_round (sum_r acc / n)%Q)) 0%Q 255%Q;
         col_g := clamp (inject_Z (JS.Math_round (sum_g acc / n)%Q)) 0%Q 255%Q;
         col_b := clamp (inject_Z (JS.Math_round (sum_b acc / n)%Q)) 0%Q 255%Q;
         col_a := clamp (inject_Z (JS.Math_round (sum_a acc / n)%Q)) 0%Q 255%Q |}.
Proof.
  intros imageData cx cy radius Hx Hy Hr. cbv zeta.
  pose proof (neighborhood_count imageData cx cy radius Hx Hy Hr) as Hcount.
  split; [exact Hcount |].
  intros clamp. unfold gaussianBlurAtPixel.
  replace (JS.Qlt_bool radius (1 # 2)) with false
    by (symmetry; apply Qlt_bool_false; exact Hr).
  replace (0 <? count (neighborhood imageData cx cy radius))%nat with true
    by (symmetry; apply Nat.ltb_lt; lia).
  reflexivity.
Qed.

(** C10, at a 1x1 image and radius 1/2. *)
Lemma neighborhood_count_positive_witness :
  let imageData := {| width := 1; height := 1; data := [0; 0; 0; 255]%Z |} in
  let acc := neighborhood imageData 0 0 (1 # 2) in
  let n := inject_Z (Z.of_nat (count acc)) in
  (1 <= count acc)%nat /\
  forall clamp : Q -> Q -> Q -> Q,
    gaussianBlurAtPixel clamp imageData 0 0 (1 # 2) =
    {| col_r := clamp (inject_Z (JS.Math_round (sum_r acc / n)%Q)) 0%Q 255%Q;
       col_g := clamp (inject_Z (JS.Math_round (sum_g acc / n)%Q)) 0%Q 255%Q;
       col_b := clamp (inject_Z (JS.Math_round (sum_b acc / n)%Q)) 0%Q 255%Q;
       col_a := clamp (inject_Z (JS.Math_round (sum_a acc / n)%Q)) 0%Q 255%Q |}.
Proof.
  apply neighborhood_count_positive; simpl; [lia | lia | lra].
Defined.

End BlurEngineFacts.

(** ** ShadowGenerator.validateImages *)

Section ValidateFacts.
Import ShadowGenerator.

Lemma validateImages_present fg bg dm :
  validateImages {| foreground := Some fg; background := Some bg;
                    depthMap := dm |}
  = Returned
      ((if negb (width fg =? width bg)%nat || negb (height fg =? height bg)%nat
        then [image_mismatch] else [])
       ++ match dm with
          | Some d =>
              if negb (width d =? width fg)%nat
                 || negb (height d =? height fg)%nat
              then [depth_mismatch] else []
          | None => []
          end).
Proof. reflexivity. Qed.

Lemma mismatch_test (a b c d : nat) :
  negb (a =? b)%nat || negb (c =? d)%nat = true <-> (a <> b \/ c <> d).
Proof.
  destruct (Nat.eqb_spec a b), (Nat.eqb_spec c d); simpl;
    split; intros H; try tauto; try discriminate; destruct H; contradiction.
Qed.

(** C9: [validateImages] throws exactly when the foreground or the
    background is absent; with both present it returns, and a mismatch of
    dimensions only adds a warning. *)
Theorem validateImages_throws_iff :
  forall images : ImageSet,
    ((exists message, validateImages images = Threw message)
     <-> (foreground images = None \/ background images = None))
    /\ (forall fg bg dm,
          exists warnings,
            validateImages {| foreground := Some fg; background := Some bg;
                              depthMap := dm |} = Returned warnings /\
            (image_mismatch ∈ warnings <->
               (width fg <> width bg \/ height fg <> height bg)) /\
            (depth_mismatch ∈ warnings <->
               exists d, dm = Some d /\
                 (width d <> width fg \/ height d <> height fg))).
Proof.
  intros [fg bg dm]. simpl. split.
  - unfold validateImages. simpl. split.
    + intros [message H]. destruct fg; [| left; reflexivity].
      destruct bg; [discriminate | right; reflexivity].
    + intros [-> | ->]; [eexists; reflexivity |].
      destruct fg; eexists; reflexivity.
  - clear. intros fg bg dm. eexists. split; [apply validateImages_present |].
    pose proof (mismatch_test (width fg) (width bg) (height fg) (height bg)) as Hi.
    destruct (negb (width fg =? width bg)%nat || negb (height fg =? height bg)%nat).
    + assert (Hm : width fg <> width bg \/ height fg <> height bg)
        by (apply Hi; reflexivity).
      destruct dm as [d|]; simpl.
      * pose proof (mismatch_test (width d) (width fg) (height d) (height fg)) as Hd.
        destruct (negb (width d =? width fg)%nat || negb (height d =? height fg)%nat).
        -- split; split; intros _.
           ++ exact Hm.
           ++ apply elem_of_cons. left. reflexivity.
           ++ exists d. split; [reflexivity | apply Hd; reflexivity].
           ++ apply elem_of_cons. right. apply elem_of_cons. left. reflexivity.
        -- split; split.
           ++ intros _. exact Hm.
           ++ intros _. apply elem_of_cons. left. reflexivity.
           ++ intros H. apply list_elem_of_singleton in H. discriminate.
           ++ intros (d' & [= <-] & H). apply Hd in H. discriminate.
      * split; split.
        -- intros _. exact Hm.
        -- intros _. apply elem_of_cons. left. reflexivity.
        -- intros H. apply list_elem_of_singleton in H. discriminate.
        -- intros (d' & Habs & _). discriminate.
    + assert (Hm : ~ (width fg <> width bg \/ height fg <> height bg)).
      { intros H. apply Hi in H. discriminate. }
      destruct dm as [d|]; simpl.
      * pose proof (mismatch_test (width d) (width fg) (height d) (height fg)) as Hd.
        destruct (negb (width d =? width fg)%nat || negb (height d =? height fg)%nat).
        -- split; split.
           ++ intros H. apply list_elem_of_singleton in H. discriminate.
           ++ intros H. contradiction.
           ++ intros _. exists d. split; [reflexivity | apply Hd; reflexivity].
           ++ intros _. apply elem_of_cons. left. reflexivity.
        -- split; split.
           ++ intros H. inversion H.
           ++ intros H. contradiction.
           ++ intros H. inversion H.
           ++ intros (d' & [= <-] & H). apply Hd in H. discriminate.
      * split; split.
        -- intros H. inversion H.
        -- intros H. contradiction.
        -- intros H. inversion H.
        -- intros (d' & Habs & _). discriminate.
Qed.

End ValidateFacts.

(** ** ShadowCompositor *)

Section ShadowCompositorFacts.
Import ImageDataUtils ShadowCompositor.

Lemma set_rgba_length idx c pixels :
  length (set_rgba idx c pixels) = length pixels.
Proof.
  destruct c as [[[r g] b] a]. unfold set_rgba.
  rewrite !length_insert. reflexivity.
Qed.

Lemma set_rgba_lookup_in idx r g b a pixels (c : nat) :
  (idx + 3 < length pixels)%nat -> (c < 4)%nat ->
  set_rgba idx (r, g, b, a) pixels !! (idx + c)%nat
  = Some (to_uint8_clamped
            (channel c {| col_r := r; col_g := g; col_b := b; col_a := a |})).
Proof.
  intros Hlen Hc. unfold set_rgba.
  destruct c as [|[|[|[|c]]]]; [| | | | lia]; simpl channel.
  - rewrite Nat.add_0_r.
    rewrite !list_lookup_insert_ne by lia.
    apply list_lookup_insert_eq. lia.
  - rewrite !list_lookup_insert_ne by lia.
    apply list_lookup_insert_eq. rewrite length_insert. lia.
  - rewrite !list_lookup_insert_ne by lia.
    apply list_lookup_insert_eq. rewrite !length_insert. lia.
  - apply list_lookup_insert_eq. rewrite !length_insert. lia.
Qed.

Lemma set_rgba_lookup_out idx c pixels (j : nat) :
  (j < idx \/ idx + 4 <= j)%nat ->
  set_rgba idx c pixels !! j = pixels !! j.
Proof.
  intros Hj. destruct c as [[[r g] b] a]. unfold set_rgba.
  rewrite !list_lookup_insert_ne by lia. reflexivity.
Qed.

(** A loop that writes pixel [i] at iteration [i]. *)
Lemma for_loop_set_rgba_length n (F : nat -> Q * Q * Q * Q) pixels :
  length (for_loop n (fun i p => set_rgba (i * 4) (F i) p) pixels)
  = length pixels.
Proof.
  induction n as [|n IH]; [reflexivity |].
  rewrite for_loop_S, set_rgba_length. exact IH.
Qed.

Lemma for_loop_set_rgba_lookup n (F : nat -> Q * Q * Q * Q) pixels (i c : nat) :
  (i < n)%nat -> (c < 4)%nat -> (n * 4 <= length pixels)%nat ->
  for_loop n (fun i p => set_rgba (i * 4) (F i) p) pixels !! (i * 4 + c)%nat
  = Some (to_uint8_clamped
            (channel c
               (let '(r, g, b, a) := F i in
                {| col_r := r; col_g := g; col_b := b; col_a := a |}))).
Proof.
  induction n as [|n IH]; intros Hi Hc Hlen; [lia |].
  rewrite for_loop_S.
  destruct (decide (i = n)) as [->|Hne].
  - destruct (F n) as [[[r g] b] a].
    apply set_rgba_lookup_in; [| exact Hc].
    rewrite for_loop_set_rgba_length. lia.
  - rewrite set_rgba_lookup_out by lia.
    apply IH; lia.
Qed.

(** A fully transparent source leaves the backdrop as it is. *)
Lemma alphaBlend_transparent bR bG bB bA sR sG sB :
  alphaBlend bR bG bB bA sR sG sB (inject_Z 0)
  = {| col_r := bR; col_g := bG; col_b := bB; col_a := bA |}.
Proof. reflexivity. Qed.

Lemma px_byte buf i : bytes buf -> byteQ (px buf i).
Proof.
  intros Hb. unfold px. destruct (buf !! i) as [c|] eqn:Hc.
  - exists c. split; [| reflexivity].
    eapply (proj1 (Forall_lookup _ _) Hb). exact Hc.
  - exists 0. split; [lia | reflexivity].
Qed.

(** The weighted mean of two bytes is within the bytes. *)
Lemma over_range (s b srcA dstA : Q) :
  (0 <= s <= 255)%Q -> (0 <= b <= 255)%Q ->
  (0 < srcA <= 1)%Q -> (0 <= dstA <= 1)%Q ->
  let outA := (srcA + dstA * (1 - srcA))%Q in
  (0 < outA <= 1)%Q /\
  (0 <= (s * srcA + b * dstA * (1 - srcA)) / outA <= 255)%Q.
Proof.
  intros Hs Hb Hsa Hda outA.
  assert (Ht : (0 <= dstA * (1 - srcA))%Q) by (apply Qmult_le_0_compat; lra).
  assert (Ht1 : (dstA * (1 - srcA) <= 1 - srcA)%Q) by nra.
  assert (Hout : (0 < outA <= 1)%Q) by (unfold outA; lra).
  split; [exact Hout |].
  set (t := (dstA * (1 - srcA))%Q) in *.
  assert (Hnum : (s * srcA + b * dstA * (1 - srcA) == s * srcA + b * t)%Q)
    by (unfold t; ring).
  rewrite Hnum.
  assert (H1 : (0 <= s * srcA)%Q) by (apply Qmult_le_0_compat; lra).
  assert (H2 : (0 <= b * t)%Q) by (apply Qmult_le_0_compat; lra).
  assert (H3 : (s * srcA <= 255 * srcA)%Q) by (apply Qmult_le_compat_r; lra).
  assert (H4 : (b * t <= 255 * t)%Q) by (apply Qmult_le_compat_r; lra).
  split.
  - apply Qle_shift_div_l; [lra |]. lra.
  - apply Qle_shift_div_r; [lra |]. unfold outA. fold t. lra.
Qed.

Lemma byteQ_range q : byteQ q -> (0 <= q <= 255)%Q.
Proof.
  intros (z & Hz & ->).
  change 0%Q with (inject_Z 0). change 255%Q with (inject_Z 255).
  rewrite <- !Zle_Qle. exact Hz.
Qed.

(** On bytes, every channel of [alphaBlend] is a byte. *)
Lemma alphaBlend_byte bR bG bB bA sR sG sB sA (c : nat) :
  byteQ bR -> byteQ bG -> byteQ bB -> byteQ bA ->
  byteQ sR -> byteQ sG -> byteQ sB -> byteQ sA ->
  byteQ (channel c (alphaBlend bR bG bB bA sR sG sB sA)).
Proof.
  intros HbR HbG HbB HbA HsR HsG HsB HsA. unfold alphaBlend.
  destruct (Qeq_bool (sA / 255) 0) eqn:Hsrc.
  - destruct c as [|[|[|c]]]; simpl; assumption.
  - apply Qeq_bool_neq in Hsrc.
    pose proof (byteQ_range _ HbR) as RbR. pose proof (byteQ_range _ HbG) as RbG.
    pose proof (byteQ_range _ HbB) as RbB. pose proof (byteQ_range _ HbA) as RbA.
    pose proof (byteQ_range _ HsR) as RsR. pose proof (byteQ_range _ HsG) as RsG.
    pose proof (byteQ_range _ HsB) as RsB. pose proof (byteQ_range _ HsA) as RsA.
    change (sA / 255)%Q with (sA * (1 # 255))%Q in *.
    change (bA / 255)%Q with (bA * (1 # 255))%Q in *.
    assert (Hsa : (0 < sA * (1 # 255) <= 1)%Q).
    { split; [| lra].
      destruct (Qlt_le_dec 0 (sA * (1 # 255))) as [H | H]; [exact H |].
      exfalso. apply Hsrc. lra. }
    assert (Hda : (0 <= bA * (1 # 255) <= 1)%Q) by lra.
    set (srcA := (sA * (1 # 255))%Q) in *.
    set (dstA := (bA * (1 # 255))%Q) in *.
    assert (Hout : (0 < srcA + dstA * (1 - srcA) <= 1)%Q)
      by (apply (over_range 0 0 srcA dstA); lra).
    replace (JS.Qlt_bool 0 (srcA + dstA * (1 - srcA))) with true
      by (symmetry; apply Qlt_bool_true; apply Hout).
    destruct c as [|[|[|c]]]; simpl; eexists; (split; [| reflexivity]);
      apply Math_round_byte.
    + apply over_range; assumption.
    + apply over_range; assumption.
    + apply over_range; assumption.
    + split; nra.
Qed.

Lemma channel_eta c col :
  channel c {| col_r := col_r col; col_g := col_g col;
               col_b := col_b col; col_a := col_a col |}
  = channel c col.
Proof. destruct col. reflexivity. Qed.

(** Under a transparent shadow pixel the color written is the blend of
    the foreground on the background. *)
Lemma composite_color_transparent background shadow foreground i :
  px (data shadow) (i * 4 + 3) = inject_Z 0 ->
  composite_color background shadow foreground i
  = alphaBlend
      (px (data background) (i * 4))
      (px (data background) (i * 4 + 1))
      (px (data background) (i * 4 + 2))
      (px (data background) (i * 4 + 3))
      (px (data foreground) (i * 4))
      (px (data foreground) (i * 4 + 1))
      (px (data foreground) (i * 4 + 2))
      (px (data foreground) (i * 4 + 3)).
Proof.
  intros Ha. unfold composite_color.
  rewrite Ha, alphaBlend_transparent. reflexivity.
Qed.

(** C6: with a shadow layer whose alpha is 0 at every pixel, each cell
    of the composite holds exactly the "over" blend of the foreground
    pixel on the background pixel. *)
Theorem composite_transparent_shadow :
  forall background shadow foreground : ImageData,
    well_formed background -> well_formed shadow -> well_formed foreground ->
    bytes (data background) -> bytes (data foreground) ->
    width foreground = width background ->
    height foreground = height background ->
    width shadow = width background ->
    height shadow = height background ->
    (forall i, (i < width background * height background)%nat ->
               data shadow !! (i * 4 + 3)%nat = Some 0) ->
    forall i c : nat,
      (i < width background * height background)%nat -> (c < 4)%nat ->
      exists v : Z,
        data (composite background shadow foreground) !! (i * 4 + c)%nat
        = Some v /\
        inject_Z v = channel c
          (alphaBlend
             (px (data background) (i * 4))
             (px (data background) (i * 4 + 1))
             (px (data background) (i * 4 + 2))
             (px (data background) (i * 4 + 3))
             (px (data foreground) (i * 4))
             (px (data foreground) (i * 4 + 1))
             (px (data foreground) (i * 4 + 2))
             (px (data foreground) (i * 4 + 3))).
Proof.
  intros background shadow foreground _ _ _ Hbg Hfg _ _ _ _ Halpha i c Hi Hc.
  unfold composite. simpl data.
  rewrite (for_loop_set_rgba_lookup _
             (fun i => let col := composite_color background shadow foreground i in
                       (col_r col, col_g col, col_b col, col_a col)));
    [| exact Hi | exact Hc | rewrite length_replicate; lia].
  cbv beta iota zeta. rewrite channel_eta.
  rewrite composite_color_transparent
    by (unfold px; rewrite (Halpha i Hi); reflexivity).
  match goal with
  | |- context [alphaBlend ?bR ?bG ?bB ?bA ?sR ?sG ?sB ?sA] =>
      destruct (alphaBlend_byte bR bG bB bA sR sG sB sA c)
        as (z & Hz & Hblend); try (apply px_byte; assumption)
  end.
  exists z. rewrite Hblend. split; [| reflexivity].
  f_equal. apply to_uint8_clamped_byte. exact Hz.
Qed.

(** C6 on one pixel: an opaque background, a half-transparent
    foreground. *)
Lemma composite_transparent_shadow_witness :
  let background := {| width := 1; height := 1; data := [10; 20; 30; 255] |} in
  let shadow := {| width := 1; height := 1; data := [0; 0; 0; 0] |} in
  let foreground := {| width := 1; height := 1; data := [200; 100; 50; 128] |} in
  exists v : Z,
    data (composite background shadow foreground) !! (0 * 4 + 0)%nat = Some v /\
    inject_Z v = channel 0
      (alphaBlend
         (px (data background) (0 * 4))
         (px (data background) (0 * 4 + 1))
         (px (data background) (0 * 4 + 2))
         (px (data background) (0 * 4 + 3))
         (px (data foreground) (0 * 4))
         (px (data foreground) (0 * 4 + 1))
         (px (data foreground) (0 * 4 + 2))
         (px (data foreground) (0 * 4 + 3))).
Proof.
  intros background shadow foreground.
  apply composite_transparent_shadow;
    try reflexivity; try (simpl; lia).
  - repeat constructor; lia.
  - repeat constructor; lia.
  - intros i Hi. simpl in Hi.
    destruct i as [|i]; [reflexivity | lia].
Defined.

End ShadowCompositorFacts.

(** ** Loops over the cells of an image *)

Lemma for_loop_ext {S : Type} n (body1 body2 : nat -> S -> S) s :
  (forall i s', (i < n)%nat -> body1 i s' = body2 i s') ->
  for_loop n body1 s = for_loop n body2 s.
Proof.
  intros H. induction n as [|n IH]; [reflexivity |].
  rewrite !for_loop_S, IH by (intros; apply H; lia).
  apply H. lia.
Qed.

(** One row: iteration [x] assigns cell [y * w + x]. *)
Lemma row_loop_length {A : Type} (f : nat -> A) (base n : nat) (buf : list A) :
  length (for_loop n (fun x b => <[ (base + x)%nat := f x ]> b) buf)
  = length buf.
Proof.
  induction n as [|n IH]; [reflexivity |].
  rewrite for_loop_S, length_insert. exact IH.
Qed.

Lemma row_loop_lookup_in {A : Type} (f : nat -> A) (base n : nat)
    (buf : list A) (x : nat) :
  (x < n)%nat -> (base + x < length buf)%nat ->
  for_loop n (fun x b => <[ (base + x)%nat := f x ]> b) buf !! (base + x)%nat
  = Some (f x).
Proof.
  induction n as [|n IH]; intros Hx Hlen; [lia |].
  rewrite for_loop_S.
  destruct (decide (x = n)) as [->|Hne].
  - apply list_lookup_insert_eq. rewrite row_loop_length. exact Hlen.
  - rewrite list_lookup_insert_ne by lia. apply IH; [lia | exact Hlen].
Qed.

Lemma row_loop_lookup_out {A : Type} (f : nat -> A) (base n : nat)
    (buf : list A) (j : nat) :
  (j < base \/ base + n <= j)%nat ->
  for_loop n (fun x b => <[ (base + x)%nat := f x ]> b) buf !! j = buf !! j.
Proof.
  induction n as [|n IH]; intros Hj; [reflexivity |].
  rewrite for_loop_S, list_lookup_insert_ne by lia.
  apply IH. lia.
Qed.

(** The whole image: iteration [(y, x)] assigns cell [y * w + x]. *)
Lemma raster_loop_length {A : Type} (f : nat -> nat -> A) (w h : nat)
    (buf : list A) :
  length (for_loop h (fun y =>
            for_loop w (fun x b => <[ (y * w + x)%nat := f y x ]> b)) buf)
  = length buf.
Proof.
  induction h as [|h IH]; [reflexivity |].
  rewrite for_loop_S, row_loop_length. exact IH.
Qed.

Lemma raster_loop_lookup {A : Type} (f : nat -> nat -> A) (w h : nat)
    (buf : list A) (x y : nat) :
  (x < w)%nat -> (y < h)%nat -> (w * h <= length buf)%nat ->
  for_loop h (fun y =>
    for_loop w (fun x b => <[ (y * w + x)%nat := f y x ]> b)) buf
    !! (y * w + x)%nat
  = Some (f y x).
Proof.
  induction h as [|h IH]; intros Hx Hy Hlen; [lia |].
  rewrite for_loop_S.
  destruct (decide (y = h)) as [->|Hne].
  - apply row_loop_lookup_in; [exact Hx |].
    rewrite raster_loop_length. nia.
  - rewrite row_loop_lookup_out by nia.
    apply IH; [exact Hx | lia | nia].
Qed.

(** ** DistanceTransform *)

Section DistanceTransformFacts.
Import DistanceTransform.

Variable distance : Q -> Q -> Q -> Q -> Q.

(** What the absent helper is taken to satisfy, as the Euclidean
    distance does. *)
Hypothesis distance_nonneg : forall x1 y1 x2 y2, (0 <= distance x1 y1 x2 y2)%Q.
Hypothesis distance_self : forall x y, (distance x y x y == 0)%Q.

Lemma Math_min_nonneg m d : nonneg m -> (0 <= d)%Q -> nonneg (Math_min m d).
Proof.
  destruct m as [q|]; simpl; intros Hm Hd; [| exact Hd].
  apply Q.min_glb; assumption.
Qed.

Lemma Math_min_zero_l m d : is_zero m -> (0 <= d)%Q -> is_zero (Math_min m d).
Proof.
  destruct m as [q|]; simpl; intros Hm Hd; [| contradiction].
  rewrite Q.min_l; [exact Hm | rewrite Hm; exact Hd].
Qed.

Lemma Math_min_zero_r m d : nonneg m -> (d == 0)%Q -> is_zero (Math_min m d).
Proof.
  destruct m as [q|]; simpl; intros Hm Hd; [| exact Hd].
  rewrite Q.min_r; [exact Hd | rewrite Hd; exact Hm].
Qed.

Lemma nearest_fold_nonneg x y pts : forall acc,
  nonneg acc ->
  nonneg (fold_left (fun minDist point =>
      Math_min minDist
        (distance (inject_Z (Z.of_nat x)) (inject_Z (Z.of_nat y))
           (inject_Z (pt_x point)) (inject_Z (pt_y point)))) pts acc).
Proof.
  induction pts as [|p pts IH]; intros acc Hacc; simpl; [exact Hacc |].
  apply IH, Math_min_nonneg; [exact Hacc | apply distance_nonneg].
Qed.

Lemma nearest_fold_zero x y pts : forall acc,
  is_zero acc ->
  is_zero (fold_left (fun minDist point =>
      Math_min minDist
        (distance (inject_Z (Z.of_nat x)) (inject_Z (Z.of_nat y))
           (inject_Z (pt_x point)) (inject_Z (pt_y point)))) pts acc).
Proof.
  induction pts as [|p pts IH]; intros acc Hacc; simpl; [exact Hacc |].
  apply IH, Math_min_zero_l; [exact Hacc | apply distance_nonneg].
Qed.

Lemma nearest_nonneg x y pts : nonneg (nearest distance x y pts).
Proof. apply nearest_fold_nonneg. exact I. Qed.

(** Over a contact line that is not empty the minimum is finite. *)
Lemma nearest_finite x y pts :
  pts <> [] -> exists q, nearest distance x y pts = Fin q.
Proof.
  intros Hne. unfold nearest.
  destruct pts as [|p pts]; [contradiction |]. simpl.
  generalize (distance (inject_Z (Z.of_nat x)) (inject_Z (Z.of_nat y))
                (inject_Z (pt_x p)) (inject_Z (pt_y p))).
  clear Hne p. induction pts as [|p pts IH]; intros q; simpl.
  - exists q. reflexivity.
  - apply IH.
Qed.

(** At a pixel that is itself a contact point the minimum is 0. *)
Lemma nearest_contact x y pts p :
  p ∈ pts -> pt_x p = Z.of_nat x -> pt_y p = Z.of_nat y ->
  is_zero (nearest distance x y pts).
Proof.
  intros Hin Hx Hy. unfold nearest.
  assert (Hgen : forall acc, nonneg acc ->
    is_zero (fold_left (fun minDist point =>
      Math_min minDist
        (distance (inject_Z (Z.of_nat x)) (inject_Z (Z.of_nat y))
           (inject_Z (pt_x point)) (inject_Z (pt_y point)))) pts acc));
    [| apply Hgen; exact I].
  induction pts as [|p' pts IH]; intros acc Hacc; [inversion Hin |].
  simpl. apply elem_of_cons in Hin as [<- | Hin].
  - apply nearest_fold_zero, Math_min_zero_r; [exact Hacc |].
    rewrite Hx, Hy. apply distance_self.
  - apply IH; [exact Hin |].
    apply Math_min_nonneg; [exact Hacc | apply distance_nonneg].
Qed.

Lemma compute_data mask contactLine w h :
  dm_data (compute distance mask contactLine w h) =
  if (length (points contactLine) =? 0)%nat
  then replicate (w * h) (Fin 0)
  else for_loop h (fun y =>
         for_loop w (fun x b =>
           <[ (y * w + x)%nat := pixel_distance distance mask contactLine w y x ]> b))
         (replicate (w * h) (Fin 0)).
Proof.
  unfold compute.
  destruct (length (points contactLine) =? 0)%nat; [reflexivity |].
  simpl. apply for_loop_ext. intros y s _.
  apply for_loop_ext. intros x s' _.
  unfold compute_pixel, pixel_distance.
  destruct (cell_is 0 mask (y * w + x)); reflexivity.
Qed.

Lemma compute_lookup mask contactLine w h x y :
  (x < w)%nat -> (y < h)%nat ->
  dm_data (compute distance mask contactLine w h) !! (y * w + x)%nat =
  Some (if (length (points contactLine) =? 0)%nat then Fin 0
        else pixel_distance distance mask contactLine w y x).
Proof.
  intros Hx Hy. rewrite compute_data.
  destruct (length (points contactLine) =? 0)%nat.
  - apply lookup_replicate_2. nia.
  - apply raster_loop_lookup; [exact Hx | exact Hy |].
    rewrite length_replicate. lia.
Qed.

Lemma compute_length mask contactLine w h :
  length (dm_data (compute distance mask contactLine w h)) = (w * h)%nat.
Proof.
  rewrite compute_data.
  destruct (length (points contactLine) =? 0)%nat.
  - apply length_replicate.
  - rewrite raster_loop_length. apply length_replicate.
Qed.

Lemma pixel_distance_nonneg mask contactLine w y x :
  points contactLine <> [] ->
  exists q, pixel_distance distance mask contactLine w y x = Fin q
            /\ (0 <= q)%Q.
Proof.
  intros Hne. unfold pixel_distance. destruct (cell_is 0 mask (y * w + x)).
  - exists 0%Q. split; [reflexivity | lra].
  - destruct (nearest_finite x y (points contactLine) Hne) as [q Hq].
    exists q. split; [exact Hq |].
    pose proof (nearest_nonneg x y (points contactLine)) as Hn.
    rewrite Hq in Hn. exact Hn.
Qed.

(** C4: every distance is a finite number, at least 0; it is 0 at every
    pixel that is a contact point and at every pixel the mask leaves out;
    an empty contact line gives the all-zero map. *)
Theorem compute_distance_properties :
  forall (mask : list Z) (contactLine : ContactLine) (w h : nat),
    let map := dm_data (compute distance mask contactLine w h) in
    (forall i d, map !! i = Some d -> exists q, d = Fin q /\ (0 <= q)%Q)
    /\ (forall p (x y : nat),
          p ∈ points contactLine ->
          pt_x p = Z.of_nat x -> pt_y p = Z.of_nat y ->
          (x < w)%nat -> (y < h)%nat ->
          exists d, map !! (y * w + x)%nat = Some d /\ is_zero d)
    /\ (forall x y : nat,
          (x < w)%nat -> (y < h)%nat ->
          mask !! (y * w + x)%nat = Some 0 ->
          map !! (y * w + x)%nat = Some (Fin 0))
    /\ (points contactLine = [] -> map = replicate (w * h) (Fin 0)).
Proof.
  intros mask contactLine w h map. subst map. repeat split.
  - intros i d Hd.
    assert (Hi : (i < w * h)%nat).
    { apply lookup_lt_Some in Hd. rewrite compute_length in Hd. exact Hd. }
    assert (Hw : (0 < w)%nat) by nia.
    assert (Hidx : i = (i / w * w + i mod w)%nat).
    { rewrite (Nat.div_mod_eq i w) at 1. lia. }
    rewrite Hidx, compute_lookup in Hd.
    + injection Hd as <-.
      destruct (length (points contactLine) =? 0)%nat eqn:Hlen.
      * exists 0%Q. split; [reflexivity | lra].
      * apply pixel_distance_nonneg. intros Hnil.
        rewrite Hnil in Hlen. discriminate.
    + apply Nat.mod_upper_bound. lia.
    + apply Nat.Div0.div_lt_upper_bound. lia.
  - intros p x y Hin Hpx Hpy Hx Hy.
    rewrite compute_lookup by assumption.
    eexists. split; [reflexivity |].
    destruct (length (points contactLine) =? 0)%nat eqn:Hlen.
    + simpl. reflexivity.
    + unfold pixel_distance. destruct (cell_is 0 mask (y * w + x)).
      * simpl. reflexivity.
      * eapply nearest_contact; eassumption.
  - intros x y Hx Hy Hm.
    rewrite compute_lookup by assumption. f_equal.
    destruct (length (points contactLine) =? 0)%nat; [reflexivity |].
    unfold pixel_distance.
    apply cell_is_true in Hm. rewrite Hm. reflexivity.
  - intros Hnil. rewrite compute_data, Hnil. reflexivity.
Qed.

End DistanceTransformFacts.

Lemma fixed_distance_nonneg x1 y1 x2 y2 : (0 <= fixed_distance x1 y1 x2 y2)%Q.
Proof.
  unfold fixed_distance.
  apply Qle_shift_div_l; [reflexivity |].
  rewrite Qmult_0_l. change 0%Q with (inject_Z 0). rewrite <- Zle_Qle.
  apply Z.sqrt_nonneg.
Qed.

Lemma fixed_distance_self x y : (fixed_distance x y x y == 0)%Q.
Proof.
  unfold fixed_distance.
  assert (H : (((x - x) * (x - x) + (y - y) * (y - y)) * inject_Z 4294967296
               == inject_Z 0)%Q) by (change (inject_Z 0) with 0%Q; ring).
  rewrite H, Qfloor_Z. reflexivity.
Qed.

(** C4 on a 2x2 mask whose right column is opaque, with the contact line
    [detect] finds. *)
Lemma compute_distance_properties_witness :
  let mask := [0; 1; 0; 1] in
  let contactLine := ContactLineDetector.detect mask 2 2 in
  let map := dm_data (DistanceTransform.compute fixed_distance mask contactLine 2 2) in
  (forall i d, map !! i = Some d -> exists q, d = Fin q /\ (0 <= q)%Q)
  /\ (forall p (x y : nat),
        p ∈ points contactLine ->
        pt_x p = Z.of_nat x -> pt_y p = Z.of_nat y ->
        (x < 2)%nat -> (y < 2)%nat ->
        exists d, map !! (y * 2 + x)%nat = Some d /\ is_zero d)
  /\ (forall x y : nat,
        (x < 2)%nat -> (y < 2)%nat ->
        mask !! (y * 2 + x)%nat = Some 0 ->
        map !! (y * 2 + x)%nat = Some (Fin 0))
  /\ (points contactLine = [] -> map = replicate (2 * 2) (Fin 0)).
Proof.
  exact (compute_distance_properties fixed_distance
           fixed_distance_nonneg fixed_distance_self
           [0; 1; 0; 1] (ContactLineDetector.detect [0; 1; 0; 1] 2 2) 2 2).
Defined.

(** ** ShadowProjector: a horizontal cast *)

Section HorizontalCast.
Import ShadowProjector.

Lemma mark_length w h x y buf : length (mark w h x y buf) = length buf.
Proof.
  unfold mark. destruct (_ && _); [apply length_insert | reflexivity].
Qed.

Lemma mark_lookup_in w h (x y : nat) buf :
  (x < w)%nat -> (y < h)%nat -> (y * w + x < length buf)%nat ->
  mark w h (Z.of_nat x) (Z.of_nat y) buf !! (y * w + x)%nat = Some 1.
Proof.
  intros Hx Hy Hlen. unfold mark.
  replace (0 <=? Z.of_nat x) with true by (symmetry; apply Z.leb_le; lia).
  replace (Z.of_nat x <? Z.of_nat w) with true by (symmetry; apply Z.ltb_lt; lia).
  replace (0 <=? Z.of_nat y) with true by (symmetry; apply Z.leb_le; lia).
  replace (Z.of_nat y <? Z.of_nat h) with true by (symmetry; apply Z.ltb_lt; lia).
  simpl.
  replace (Z.to_nat (Z.of_nat y * Z.of_nat w + Z.of_nat x)) with (y * w + x)%nat
    by lia.
  apply list_lookup_insert_eq. exact Hlen.
Qed.

(** A mark leaves every other cell alone. *)
Lemma mark_lookup_other w h (x y : Z) buf (j : nat) :
  (0 <= x < Z.of_nat w -> 0 <= y < Z.of_nat h ->
   j <> Z.to_nat (y * Z.of_nat w + x)) ->
  mark w h x y buf !! j = buf !! j.
Proof.
  intros Hj. unfold mark.
  destruct ((0 <=? x) && (x <? Z.of_nat w) && (0 <=? y) && (y <? Z.of_nat h))
    eqn:Hb; [| reflexivity].
  apply andb_true_iff in Hb as [Hb Hy2]. apply andb_true_iff in Hb as [Hb Hy1].
  apply andb_true_iff in Hb as [Hx1 Hx2].
  apply Z.leb_le in Hx1, Hy1. apply Z.ltb_lt in Hx2, Hy2.
  apply list_lookup_insert_ne. intros Heq. apply Hj; [lia | lia | congruence].
Qed.

(** A marked cell stays marked. *)
Lemma mark_lookup_keep w h (x y : Z) buf (j : nat) :
  buf !! j = Some 1 -> mark w h x y buf !! j = Some 1.
Proof.
  intros Hj. unfold mark. destruct (_ && _); [| exact Hj].
  rewrite list_lookup_insert. destruct (decide _); [reflexivity | exact Hj].
Qed.

Lemma hline_length w h y x n : forall buf,
  length (hline w h y x n buf) = length buf.
Proof.
  revert x. induction n as [|n IH]; intros x buf; simpl.
  - apply mark_length.
  - rewrite IH. apply mark_length.
Qed.

Lemma hline_lookup_keep w h y n : forall x buf (j : nat),
  buf !! j = Some 1 -> hline w h y x n buf !! j = Some 1.
Proof.
  induction n as [|n IH]; intros x buf j Hj; simpl.
  - apply mark_lookup_keep. exact Hj.
  - apply IH, mark_lookup_keep. exact Hj.
Qed.

(** The cells of the segment [x - n .. x] that lie in the image are
    marked. *)
Lemma hline_lookup_in w h (y : nat) n : forall (x : Z) buf (x' : nat),
  (y < h)%nat -> (x' < w)%nat -> length buf = (w * h)%nat ->
  x - Z.of_nat n <= Z.of_nat x' <= x ->
  hline w h (Z.of_nat y) x n buf !! (y * w + x')%nat = Some 1.
Proof.
  induction n as [|n IH]; intros x buf x' Hy Hx' Hlen Hrange; simpl.
  - replace x with (Z.of_nat x') by lia.
    apply mark_lookup_in; [exact Hx' | exact Hy | nia].
  - destruct (decide (Z.of_nat x' = x)) as [<-|Hne].
    + apply hline_lookup_keep.
      apply mark_lookup_in; [exact Hx' | exact Hy | nia].
    + apply IH; [exact Hy | exact Hx' | rewrite mark_length; exact Hlen | lia].
Qed.

(** Every other cell is left alone. *)
Lemma hline_lookup_out w h (y : Z) n : forall (x : Z) buf (j : nat),
  (forall x', x - Z.of_nat n <= x' <= x ->
     0 <= x' < Z.of_nat w -> 0 <= y < Z.of_nat h ->
     j <> Z.to_nat (y * Z.of_nat w + x')) ->
  hline w h y x n buf !! j = buf !! j.
Proof.
  induction n as [|n IH]; intros x buf j Hj; simpl.
  - apply mark_lookup_other. intros Hx Hy. apply Hj; [lia | exact Hx | exact Hy].
  - rewrite IH.
    + apply mark_lookup_other. intros Hx Hy. apply Hj; [lia | exact Hx | exact Hy].
    + intros x' Hr Hx Hy. apply Hj; [lia | exact Hx | exact Hy].
Qed.

(** With [dy = 0] and the end to the left, each turn of the loop steps
    one cell to the left on the same row, and the loop stops at
    [endX]. *)
Lemma drawLine_loop_horizontal w h (dx dy : Q) (sy endX y : Z) n :
  forall fuel buf x err,
    (0 < dx)%Q -> (dy == 0)%Q -> (err == dx)%Q ->
    x - endX = Z.of_nat n -> (n < fuel)%nat ->
    drawLine_loop fuel w h dx dy (-1) sy endX y buf x y err
    = Some (hline w h y x n buf).
Proof.
  induction n as [|n IH]; intros fuel buf x err Hdx Hdy Herr Hx Hfuel.
  - destruct fuel as [|fuel]; [lia |].
    rewrite drawLine_loop_S.
    replace (x =? endX) with true by (symmetry; apply Z.eqb_eq; lia).
    rewrite Z.eqb_refl. reflexivity.
  - destruct fuel as [|fuel]; [lia |].
    rewrite drawLine_loop_S.
    replace (x =? endX) with false by (symmetry; apply Z.eqb_neq; lia).
    simpl andb. cbv iota. unfold advance.
    replace (JS.Qlt_bool (- dy) (2 * err)) with true
      by (symmetry; apply Qlt_bool_true; rewrite Hdy, Herr; lra).
    replace (JS.Qlt_bool (2 * err) dx) with false
      by (symmetry; apply Qlt_bool_false; rewrite Herr; lra).
    simpl hline.
    replace (x + -1) with (x - 1) by lia.
    apply IH; [exact Hdx | exact Hdy | rewrite Hdy, Herr; ring | lia | lia].
Qed.

(** [drawLine] from the integer point [(X, Y)] to an end on the same
    row, to the left. *)
Lemma drawLine_horizontal fuel buf w h (X Y : Z) (x1 y1 : Q) :
  (x1 < inject_Z X)%Q -> (y1 == inject_Z Y)%Q ->
  (Z.to_nat (X - JS.Math_round x1) < fuel)%nat ->
  drawLine fuel buf w h (inject_Z X) (inject_Z Y) x1 y1
  = Some (hline w h Y X (Z.to_nat (X - JS.Math_round x1)) buf).
Proof.
  intros Hx Hy Hfuel.
  assert (Hend : JS.Math_round x1 <= X) by (apply Math_round_le; lra).
  unfold drawLine. rewrite !Math_round_Z.
  replace (JS.Qlt_bool (inject_Z X) x1) with false
    by (symmetry; apply Qlt_bool_false; lra).
  assert (HendY : JS.Math_round y1 = Y).
  { unfold JS.Math_round. rewrite Hy. apply Math_round_Z. }
  rewrite HendY.
  assert (Hdx : (Qabs (x1 - inject_Z X) == inject_Z X - x1)%Q).
  { rewrite Qabs_neg by lra. ring. }
  assert (Hdy : (Qabs (y1 - inject_Z Y) == 0)%Q).
  { rewrite Hy. rewrite Qabs_pos by lra. ring. }
  apply drawLine_loop_horizontal.
  - rewrite Hdx. lra.
  - exact Hdy.
  - rewrite Hdy. ring.
  - lia.
  - exact Hfuel.
Qed.

(** A loop whose body does nothing except, possibly, at [i0]. *)
Lemma for_loop_from_single {St : Type} (body : nat -> St -> option St) (i0 : nat) :
  forall n start s,
    (forall i s', (start <= i < start + n)%nat -> i <> i0 -> body i s' = Some s') ->
    for_loop_from start n body s =
    if decide (start <= i0 < start + n)%nat then body i0 s else Some s.
Proof.
  induction n as [|n IH]; intros start s Hskip; simpl.
  - rewrite decide_False by lia. reflexivity.
  - destruct (decide (start = i0)) as [->|Hne].
    + rewrite decide_True by lia.
      destruct (body i0 s) as [s'|]; [| reflexivity].
      rewrite IH by (intros; apply Hskip; lia).
      rewrite decide_False by lia. reflexivity.
    + rewrite Hskip by lia.
      rewrite IH by (intros; apply Hskip; lia).
      destruct (decide (S start <= i0 < S start + n)%nat);
        [rewrite decide_True by lia | rewrite decide_False by lia]; reflexivity.
Qed.

Lemma for_loop_from_skip {St : Type} (body : nat -> St -> option St) n start s :
  (forall i s', (start <= i < start + n)%nat -> body i s' = Some s') ->
  for_loop_from start n body s = Some s.
Proof.
  intros Hskip.
  rewrite (for_loop_from_single body (start + n)) by (intros; apply Hskip; lia).
  rewrite decide_False by lia. reflexivity.
Qed.

Lemma raster_index_inj (w x y x' y' : nat) :
  (x < w)%nat -> (x' < w)%nat ->
  (y * w + x = y' * w + x')%nat -> y = y' /\ x = x'.
Proof.
  intros Hx Hx' Heq.
  assert (Hy : y = y').
  { destruct (Nat.lt_trichotomy y y') as [Hlt | [Heq' | Hgt]]; [| exact Heq' |]; nia. }
  subst y'. split; [reflexivity | lia].
Qed.

Lemma single_pixel_lookup w h X Y (x y : nat) :
  (X < w)%nat -> (Y < h)%nat -> (x < w)%nat -> (y < h)%nat ->
  single_pixel w h X Y !! (y * w + x)%nat
  = Some (if decide (y = Y /\ x = X) then 1 else 0).
Proof.
  intros HX HY Hx Hy. unfold single_pixel.
  destruct (decide (y = Y /\ x = X)) as [[-> ->] | Hne].
  - apply list_lookup_insert_eq. rewrite length_replicate. nia.
  - rewrite list_lookup_insert_ne.
    + apply lookup_replicate_2. nia.
    + intros Heq. apply Hne. symmetry in Heq.
      apply raster_index_inj in Heq; [tauto | exact Hx | exact HX].
Qed.

(** [project] on a single opaque pixel whose endpoint is on the same row,
    to the left: the result is the trace of that one line. *)
Lemma project_single_pixel_left fuel w h (X Y : nat) lv maxDistance :
  (X < w)%nat -> (Y < h)%nat ->
  let x1 := (inject_Z (Z.of_nat X) - lv_dx lv * maxDistance * 1)%Q in
  let y1 := (inject_Z (Z.of_nat Y) - lv_dy lv * maxDistance * 1)%Q in
  (x1 < inject_Z (Z.of_nat X))%Q -> (y1 == inject_Z (Z.of_nat Y))%Q ->
  (Z.to_nat (Z.of_nat X - JS.Math_round x1) < fuel)%nat ->
  project fuel (single_pixel w h X Y) w h lv maxDistance None
  = Some (hline w h (Z.of_nat Y) (Z.of_nat X)
            (Z.to_nat (Z.of_nat X - JS.Math_round x1))
            (replicate (w * h) 0)).
Proof.
  intros HX HY x1 y1 Hx1 Hy1 Hfuel.
  unfold project, for_loop_opt.
  assert (Hskip : forall y x s, (x < w)%nat -> (y < h)%nat ->
            ~ (y = Y /\ x = X) ->
            project_pixel fuel (single_pixel w h X Y) w h lv maxDistance None
              y x s = Some s).
  { intros y x s Hx Hy Hne. unfold project_pixel.
    replace (cell_is 0 (single_pixel w h X Y) (y * w + x)) with true;
      [reflexivity |].
    symmetry. apply cell_is_true.
    rewrite single_pixel_lookup by assumption.
    rewrite decide_False by exact Hne. reflexivity. }
  rewrite (for_loop_from_single _ Y).
  - rewrite decide_True by lia.
    unfold for_loop_opt.
    rewrite (for_loop_from_single _ X).
    + rewrite decide_True by lia.
      unfold project_pixel.
      replace (cell_is 0 (single_pixel w h X Y) (Y * w + X)) with false.
      * simpl warpFactor. cbv iota beta.
        apply drawLine_horizontal; assumption.
      * symmetry. apply not_true_iff_false. intros Hc.
        apply cell_is_true in Hc.
        rewrite single_pixel_lookup in Hc by assumption.
        rewrite decide_True in Hc by (split; reflexivity). discriminate.
    + intros x s [_ Hx] Hne. apply Hskip; [lia | exact HY | tauto].
  - intros y s [_ Hy] Hne. unfold for_loop_opt.
    apply for_loop_from_skip. intros x s' [_ Hx].
    apply Hskip; [lia | lia | tauto].
Qed.

End HorizontalCast.

(** ** Shadow direction *)

Section ShadowDirection.
Import LightVectorCalculator ShadowProjector.

Variable degreesToRadians : Q -> Q.
Variable Math_cos : Q -> Q.
Variable Math_sin : Q -> Q.

(** What is used of the trigonometry: the sine and cosine of 0 degrees,
    and bounds on those of 45 degrees (both are 0.7071...). *)
Hypothesis sin_0 : (Math_sin (degreesToRadians 0) == 0)%Q.
Hypothesis cos_0 : (Math_cos (degreesToRadians 0) == 1)%Q.
Hypothesis cos_45 : ((1 # 2) <= Math_cos (degreesToRadians 45))%Q.
Hypothesis sin_45 : (Math_sin (degreesToRadians 45) <= 1)%Q.

Local Abbreviation lightVector :=
  (calculate degreesToRadians Math_cos Math_sin 0 45).

Local Abbreviation shadowLength :=
  (getShadowLengthMultiplier degreesToRadians Math_sin 45 * 150)%Q.

Lemma shadowLength_long : (150 <= shadowLength)%Q.
Proof.
  unfold getShadowLengthMultiplier.
  set (m := Qmax (1 # 10) (Math_sin (degreesToRadians 45))).
  assert (Hm1 : (m <= 1)%Q) by (apply Q.max_lub; [lra | exact sin_45]).
  assert (Hm0 : (0 < m)%Q).
  { apply Qlt_le_trans with (1 # 10)%Q; [reflexivity | apply Q.le_max_l]. }
  assert (Hinv : (1 <= / m)%Q).
  { apply Qle_shift_inv_l; [exact Hm0 | lra]. }
  unfold Qdiv. nra.
Qed.

Lemma endpoint_row :
  (inject_Z 50 - lv_dy lightVector * shadowLength * 1 == inject_Z 50)%Q.
Proof.
  unfold calculate. simpl lv_dy. rewrite sin_0. ring.
Qed.

Lemma endpoint_left :
  (inject_Z 50 - lv_dx lightVector * shadowLength * 1 <= inject_Z (-25))%Q.
Proof.
  unfold calculate. simpl lv_dx. rewrite cos_0.
  pose proof shadowLength_long as Hlen.
  set (len := shadowLength) in *. clearbody len.
  change (inject_Z 50) with 50%Q. change (inject_Z (-25)) with (-25)%Q.
  nra.
Qed.

(** C7: light angle 0, elevation 45, one opaque pixel at [(50, 50)] of a
    200x200 mask, the light vector of [calculate] and the length
    [getShadowLengthMultiplier(45) * 150]: [project] returns, and after
    [removeOcclusions] the shadow is exactly the cells [(x, 50)] with
    [x < 50]: nothing at [x >= 50]. *)
Theorem shadow_cast_toward_negative_x :
  let mask := single_pixel 200 200 50 50 in
  exists fuel shadowMask,
    project fuel mask 200 200 lightVector shadowLength None = Some shadowMask
    /\ forall x y : nat,
         (x < 200)%nat -> (y < 200)%nat ->
         (removeOcclusions shadowMask mask 200 200 !! (y * 200 + x)%nat = Some 1
          <-> (y = 50%nat /\ (x < 50)%nat)).
Proof.
  intros mask.
  set (x1 := (inject_Z (Z.of_nat 50) - lv_dx lightVector * shadowLength * 1)%Q).
  assert (Hx1 : (x1 <= inject_Z (-25))%Q) by exact endpoint_left.
  assert (Hend : JS.Math_round x1 <= -25) by (apply Math_round_le; exact Hx1).
  set (n := Z.to_nat (Z.of_nat 50 - JS.Math_round x1)).
  exists (S n), (hline 200 200 (Z.of_nat 50) (Z.of_nat 50) n (replicate (200 * 200) 0)).
  split.
  - apply project_single_pixel_left.
    + lia.
    + lia.
    + apply Qle_lt_trans with (inject_Z (-25)); [exact Hx1 | reflexivity].
    + exact endpoint_row.
    + fold x1. fold n. lia.
  - intros x y Hx Hy.
    rewrite removeOcclusions_lookup.
    rewrite decide_True by lia.
    assert (Hmask : cell_is 0 mask (y * 200 + x)
                    = negb (bool_decide (y = 50%nat /\ x = 50%nat))).
    { unfold cell_is, mask. rewrite single_pixel_lookup by lia.
      destruct (decide (y = 50%nat /\ x = 50%nat)) as [H | H].
      - rewrite bool_decide_eq_true_2 by exact H. reflexivity.
      - rewrite bool_decide_eq_false_2 by exact H. reflexivity. }
    rewrite Hmask.
    destruct (decide (y = 50%nat /\ (x <= 50)%nat)) as [[-> Hle] | Hout].
    + replace (cell_is 1 _ (50 * 200 + x)) with true.
      * destruct (decide (x = 50%nat)) as [-> | Hne].
        -- rewrite bool_decide_eq_true_2 by (split; reflexivity). simpl.
           split; [discriminate | lia].
        -- rewrite bool_decide_eq_false_2 by (intros [_ ?]; contradiction).
           simpl. split; [intros _; split; [reflexivity | lia] | reflexivity].
      * symmetry. apply cell_is_true.
        apply hline_lookup_in; [lia | lia | apply length_replicate | lia].
    + replace (cell_is 1 _ (y * 200 + x)) with false.
      * simpl. split; [discriminate | intros [-> Hlt]; exfalso; apply Hout; lia].
      * symmetry. apply not_true_iff_false. intros Hc.
        apply cell_is_true in Hc.
        rewrite hline_lookup_out in Hc.
        -- rewrite lookup_replicate_2 in Hc by lia. discriminate.
        -- intros x' Hr Hx' _ Heq.
           replace (Z.to_nat (Z.of_nat 50 * Z.of_nat 200 + x'))
             with (50 * 200 + Z.to_nat x')%nat in Heq by lia.
           apply raster_index_inj in Heq as [-> Hxx]; [| lia | lia].
           apply Hout. split; [reflexivity | lia].
Qed.

End ShadowDirection.

(** C7 with these functions. *)
Lemma shadow_cast_toward_negative_x_witness :
  let mask := single_pixel 200 200 50 50 in
  exists fuel shadowMask,
    ShadowProjector.project fuel mask 200 200
      (LightVectorCalculator.calculate
         degreesToRadians_approx cos_approx sin_approx 0 45)
      (LightVectorCalculator.getShadowLengthMultiplier
         degreesToRadians_approx sin_approx 45 * 150)%Q
      None = Some shadowMask
    /\ forall x y : nat,
         (x < 200)%nat -> (y < 200)%nat ->
         (ShadowProjector.removeOcclusions shadowMask mask 200 200
            !! (y * 200 + x)%nat = Some 1
          <-> (y = 50%nat /\ (x < 50)%nat)).
Proof.
  apply (shadow_cast_toward_negative_x
           degreesToRadians_approx cos_approx sin_approx).
  - vm_compute. reflexivity.
  - vm_compute. reflexivity.
  - apply Qle_bool_iff. vm_compute. reflexivity.
  - apply Qle_bool_iff. vm_compute. reflexivity.
Defined.

(** ** The store: what [generate] writes *)

Section StoreFacts.
Import Store.

Lemma frame_refl n0 st : frame n0 st st.
Proof. split; [lia | reflexivity]. Qed.

Lemma frame_trans n0 st1 st2 st3 :
  frame n0 st1 st2 -> frame n0 st2 st3 -> frame n0 st1 st3.
Proof.
  intros [Hl1 H1] [Hl2 H2]. split; [lia |].
  intros l Hl. rewrite H2, H1 by exact Hl. reflexivity.
Qed.

Lemma safe_ret {A : Type} n0 (a : A) (P : A -> Prop) :
  P a -> safe n0 (ret a) P.
Proof.
  intros HP st a' st' _ [= <- <-]. split; [apply frame_refl | exact HP].
Qed.

Lemma safe_fail {A : Type} n0 (P : A -> Prop) : safe n0 fail P.
Proof. intros st a st' _ H. discriminate. Qed.

Lemma safe_bind {A B : Type} n0 (m : M A) (k : A -> M B)
    (P : A -> Prop) (Q : B -> Prop) :
  safe n0 m P -> (forall a, P a -> safe n0 (k a) Q) -> safe n0 (bind m k) Q.
Proof.
  intros Hm Hk st b st' Hn Hrun. unfold bind in Hrun.
  destruct (m st) as [[a st1]|] eqn:Em; [| discriminate].
  destruct (Hm st a st1 Hn Em) as [Hf1 HP].
  destruct (Hk a HP st1 b st') as [Hf2 HQ]; [destruct Hf1; lia | exact Hrun |].
  split; [eapply frame_trans; eassumption | exact HQ].
Qed.

Lemma safe_weaken {A : Type} n0 (m : M A) (P Q : A -> Prop) :
  safe n0 m P -> (forall a, P a -> Q a) -> safe n0 m Q.
Proof.
  intros Hm HPQ st a st' Hn Hrun.
  destruct (Hm st a st' Hn Hrun) as [Hf HP]. split; [exact Hf | auto].
Qed.

(** An allocation appends: the new location is past the old ones. *)
Lemma frame_alloc n0 st arr :
  (n0 <= length st)%nat -> frame n0 st (st ++ [arr]).
Proof.
  intros Hn. split; [rewrite length_app; lia |].
  intros l Hl. apply lookup_app_l. lia.
Qed.

Lemma safe_new_Uint8Array n0 n :
  safe n0 (new_Uint8Array n) (fun l => (n0 <= l)%nat).
Proof.
  intros st l st' Hn [= <- <-]. split; [apply frame_alloc; exact Hn | exact Hn].
Qed.

Lemma safe_new_Float32Array n0 n :
  safe n0 (new_Float32Array n) (fun l => (n0 <= l)%nat).
Proof.
  intros st l st' Hn [= <- <-]. split; [apply frame_alloc; exact Hn | exact Hn].
Qed.

Lemma safe_new_ImageData n0 w h :
  safe n0 (new_ImageData w h) (fun img => (n0 <= ref_data img)%nat).
Proof.
  intros st l st' Hn [= <- <-]. split; [apply frame_alloc; exact Hn | exact Hn].
Qed.

(** A read changes nothing. *)
Lemma safe_read_Uint8Array n0 l :
  safe n0 (read_Uint8Array l) (fun _ => True).
Proof.
  intros st a st' _ Hrun. unfold read_Uint8Array in Hrun.
  destruct (st !! l) as [[c|c|c]|]; simpl in Hrun; try discriminate.
  injection Hrun as <- <-. split; [apply frame_refl | exact I].
Qed.

Lemma safe_read_pixels n0 l : safe n0 (read_pixels l) (fun _ => True).
Proof.
  intros st a st' _ Hrun. unfold read_pixels in Hrun.
  destruct (st !! l) as [[c|c|c]|]; simpl in Hrun; try discriminate.
  injection Hrun as <- <-. split; [apply frame_refl | exact I].
Qed.

Lemma safe_read_Float32Array n0 l :
  safe n0 (read_Float32Array l) (fun _ => True).
Proof.
  intros st a st' _ Hrun. unfold read_Float32Array in Hrun.
  destruct (st !! l) as [[c|c|c]|]; simpl in Hrun; try discriminate.
  injection Hrun as <- <-. split; [apply frame_refl | exact I].
Qed.

Lemma safe_snapshot n0 img : safe n0 (snapshot img) (fun _ => True).
Proof.
  unfold snapshot. eapply safe_bind; [apply safe_read_pixels |].
  intros cells _. apply safe_ret. exact I.
Qed.

(** A write at a location that is not below [n0]. *)
Lemma frame_insert n0 (st : store) l arr :
  (n0 <= l)%nat -> frame n0 st (<[ l := arr ]> st).
Proof.
  intros Hl. split; [rewrite length_insert; lia |].
  intros l' Hl'. apply list_lookup_insert_ne. lia.
Qed.

Lemma safe_write_Uint8Array n0 l i v :
  (n0 <= l)%nat -> safe n0 (write_Uint8Array l i v) (fun _ => True).
Proof.
  intros Hl st a st' _ Hrun. unfold write_Uint8Array in Hrun.
  destruct (st !! l) as [[c|c|c]|]; simpl in Hrun; try discriminate.
  injection Hrun as <- <-. split; [apply frame_insert; exact Hl | exact I].
Qed.

Lemma safe_write_Float32Array n0 l i v :
  (n0 <= l)%nat -> safe n0 (write_Float32Array l i v) (fun _ => True).
Proof.
  intros Hl st a st' _ Hrun. unfold write_Float32Array in Hrun.
  destruct (st !! l) as [[c|c|c]|]; simpl in Hrun; try discriminate.
  injection Hrun as <- <-. split; [apply frame_insert; exact Hl | exact I].
Qed.

Lemma safe_write_rgba n0 l idx c :
  (n0 <= l)%nat -> safe n0 (write_rgba l idx c) (fun _ => True).
Proof.
  intros Hl st a st' _ Hrun. unfold write_rgba in Hrun.
  destruct (st !! l) as [[c'|c'|c']|]; simpl in Hrun; try discriminate.
  injection Hrun as <- <-. split; [apply frame_insert; exact Hl | exact I].
Qed.

Lemma safe_for_from n0 (body : nat -> M unit) n : forall i,
  (forall j, safe n0 (body j) (fun _ => True)) ->
  safe n0 (for_from i n body) (fun _ => True).
Proof.
  induction n as [|n IH]; intros i Hbody; simpl.
  - apply safe_ret. exact I.
  - eapply safe_bind; [apply Hbody |]. intros _ _. apply IH. exact Hbody.
Qed.

Lemma safe_for_each n0 (body : nat -> M unit) n :
  (forall j, safe n0 (body j) (fun _ => True)) ->
  safe n0 (for_each n body) (fun _ => True).
Proof. apply safe_for_from. Qed.

(** The stages, one by one: each writes only the array it has
    allocated, or, for [drawLine], the array it is given. *)

Variable distance : Q -> Q -> Q -> Q -> Q.
Variable degreesToRadians : Q -> Q.
Variable Math_cos : Q -> Q.
Variable Math_sin : Q -> Q.
Variable exponentialFalloff : number -> Q -> Q -> Q -> Q.
Variable normalize : number -> Q -> Q -> Q.
Variable lerp : Q -> Q -> Q -> Q.
Variable clamp : Q -> Q -> Q -> Q.

Lemma extract_safe n0 imageData alphaThreshold :
  safe n0 (extract imageData alphaThreshold) (fun l => (n0 <= l)%nat).
Proof.
  unfold extract.
  eapply safe_bind; [apply safe_new_Uint8Array |]. intros mask Hmask.
  eapply safe_bind.
  - apply safe_for_each. intros y. apply safe_for_each. intros x.
    eapply safe_bind; [apply safe_read_pixels |]. intros pixels _.
    apply safe_write_Uint8Array. exact Hmask.
  - intros _ _. apply safe_ret. exact Hmask.
Qed.

Lemma maskToImageData_safe n0 mask w h :
  safe n0 (maskToImageData mask w h) (fun img => (n0 <= ref_data img)%nat).
Proof.
  unfold maskToImageData.
  eapply safe_bind; [apply safe_new_ImageData |]. intros img Himg.
  eapply safe_bind; [apply safe_read_Uint8Array |]. intros cells _.
  eapply safe_bind.
  - apply safe_for_each. intros i.
    eapply safe_bind; [apply safe_read_Uint8Array |]. intros m _.
    apply safe_write_rgba. exact Himg.
  - intros _ _. apply safe_ret. exact Himg.
Qed.

Lemma detect_safe n0 mask w h : safe n0 (detect mask w h) (fun _ => True).
Proof.
  unfold detect.
  eapply safe_bind; [apply safe_read_Uint8Array |]. intros m _.
  apply safe_ret. exact I.
Qed.

Lemma compute_safe n0 mask contactLine w h :
  safe n0 (compute distance mask contactLine w h)
    (fun d => (n0 <= dref_data d)%nat).
Proof.
  unfold compute.
  eapply safe_bind; [apply safe_new_Float32Array |]. intros distances Hd.
  destruct (length (points contactLine) =? 0)%nat.
  - apply safe_ret. exact Hd.
  - eapply safe_bind.
    + apply safe_for_each. intros y. apply safe_for_each. intros x.
      eapply safe_bind; [apply safe_read_Uint8Array |]. intros m _.
      destruct (cell_is 0 m (y * w + x));
        apply safe_write_Float32Array; exact Hd.
    + intros _ _. apply safe_ret. exact Hd.
Qed.

Lemma drawLine_loop_safe n0 buffer w h dx dy sx sy endX endY fuel :
  (n0 <= buffer)%nat ->
  forall x y err,
    safe n0 (drawLine_loop fuel buffer w h dx dy sx sy endX endY x y err)
      (fun _ => True).
Proof.
  intros Hbuf. induction fuel as [|fuel IH]; intros x y err; simpl.
  - apply safe_fail.
  - eapply safe_bind with (P := fun _ => True).
    + destruct ((0 <=? x) && (x <? Z.of_nat w) && (0 <=? y) && (y <? Z.of_nat h)).
      * apply safe_write_Uint8Array. exact Hbuf.
      * apply safe_ret. exact I.
    + intros _ _. destruct ((x =? endX) && (y =? endY)).
      * apply safe_ret. exact I.
      * destruct (ShadowProjector.advance dx dy sx sy x y err) as [[x' y'] err'].
        apply IH.
Qed.

Lemma drawLine_safe n0 fuel buffer w h x0 y0 x1 y1 :
  (n0 <= buffer)%nat ->
  safe n0 (drawLine fuel buffer w h x0 y0 x1 y1) (fun _ => True).
Proof.
  intros Hbuf. unfold drawLine. apply drawLine_loop_safe. exact Hbuf.
Qed.

Lemma project_safe n0 fuel mask w h lightVector maxDistance depthMap :
  safe n0 (project fuel mask w h lightVector maxDistance depthMap)
    (fun l => (n0 <= l)%nat).
Proof.
  unfold project.
  eapply safe_bind; [apply safe_new_Uint8Array |]. intros shadowMask Hs.
  eapply safe_bind.
  - apply safe_for_each. intros y. apply safe_for_each. intros x.
    eapply safe_bind; [apply safe_read_Uint8Array |]. intros m _.
    destruct (cell_is 0 m (y * w + x)); [apply safe_ret; exact I |].
    eapply safe_bind with (P := fun _ => True).
    + destruct depthMap as [dm|]; [| apply safe_ret; exact I].
      eapply safe_bind; [apply safe_read_pixels |]. intros depth _.
      destruct (depth !! ((y * w + x) * 4)%nat);
        [apply safe_ret; exact I | apply safe_fail].
    + intros warp _. apply drawLine_safe. exact Hs.
  - intros _ _. apply safe_ret. exact Hs.
Qed.

Lemma removeOcclusions_safe n0 shadowMask silhouetteMask w h :
  safe n0 (removeOcclusions shadowMask silhouetteMask w h)
    (fun l => (n0 <= l)%nat).
Proof.
  unfold removeOcclusions.
  eapply safe_bind; [apply safe_new_Uint8Array |]. intros result Hr.
  eapply safe_bind; [apply safe_read_Uint8Array |]. intros cells _.
  eapply safe_bind.
  - apply safe_for_each. intros i.
    eapply safe_bind; [apply safe_read_Uint8Array |]. intros sm _.
    eapply safe_bind; [apply safe_read_Uint8Array |]. intros sil _.
    destruct (cell_is 1 sm i && cell_is 0 sil i).
    + apply safe_write_Uint8Array. exact Hr.
    + apply safe_ret. exact I.
  - intros _ _. apply safe_ret. exact Hr.
Qed.

Lemma createShadowLayer_safe n0 shadowMask distanceMap config w h :
  safe n0 (createShadowLayer exponentialFalloff shadowMask distanceMap config w h)
    (fun img => (n0 <= ref_data img)%nat).
Proof.
  unfold createShadowLayer.
  eapply safe_bind; [apply safe_new_ImageData |]. intros img Himg.
  eapply safe_bind.
  - apply safe_for_each. intros y. apply safe_for_each. intros x.
    eapply safe_bind; [apply safe_read_Uint8Array |]. intros sm _.
    destruct (cell_is 0 sm (y * w + x)).
    + apply safe_write_rgba. exact Himg.
    + eapply safe_bind; [apply safe_read_Float32Array |]. intros dist _.
      apply safe_write_rgba. exact Himg.
  - intros _ _. apply safe_ret. exact Himg.
Qed.

Lemma applyDistanceWeightedBlur_safe n0 shadowData distanceMap
    minBlur maxBlur maxDistance :
  safe n0
    (applyDistanceWeightedBlur normalize lerp clamp shadowData distanceMap
       minBlur maxBlur maxDistance)
    (fun img => (n0 <= ref_data img)%nat).
Proof.
  unfold applyDistanceWeightedBlur.
  eapply safe_bind; [apply safe_new_ImageData |]. intros img Himg.
  eapply safe_bind.
  - apply safe_for_each. intros y. apply safe_for_each. intros x.
    eapply safe_bind; [apply safe_read_Float32Array |]. intros dist _.
    eapply safe_bind; [apply safe_snapshot |]. intros source _.
    apply safe_write_rgba. exact Himg.
  - intros _ _. apply safe_ret. exact Himg.
Qed.

Lemma composite_safe n0 background shadow foreground :
  safe n0 (composite background shadow foreground)
    (fun img => (n0 <= ref_data img)%nat).
Proof.
  unfold composite.
  eapply safe_bind; [apply safe_new_ImageData |]. intros img Himg.
  eapply safe_bind.
  - apply safe_for_each. intros i.
    eapply safe_bind; [apply safe_snapshot |]. intros bg _.
    eapply safe_bind; [apply safe_snapshot |]. intros sh _.
    eapply safe_bind; [apply safe_snapshot |]. intros fg _.
    apply safe_write_rgba. exact Himg.
  - intros _ _. apply safe_ret. exact Himg.
Qed.

Lemma generate_safe n0 fuel images config :
  safe n0
    (generate distance degreesToRadians Math_cos Math_sin exponentialFalloff
       normalize lerp clamp fuel images config)
    (fun res =>
       (n0 <= ref_data (shadowOnly res))%nat /\
       (n0 <= ref_data (maskDebug res))%nat /\
       (n0 <= ref_data (composite_result res))%nat).
Proof.
  unfold generate.
  eapply safe_bind; [apply extract_safe |]. intros silhouette _.
  eapply safe_bind; [apply detect_safe |]. intros contactLine _.
  eapply safe_bind; [apply compute_safe |]. intros distanceMap _.
  eapply safe_bind; [apply project_safe |]. intros projected _.
  eapply safe_bind; [apply removeOcclusions_safe |]. intros shadowMask _.
  eapply safe_bind; [apply createShadowLayer_safe |]. intros shadowLayer _.
  eapply safe_bind; [apply applyDistanceWeightedBlur_safe |].
  intros blurredLayer Hblur.
  eapply safe_bind; [apply maskToImageData_safe |]. intros mask_debug Hdebug.
  eapply safe_bind; [apply composite_safe |]. intros final Hfinal.
  apply safe_ret. simpl. auto.
Qed.

(** C8: when [generate] returns, every array that was in the store before
    the call (the data of the foreground, of the background and of the
    depth map among them) holds the cells it held, and the three results
    are arrays allocated during the call. *)
Theorem generate_leaves_inputs :
  forall fuel (images : ImageSetRef) (config : ShadowConfig)
         (st st' : store) (res : ShadowResultRef),
    generate distance degreesToRadians Math_cos Math_sin exponentialFalloff
      normalize lerp clamp fuel images config st = Some (res, st') ->
    (forall l arr, st !! l = Some arr -> st' !! l = Some arr)
    /\ (length st <= ref_data (shadowOnly res))%nat
    /\ (length st <= ref_data (maskDebug res))%nat
    /\ (length st <= ref_data (composite_result res))%nat.
Proof.
  intros fuel images config st st' res Hrun.
  destruct (generate_safe (length st) fuel images config st res st'
              (le_n _) Hrun) as [[_ Hkeep] Hfresh].
  split; [| exact Hfresh].
  intros l arr Hl. rewrite Hkeep; [exact Hl |].
  eapply lookup_lt_Some. exact Hl.
Qed.

End StoreFacts.

(** C8 on a 2x2 foreground with one opaque pixel over an opaque
    background, light from the right at 45 degrees. *)
Lemma generate_leaves_inputs_witness :
  let st :=
    [ Store.Uint8ClampedArray
        [0; 0; 0; 0;  0; 0; 0; 0;  0; 0; 0; 0;  200; 100; 50; 255];
      Store.Uint8ClampedArray
        [10; 20; 30; 255;  10; 20; 30; 255;  10; 20; 30; 255;  10; 20; 30; 255] ] in
  let images :=
    {| Store.foreground_ref :=
         {| Store.ref_width := 2; Store.ref_height := 2; Store.ref_data := 0 |};
       Store.background_ref :=
         {| Store.ref_width := 2; Store.ref_height := 2; Store.ref_data := 1 |};
       Store.depthMap_ref := None |} in
  let config :=
    {| lightAngle := 0; lightElevation := 45; maxShadowDistance := 3;
       contactOpacity := 4 # 5; falloffRate := 4;
       minBlurRadius := 1; maxBlurRadius := 2 |} in
  exists res st',
    Store.generate fixed_distance degreesToRadians_approx cos_approx sin_approx
      falloff_rational normalize_std lerp_std clamp_std 20 images config st
    = Some (res, st')
    /\ (forall l arr, st !! l = Some arr -> st' !! l = Some arr)
    /\ (length st <= Store.ref_data (Store.shadowOnly res))%nat
    /\ (length st <= Store.ref_data (Store.maskDebug res))%nat
    /\ (length st <= Store.ref_data (Store.composite_result res))%nat.
Proof.
  intros st images config.
  destruct (Store.generate fixed_distance degreesToRadians_approx cos_approx
              sin_approx falloff_rational normalize_std lerp_std clamp_std
              20 images config st) as [[res st']|] eqn:Hrun.
  - exists res, st'. split; [reflexivity |].
    exact (generate_leaves_inputs fixed_distance degreesToRadians_approx
             cos_approx sin_approx falloff_rational normalize_std lerp_std
             clamp_std 20 images config st st' res Hrun).
  - vm_compute in Hrun. discriminate.
Defined.

(** * More of the code

    Properties read off the sources: termination of the line loop where
    it does terminate, what each stage leaves in its buffer, how stages
    compose, and the behaviour at the edges (empty masks, opaque and
    transparent pixels, small radii, oversized images). *)

(** ** ShadowProjector.drawLine between integer points *)

Section DrawLineTermination.
Import ShadowProjector.

Lemma bresenham_loop_S fuel w h dx dy sx sy endX endY buffer x y err :
  bresenham_loop (S fuel) w h dx dy sx sy endX endY buffer x y err =
  if (x =? endX) && (y =? endY) then Some (mark w h x y buffer)
  else
    let e2 := 2 * err in
    let '(err1, x1) := if - dy <? e2 then (err - dy, x + sx) else (err, x) in
    let '(err2, y1) := if e2 <? dx then (err1 + dx, y + sy) else (err1, y) in
    bresenham_loop fuel w h dx dy sx sy endX endY (mark w h x y buffer) x1 y1 err2.
Proof. reflexivity. Qed.

(** The integer algorithm when [x] is the driving axis: [x] steps at
    every turn, and after [DX] turns [y] has made its [DY] steps. *)
Lemma bresenham_loop_x_major w h (DX DY sx sy endX endY : Z) :
  0 <= DY <= DX -> 0 < DX -> (sx = 1 \/ sx = -1) ->
  forall (n : nat) fuel buffer x y e b,
    Z.of_nat n <= DX ->
    e = DX - DY - (DX - Z.of_nat n) * DY + b * DX ->
    - DY < 2 * e < 3 * DX - 2 * DY ->
    x = endX - sx * Z.of_nat n ->
    y = endY - sy * (DY - b) ->
    (sy = 1 \/ sy = -1) ->
    (n < fuel)%nat ->
    exists r, bresenham_loop fuel w h DX DY sx sy endX endY buffer x y e = Some r
              /\ length r = length buffer.
Proof.
  intros HD HDX Hsx n.
  induction n as [|n IH]; intros fuel buffer x y e b Hn He Hb Hx Hy Hsy Hfuel.
  - destruct fuel as [|fuel]; [lia |].
    rewrite bresenham_loop_S.
    assert (Hbd : b = DY).
    { replace (DX - Z.of_nat 0) with DX in He by lia.
      assert (Ht : 2 * e = 2 * DX * (1 + b - DY) - 2 * DY) by lia.
      assert (H1 : 0 < 1 + b - DY) by nia.
      assert (H2 : 1 + b - DY < 2) by nia.
      lia. }
    replace (x =? endX) with true by (symmetry; apply Z.eqb_eq; lia).
    replace (y =? endY) with true by (symmetry; apply Z.eqb_eq; subst b; lia).
    simpl. eexists. split; [reflexivity | apply mark_length].
  - destruct fuel as [|fuel]; [lia |].
    rewrite bresenham_loop_S.
    replace (x =? endX) with false
      by (symmetry; apply Z.eqb_neq; destruct Hsx; subst sx; lia).
    simpl andb. cbv iota zeta.
    replace (- DY <? 2 * e) with true by (symmetry; apply Z.ltb_lt; lia).
    assert (Hn' : Z.of_nat n <= DX) by lia.
    assert (Hx' : x + sx = endX - sx * Z.of_nat n)
      by (destruct Hsx; subst sx; lia).
    assert (Hfuel' : (n < fuel)%nat) by lia.
    assert (Hk : (DX - Z.of_nat (S n)) * DY = (DX - Z.of_nat n) * DY - DY) by lia.
    destruct (Z.ltb_spec (2 * e) DX) as [Hlt | Hge].
    + destruct (IH fuel (mark w h x y buffer) (x + sx) (y + sy) (e - DY + DX) (b + 1)
                  Hn') as (r & Hr & Hlen); try assumption.
      * lia.
      * lia.
      * destruct Hsy; subst sy; lia.
      * exists r. split; [exact Hr | rewrite Hlen; apply mark_length].
    + destruct (IH fuel (mark w h x y buffer) (x + sx) y (e - DY) b Hn')
        as (r & Hr & Hlen); try assumption.
      * lia.
      * lia.
      * exists r. split; [exact Hr | rewrite Hlen; apply mark_length].
Qed.

(** The same when [y] is the driving axis. *)
Lemma bresenham_loop_y_major w h (DX DY sx sy endX endY : Z) :
  0 <= DX < DY -> (sx = 1 \/ sx = -1) -> (sy = 1 \/ sy = -1) ->
  forall (n : nat) fuel buffer x y e a,
    Z.of_nat n <= DY ->
    e = DX - DY - a * DY + (DY - Z.of_nat n) * DX ->
    2 * DX - 3 * DY < 2 * e < DX ->
    x = endX - sx * (DX - a) ->
    y = endY - sy * Z.of_nat n ->
    (n < fuel)%nat ->
    exists r, bresenham_loop fuel w h DX DY sx sy endX endY buffer x y e = Some r
              /\ length r = length buffer.
Proof.
  intros HD Hsx Hsy n.
  induction n as [|n IH]; intros fuel buffer x y e a Hn He Hb Hx Hy Hfuel.
  - destruct fuel as [|fuel]; [lia |].
    rewrite bresenham_loop_S.
    assert (Had : a = DX).
    { replace (DY - Z.of_nat 0) with DY in He by lia.
      assert (Ht : 2 * e = 2 * DX - 2 * DY - 2 * (a - DX) * DY) by lia.
      assert (H1 : a - DX < 1) by nia.
      assert (H2 : -1 < a - DX) by nia.
      lia. }
    replace (x =? endX) with true by (symmetry; apply Z.eqb_eq; subst a; lia).
    replace (y =? endY) with true by (symmetry; apply Z.eqb_eq; lia).
    simpl. eexists. split; [reflexivity | apply mark_length].
  - destruct fuel as [|fuel]; [lia |].
    rewrite bresenham_loop_S.
    replace (y =? endY) with false
      by (symmetry; apply Z.eqb_neq; destruct Hsy; subst sy; lia).
    rewrite andb_false_r. cbv iota zeta.
    assert (Hn' : Z.of_nat n <= DY) by lia.
    assert (Hy' : y + sy = endY - sy * Z.of_nat n)
      by (destruct Hsy; subst sy; lia).
    assert (Hfuel' : (n < fuel)%nat) by lia.
    assert (Hk : (DY - Z.of_nat (S n)) * DX = (DY - Z.of_nat n) * DX - DX) by lia.
    replace (2 * e <? DX) with true by (symmetry; apply Z.ltb_lt; lia).
    destruct (Z.ltb_spec (- DY) (2 * e)) as [Hlt | Hge].
    + destruct (IH fuel (mark w h x y buffer) (x + sx) (y + sy) (e - DY + DX) (a + 1)
                  Hn') as (r & Hr & Hlen); try assumption.
      * lia.
      * lia.
      * destruct Hsx; subst sx; lia.
      * exists r. split; [exact Hr | rewrite Hlen; apply mark_length].
    + destruct (IH fuel (mark w h x y buffer) x (y + sy) (e + DX) a Hn')
        as (r & Hr & Hlen); try assumption.
      * lia.
      * lia.
      * exists r. split; [exact Hr | rewrite Hlen; apply mark_length].
Qed.

(** The integer algorithm stops after [max DX DY] steps. *)
Lemma bresenham_terminates fuel buffer w h (X0 Y0 X1 Y1 : Z) :
  (Z.to_nat (Z.max (Z.abs (X1 - X0)) (Z.abs (Y1 - Y0))) < fuel)%nat ->
  exists r, bresenham fuel buffer w h X0 Y0 X1 Y1 = Some r
            /\ length r = length buffer.
Proof.
  intros Hfuel. unfold bresenham.
  set (DX := Z.abs (X1 - X0)) in *. set (DY := Z.abs (Y1 - Y0)) in *.
  set (sx := if X0 <? X1 then 1 else -1).
  set (sy := if Y0 <? Y1 then 1 else -1).
  assert (Hsx : sx = 1 \/ sx = -1) by (unfold sx; destruct (X0 <? X1); auto).
  assert (Hsy : sy = 1 \/ sy = -1) by (unfold sy; destruct (Y0 <? Y1); auto).
  assert (HX : X0 = X1 - sx * DX).
  { unfold sx, DX. destruct (Z.ltb_spec X0 X1); lia. }
  assert (HY : Y0 = Y1 - sy * DY).
  { unfold sy, DY. destruct (Z.ltb_spec Y0 Y1); lia. }
  assert (HDX : 0 <= DX) by (unfold DX; lia).
  assert (HDY : 0 <= DY) by (unfold DY; lia).
  clearbody DX DY sx sy.
  destruct (Z_le_gt_dec DY DX) as [Hle | Hgt].
  - destruct (Z.eq_dec DX 0) as [HD0 | HD0].
    + assert (DY = 0) by lia. subst DX DY.
      destruct fuel as [|fuel]; [lia |].
      rewrite bresenham_loop_S.
      replace (X0 =? X1) with true by (symmetry; apply Z.eqb_eq; lia).
      replace (Y0 =? Y1) with true by (symmetry; apply Z.eqb_eq; lia).
      simpl. eexists. split; [reflexivity | apply mark_length].
    + apply (bresenham_loop_x_major w h DX DY sx sy X1 Y1) with
        (n := Z.to_nat DX) (b := 0); try assumption; try lia.
  - apply (bresenham_loop_y_major w h DX DY sx sy X1 Y1) with
      (n := Z.to_nat DY) (a := 0); try assumption; try lia.
Qed.

(** X1: between integer points [drawLine] returns, after at most
    [max |X1 - X0| |Y1 - Y0|] steps, a buffer of the same length. *)
Theorem drawLine_integer_terminates :
  forall fuel buffer w h (X0 Y0 X1 Y1 : Z),
    (Z.to_nat (Z.max (Z.abs (X1 - X0)) (Z.abs (Y1 - Y0))) < fuel)%nat ->
    exists r,
      drawLine fuel buffer w h
        (inject_Z X0) (inject_Z Y0) (inject_Z X1) (inject_Z Y1) = Some r
      /\ length r = length buffer.
Proof.
  intros fuel buffer w h X0 Y0 X1 Y1 Hfuel.
  rewrite drawLine_integer_endpoints.
  apply bresenham_terminates. exact Hfuel.
Qed.

(** X1 on the segment from [(0, 0)] to [(5, 2)]. *)
Lemma drawLine_integer_terminates_witness :
  exists r,
    drawLine 6 (replicate 18 0) 6 3
      (inject_Z 0) (inject_Z 0) (inject_Z 5) (inject_Z 2) = Some r
    /\ length r = length (replicate 18 0).
Proof.
  apply drawLine_integer_terminates. vm_compute. lia.
Defined.

End DrawLineTermination.

(** ** ShadowProjector.project: what a run that returns has done *)

Section ProjectFacts.
Import ShadowProjector.

Lemma grows_refl buf : grows buf buf.
Proof. split; [reflexivity | intros j; left; reflexivity]. Qed.

Lemma grows_trans a b c : grows a b -> grows b c -> grows a c.
Proof.
  intros [Hl1 H1] [Hl2 H2]. split; [congruence |].
  intros j. destruct (H2 j) as [H | H]; [| right; exact H].
  rewrite H. apply H1.
Qed.

Lemma grows_keeps buf r (j : nat) :
  grows buf r -> buf !! j = Some 1 -> r !! j = Some 1.
Proof.
  intros [_ H] Hj. destruct (H j) as [H' | H']; [rewrite H'; exact Hj | exact H'].
Qed.

Lemma mark_grows w h x y buf : grows buf (mark w h x y buf).
Proof.
  split; [apply mark_length |].
  intros j. unfold mark. destruct (_ && _); [| left; reflexivity].
  rewrite list_lookup_insert. destruct (decide _); [right | left]; reflexivity.
Qed.

Lemma drawLine_loop_grows w h dx dy sx sy endX endY fuel :
  forall buf x y err r,
    drawLine_loop fuel w h dx dy sx sy endX endY buf x y err = Some r ->
    grows (mark w h x y buf) r.
Proof.
  induction fuel as [|fuel IH]; intros buf x y err r Hrun; [discriminate |].
  rewrite drawLine_loop_S in Hrun.
  destruct ((x =? endX) && (y =? endY)).
  - injection Hrun as <-. apply grows_refl.
  - destruct (advance dx dy sx sy x y err) as [[x' y'] err'].
    apply IH in Hrun.
    eapply grows_trans; [apply mark_grows | exact Hrun].
Qed.

(** Loops that may fail: a relation every turn keeps, a property every
    turn establishes for its index, and a body that always returns. *)
Lemma for_loop_from_rel {St : Type} (R : St -> St -> Prop)
    (body : nat -> St -> option St) :
  (forall s, R s s) -> (forall a b c, R a b -> R b c -> R a c) ->
  forall n start s s',
    (forall i t t', (start <= i < start + n)%nat -> body i t = Some t' -> R t t') ->
    for_loop_from start n body s = Some s' -> R s s'.
Proof.
  intros Hrefl Htrans. induction n as [|n IH]; intros start s s' Hbody Hrun; simpl in Hrun.
  - injection Hrun as <-. apply Hrefl.
  - destruct (body start s) as [t|] eqn:Hb; [| discriminate].
    eapply Htrans; [eapply Hbody; [| exact Hb]; lia |].
    eapply IH; [| exact Hrun]. intros i u u' Hi. apply Hbody. lia.
Qed.

Lemma for_loop_from_achieves {St : Type} (R : St -> St -> Prop)
    (Q : nat -> St -> Prop) (body : nat -> St -> option St) :
  (forall s, R s s) -> (forall a b c, R a b -> R b c -> R a c) ->
  (forall i s s', Q i s -> R s s' -> Q i s') ->
  forall n start s s',
    (forall i t t', (start <= i < start + n)%nat -> body i t = Some t' ->
                    R t t' /\ Q i t') ->
    for_loop_from start n body s = Some s' ->
    forall i, (start <= i < start + n)%nat -> Q i s'.
Proof.
  intros Hrefl Htrans Hstable.
  induction n as [|n IH]; intros start s s' Hbody Hrun i Hi; [lia |].
  simpl in Hrun.
  destruct (body start s) as [t|] eqn:Hb; [| discriminate].
  destruct (decide (i = start)) as [-> | Hne].
  - destruct (Hbody start s t) as [_ HQ]; [lia | exact Hb |].
    eapply Hstable; [exact HQ |].
    eapply (for_loop_from_rel R body Hrefl Htrans n (S start)); [| exact Hrun].
    intros j u u' Hj Hu. apply (Hbody j u u'); [lia | exact Hu].
  - eapply (IH (S start) t s'); [| exact Hrun | lia].
    intros j u u' Hj. apply Hbody. lia.
Qed.

Lemma for_loop_from_total {St : Type} (body : nat -> St -> option St) :
  forall n start s,
    (forall i t, (start <= i < start + n)%nat -> is_Some (body i t)) ->
    is_Some (for_loop_from start n body s).
Proof.
  induction n as [|n IH]; intros start s Hbody; simpl; [eexists; reflexivity |].
  destruct (Hbody start s) as [t Ht]; [lia |]. rewrite Ht.
  apply IH. intros i u Hi. apply Hbody. lia.
Qed.

Lemma project_pixel_grows fuel mask w h lv maxD depth y x s s' :
  project_pixel fuel mask w h lv maxD depth y x s = Some s' -> grows s s'.
Proof.
  unfold project_pixel. destruct (cell_is 0 mask (y * w + x)).
  - intros [= <-]. apply grows_refl.
  - destruct (warpFactor depth (y * w + x)) as [warp|]; [| discriminate].
    unfold drawLine. intros Hrun. apply drawLine_loop_grows in Hrun.
    eapply grows_trans; [apply mark_grows | exact Hrun].
Qed.

Lemma project_pixel_marks fuel mask w h lv maxD depth (y x : nat) s s' :
  (x < w)%nat -> (y < h)%nat -> length s = (w * h)%nat ->
  project_pixel fuel mask w h lv maxD depth y x s = Some s' ->
  mask !! (y * w + x)%nat <> Some 0 ->
  s' !! (y * w + x)%nat = Some 1.
Proof.
  intros Hx Hy Hlen Hrun Hm. unfold project_pixel in Hrun.
  destruct (cell_is 0 mask (y * w + x)) eqn:Hc.
  - apply cell_is_true in Hc. contradiction.
  - destruct (warpFactor depth (y * w + x)) as [warp|]; [| discriminate].
    unfold drawLine in Hrun. rewrite !Math_round_Z in Hrun.
    apply drawLine_loop_grows in Hrun.
    eapply grows_keeps; [exact Hrun |].
    apply mark_lookup_in; [exact Hx | exact Hy | rewrite Hlen; nia].
Qed.

(** X2: when [project] returns, its result has [w * h] cells, each 0 or
    1, and the cell of every pixel that the mask does not hold at 0 is
    1: a shadow mask covers the silhouette it is cast from. *)
Theorem project_marks_sources :
  forall fuel mask (w h : nat) lv maxD depth shadowMask,
    project fuel mask w h lv maxD depth = Some shadowMask ->
    length shadowMask = (w * h)%nat
    /\ (forall (j : nat) c, shadowMask !! j = Some c -> c = 0 \/ c = 1)
    /\ (forall x y : nat, (x < w)%nat -> (y < h)%nat ->
          mask !! (y * w + x)%nat <> Some 0 ->
          shadowMask !! (y * w + x)%nat = Some 1).
Proof.
  intros fuel mask w h lv maxD depth shadowMask Hrun.
  unfold project, for_loop_opt in Hrun.
  set (row := fun y => for_loop_from 0 w
                (fun x => project_pixel fuel mask w h lv maxD depth y x)) in *.
  assert (Hrow : forall y s s', row y s = Some s' -> grows s s').
  { intros y s s'. unfold row.
    apply (for_loop_from_rel grows _ grows_refl grows_trans).
    intros i t t' _. apply project_pixel_grows. }
  assert (Hall : grows (replicate (w * h) 0) shadowMask).
  { eapply (for_loop_from_rel grows _ grows_refl grows_trans); [| exact Hrun].
    intros y t t' _. apply Hrow. }
  destruct Hall as [Hlen Hcells]. rewrite length_replicate in Hlen.
  split; [exact Hlen |]. split.
  - intros j c Hj. destruct (Hcells j) as [H | H].
    + rewrite Hj in H. symmetry in H. apply lookup_replicate in H as [-> _].
      left. reflexivity.
    + rewrite Hj in H. injection H as ->. right. reflexivity.
  - intros x y Hx Hy Hm.
    assert (Hstable : forall (i : nat) (s s' : list Z),
              (length s = (w * h)%nat -> s !! i = Some 1) -> grows s s' ->
              length s' = (w * h)%nat -> s' !! i = Some 1).
    { intros i s s' Hs Hg Hl. eapply grows_keeps; [exact Hg |].
      apply Hs. destruct Hg as [Hg _]. congruence. }
    assert (Hcell : forall y x s s', (x < w)%nat -> (y < h)%nat ->
              row y s = Some s' -> length s' = (w * h)%nat ->
              mask !! (y * w + x)%nat <> Some 0 ->
              s' !! (y * w + x)%nat = Some 1).
    { intros y' x' s s' Hx' Hy' Hr Hl Hm'.
      apply (for_loop_from_achieves grows
               (fun x s => length s = (w * h)%nat ->
                           mask !! (y' * w + x)%nat <> Some 0 ->
                           s !! (y' * w + x)%nat = Some 1)
               (fun x => project_pixel fuel mask w h lv maxD depth y' x)
               grows_refl grows_trans) with (n := w) (start := 0%nat) (s := s);
        [| | exact Hr | lia | exact Hl | exact Hm'].
      - intros i t t' Ht Hg Hl' Hm''.
        apply (Hstable _ t t'); [intros; apply Ht; assumption | exact Hg | exact Hl'].
      - intros i t t' Hi Hb. split; [eapply project_pixel_grows; exact Hb |].
        intros Hl' Hm''.
        eapply project_pixel_marks; [lia | exact Hy' | | exact Hb | exact Hm''].
        apply project_pixel_grows in Hb. destruct Hb as [Hb _]. congruence. }
    apply (for_loop_from_achieves grows
             (fun y s => length s = (w * h)%nat ->
                         forall x : nat, (x < w)%nat ->
                           mask !! (y * w + x)%nat <> Some 0 ->
                           s !! (y * w + x)%nat = Some 1)
             row grows_refl grows_trans) with (n := h) (start := 0%nat)
             (s := replicate (w * h) 0) (i := y);
      [| | exact Hrun | lia | exact Hlen | exact Hx | exact Hm].
    + intros i t t' Ht Hg Hl' x' Hx' Hm'.
      apply (Hstable _ t t'); [intros; apply Ht; assumption | exact Hg | exact Hl'].
    + intros i t t' Hi Hb. split; [eapply Hrow; exact Hb |].
      intros Hl' x' Hx' Hm'. eapply Hcell; [exact Hx' | lia | exact Hb | exact Hl' | exact Hm'].
Qed.

(** X3: on a mask that is 0 everywhere [project] traces no line: it
    returns the all-zero mask whatever the fuel, the light and the depth
    map. *)
Theorem project_transparent_mask :
  forall fuel mask (w h : nat) lv maxD depth,
    (forall i : nat, (i < w * h)%nat -> mask !! i = Some 0) ->
    project fuel mask w h lv maxD depth = Some (replicate (w * h) 0).
Proof.
  intros fuel mask w h lv maxD depth Hmask.
  unfold project, for_loop_opt.
  apply for_loop_from_skip. intros y s [_ Hy].
  apply for_loop_from_skip. intros x s' [_ Hx].
  unfold project_pixel.
  replace (cell_is 0 mask (y * w + x)) with true; [reflexivity |].
  symmetry. apply cell_is_true. apply Hmask. simpl in *. nia.
Qed.

(** [drawLine] on numbers that hold integers. *)
Lemma drawLine_integer_valued fuel buffer w h (x0 y0 x1 y1 : Q) (X0 Y0 X1 Y1 : Z) :
  (x0 == inject_Z X0)%Q -> (y0 == inject_Z Y0)%Q ->
  (x1 == inject_Z X1)%Q -> (y1 == inject_Z Y1)%Q ->
  drawLine fuel buffer w h x0 y0 x1 y1 = bresenham fuel buffer w h X0 Y0 X1 Y1.
Proof.
  intros Hx0 Hy0 Hx1 Hy1. unfold drawLine, bresenham.
  assert (Hround : forall q z, (q == inject_Z z)%Q -> JS.Math_round q = z).
  { intros q z Hq. unfold JS.Math_round. rewrite Hq. apply Math_round_Z. }
  rewrite (Hround x0 X0 Hx0), (Hround y0 Y0 Hy0),
          (Hround x1 X1 Hx1), (Hround y1 Y1 Hy1).
  rewrite (Qlt_bool_inject_Z x0 x1 X0 X1 Hx0 Hx1).
  rewrite (Qlt_bool_inject_Z y0 y1 Y0 Y1 Hy0 Hy1).
  assert (Habs : forall (p q : Q) (a b : Z),
            (p == inject_Z a)%Q -> (q == inject_Z b)%Q ->
            (Qabs (p - q) == inject_Z (Z.abs (a - b)))%Q).
  { intros p q a b Hp Hq.
    assert (H : (p - q == inject_Z (a - b))%Q).
    { rewrite Hp, Hq. unfold Z.sub. rewrite inject_Z_plus, inject_Z_opp. ring. }
    rewrite H. reflexivity. }
  apply drawLine_loop_integer;
    [apply Habs; assumption | apply Habs; assumption |].
  rewrite (Habs x1 x0 X1 X0 Hx1 Hx0), (Habs y1 y0 Y1 Y0 Hy1 Hy0).
  unfold Z.sub at 3. rewrite inject_Z_plus, inject_Z_opp. ring.
Qed.

(** X4: without a depth map, when the two offsets
    [lightVector.dx * maxDistance] and [lightVector.dy * maxDistance] are
    integers, [project] returns once the fuel exceeds the larger of
    their absolute values. *)
Theorem project_integer_offsets :
  forall fuel mask (w h : nat) lv maxD (DX DY : Z),
    (lv_dx lv * maxD == inject_Z DX)%Q ->
    (lv_dy lv * maxD == inject_Z DY)%Q ->
    (Z.to_nat (Z.max (Z.abs DX) (Z.abs DY)) < fuel)%nat ->
    exists shadowMask,
      project fuel mask w h lv maxD None = Some shadowMask.
Proof.
  intros fuel mask w h lv maxD DX DY Hdx Hdy Hfuel.
  unfold project, for_loop_opt.
  apply for_loop_from_total. intros y s _.
  apply for_loop_from_total. intros x s' _.
  unfold project_pixel.
  destruct (cell_is 0 mask (y * w + x)); [eexists; reflexivity |].
  simpl warpFactor. cbv iota beta.
  rewrite (drawLine_integer_valued fuel s' w h _ _ _ _
             (Z.of_nat x) (Z.of_nat y) (Z.of_nat x - DX) (Z.of_nat y - DY)).
  - destruct (bresenham_terminates fuel s' w h (Z.of_nat x) (Z.of_nat y)
                (Z.of_nat x - DX) (Z.of_nat y - DY)) as (r & Hr & _).
    + replace (Z.of_nat x - DX - Z.of_nat x) with (- DX) by lia.
      replace (Z.of_nat y - DY - Z.of_nat y) with (- DY) by lia.
      rewrite !Z.abs_opp. exact Hfuel.
    + exists r. exact Hr.
  - reflexivity.
  - reflexivity.
  - rewrite Hdx. unfold Z.sub. rewrite inject_Z_plus, inject_Z_opp. ring.
  - rewrite Hdy. unfold Z.sub. rewrite inject_Z_plus, inject_Z_opp. ring.
Qed.

(** X2 on the run of [project_differs_from_bresenham]'s input. *)
Lemma project_marks_sources_witness :
  let mask := [1; 0; 0; 0; 0; 0; 0; 0] in
  let shadowMask := [1; 0; 1; 0; 1; 0; 0; 1] in
  length shadowMask = (2 * 4)%nat
  /\ (forall (j : nat) c, shadowMask !! j = Some c -> c = 0 \/ c = 1)
  /\ (forall x y : nat, (x < 2)%nat -> (y < 4)%nat ->
        mask !! (y * 2 + x)%nat <> Some 0 ->
        shadowMask !! (y * 2 + x)%nat = Some 1).
Proof.
  apply (project_marks_sources 10 [1; 0; 0; 0; 0; 0; 0; 0] 2 4
           {| lv_dx := - (1 # 8); lv_dy := - (5 # 8); lv_dz := 0 |} 4 None).
  vm_compute. reflexivity.
Defined.

(** X3 on a 2x2 mask, with no fuel at all. *)
Lemma project_transparent_mask_witness :
  project 0 [0; 0; 0; 0] 2 2
    {| lv_dx := 1 # 3; lv_dy := 1 # 7; lv_dz := 0 |} 5 None
  = Some (replicate (2 * 2) 0).
Proof.
  apply project_transparent_mask.
  intros i Hi. simpl in Hi.
  destruct i as [|[|[|[|i]]]]; [reflexivity .. | lia].
Defined.

(** X4 with offsets [(-2, -1)]. *)
Lemma project_integer_offsets_witness :
  exists shadowMask,
    project 3 [1; 1; 0; 1] 2 2
      {| lv_dx := - (1 # 2); lv_dy := - (1 # 4); lv_dz := 0 |} 4 None
    = Some shadowMask.
Proof.
  apply (project_integer_offsets 3 [1; 1; 0; 1] 2 2
           {| lv_dx := - (1 # 2); lv_dy := - (1 # 4); lv_dz := 0 |} 4 (-2) (-1)).
  - vm_compute. reflexivity.
  - vm_compute. reflexivity.
  - vm_compute. lia.
Defined.

End ProjectFacts.

(** ** Loops over the pixels, rounding and cells: shared lemmas *)

Lemma for_loop_add {St : Type} n m (body : nat -> St -> St) s :
  for_loop (n + m) body s
  = for_loop m (fun i => body (n + i)%nat) (for_loop n body s).
Proof.
  induction m as [|m IH].
  - rewrite Nat.add_0_r. reflexivity.
  - rewrite Nat.add_succ_r, !for_loop_S, IH. reflexivity.
Qed.

(** A loop over the rows and, within a row, over the columns runs the
    body at the raster indices [0], [1], ..., [h * w - 1] in turn. *)
Lemma for_loop_raster {St : Type} (w h : nat) (body : nat -> St -> St) s :
  for_loop h (fun y => for_loop w (fun x => body (y * w + x)%nat)) s
  = for_loop (h * w) body s.
Proof.
  induction h as [|h IH].
  - reflexivity.
  - rewrite for_loop_S, IH.
    replace (Datatypes.S h * w)%nat with (h * w + w)%nat by lia.
    rewrite for_loop_add. reflexivity.
Qed.

Lemma raster_split (w i : nat) :
  (0 < w)%nat -> (i = (i / w) * w + i mod w)%nat /\ (i mod w < w)%nat.
Proof.
  intros Hw. split.
  - rewrite Nat.mul_comm. apply Nat.div_mod_eq.
  - apply Nat.mod_upper_bound. lia.
Qed.

Lemma raster_row_lt (w h i : nat) : (i < w * h)%nat -> (i / w < h)%nat.
Proof.
  intros Hi. apply Nat.Div0.div_lt_upper_bound. lia.
Qed.

Lemma raster_div_mod (w x y : nat) :
  (x < w)%nat -> ((y * w + x) / w = y)%nat /\ ((y * w + x) mod w = x)%nat.
Proof.
  intros Hx. split.
  - rewrite Nat.add_comm, Nat.div_add by lia. rewrite Nat.div_small by lia. lia.
  - rewrite Nat.add_comm, Nat.Div0.mod_add. apply Nat.mod_small. lia.
Qed.

Lemma for_loop_raster_rows {St : Type} (w h : nat)
    (body : nat -> nat -> St -> St) s :
  for_loop h (fun y => for_loop w (fun x => body y x)) s
  = for_loop (h * w) (fun i => body (i / w)%nat (i mod w)%nat) s.
Proof.
  rewrite <- for_loop_raster.
  apply for_loop_ext. intros y s' Hy.
  apply for_loop_ext. intros x s'' Hx.
  destruct (raster_div_mod w x y Hx) as [-> ->]. reflexivity.
Qed.

Lemma raster_set_rgba_flat (F : nat -> nat -> Q * Q * Q * Q) (w h : nat) pixels :
  for_loop h (fun y =>
    for_loop w (fun x p => set_rgba ((y * w + x) * 4) (F y x) p)) pixels
  = for_loop (h * w)
      (fun i p => set_rgba (i * 4) (F (i / w)%nat (i mod w)%nat) p) pixels.
Proof.
  rewrite (for_loop_raster_rows w h
             (fun y x p => set_rgba ((y * w + x) * 4) (F y x) p)).
  apply for_loop_ext. intros i p Hi.
  destruct w as [|w]; [lia |].
  destruct (raster_split (Datatypes.S w) i) as [Hsplit _]; [lia |].
  rewrite <- Hsplit. reflexivity.
Qed.

Lemma raster_set_rgba_length (F : nat -> nat -> Q * Q * Q * Q) (w h : nat) pixels :
  length (for_loop h (fun y =>
            for_loop w (fun x p => set_rgba ((y * w + x) * 4) (F y x) p)) pixels)
  = length pixels.
Proof.
  rewrite raster_set_rgba_flat.
  apply (for_loop_set_rgba_length (h * w)
           (fun i => F (i / w)%nat (i mod w)%nat)).
Qed.

Lemma raster_set_rgba_lookup (F : nat -> nat -> Q * Q * Q * Q) (w h : nat)
    pixels (x y c : nat) :
  (x < w)%nat -> (y < h)%nat -> (c < 4)%nat ->
  (w * h * 4 <= length pixels)%nat ->
  for_loop h (fun y =>
    for_loop w (fun x p => set_rgba ((y * w + x) * 4) (F y x) p)) pixels
    !! ((y * w + x) * 4 + c)%nat
  = Some (to_uint8_clamped
            (channel c
               (let '(r, g, b, a) := F y x in
                {| col_r := r; col_g := g; col_b := b; col_a := a |}))).
Proof.
  intros Hx Hy Hc Hlen.
  rewrite raster_set_rgba_flat.
  rewrite (for_loop_set_rgba_lookup (h * w)
             (fun i => F (i / w)%nat (i mod w)%nat)); [| nia | exact Hc | lia].
  destruct (raster_div_mod w x y Hx) as [-> ->]. reflexivity.
Qed.

(** Two buffers of an image that agree at every channel of every pixel
    are equal. *)
Lemma image_data_eq (w h : nat) (buf buf' : list Z) :
  length buf = (w * h * 4)%nat -> length buf' = (w * h * 4)%nat ->
  (forall x y c : nat, (x < w)%nat -> (y < h)%nat -> (c < 4)%nat ->
     buf !! ((y * w + x) * 4 + c)%nat = buf' !! ((y * w + x) * 4 + c)%nat) ->
  buf = buf'.
Proof.
  intros Hl Hl' Hcells. apply list_eq. intros j.
  destruct (decide (j < w * h * 4)%nat) as [Hj | Hj].
  - assert (Hw : (0 < w)%nat) by lia.
    assert (Hi : (j / 4 < w * h)%nat)
      by (apply Nat.Div0.div_lt_upper_bound; lia).
    destruct (raster_split w (j / 4) Hw) as [Hsplit Hx].
    pose proof (raster_row_lt _ _ _ Hi) as Hy.
    assert (Hmod : (j mod 4 < 4)%nat) by (apply Nat.mod_upper_bound; lia).
    assert (Hj4 : (j = (j / 4 / w * w + j / 4 mod w) * 4 + j mod 4)%nat).
    { rewrite <- Hsplit. rewrite (Nat.div_mod_eq j 4) at 1. lia. }
    rewrite Hj4. apply Hcells; assumption.
  - rewrite !lookup_ge_None_2; [reflexivity | lia | lia].
Qed.

Lemma fold_left_invariant {A B : Type} (P : A -> Prop) (f : A -> B -> A)
    (l : list B) :
  (forall a b, P a -> P (f a b)) -> forall a, P a -> P (fold_left f l a).
Proof.
  intros Hstep. induction l as [|b l IH]; intros a Ha; simpl; [exact Ha |].
  apply IH, Hstep, Ha.
Qed.

Lemma Math_round_comp (q q' : Q) :
  (q == q')%Q -> JS.Math_round q = JS.Math_round q'.
Proof.
  intros H. unfold JS.Math_round. apply Qfloor_comp. rewrite H. reflexivity.
Qed.

Lemma Math_round_ge (q : Q) (z : Z) : (inject_Z z <= q)%Q -> z <= JS.Math_round q.
Proof.
  intros H. rewrite <- (Math_round_Z z). unfold JS.Math_round.
  apply Qfloor_resp_le. lra.
Qed.

(** [Math.round] sends the half-open interval of width 1 around an
    integer to that integer. *)
Lemma Math_round_near (q : Q) (z : Z) :
  (inject_Z z - (1 # 2) <= q)%Q -> (q < inject_Z z + (1 # 2))%Q ->
  JS.Math_round q = z.
Proof.
  intros Hlo Hhi. unfold JS.Math_round.
  assert (H1 : z <= Qfloor (q + (1 # 2))).
  { rewrite <- (Qfloor_Z z). apply Qfloor_resp_le. lra. }
  assert (H2 : Qfloor (q + (1 # 2)) < z + 1).
  { rewrite Zlt_Qlt. eapply Qle_lt_trans; [apply Qfloor_le |].
    rewrite inject_Z_plus. change (inject_Z 1) with 1%Q. lra. }
  lia.
Qed.

Lemma Qlt_bool_comp (a a' b b' : Q) :
  (a == a')%Q -> (b == b')%Q -> JS.Qlt_bool a b = JS.Qlt_bool a' b'.
Proof.
  intros Ha Hb.
  destruct (JS.Qlt_bool a' b') eqn:H.
  - apply Qlt_bool_true. apply Qlt_bool_true in H. rewrite Ha, Hb. exact H.
  - apply Qlt_bool_false. apply Qlt_bool_false in H. rewrite Ha, Hb. exact H.
Qed.

Lemma to_uint8_clamped_comp (q q' : Q) :
  (q == q')%Q -> to_uint8_clamped q = to_uint8_clamped q'.
Proof.
  intros H. unfold to_uint8_clamped.
  rewrite (Qfloor_comp _ _ H).
  assert (Hfrac : (q - inject_Z (Qfloor q') == q' - inject_Z (Qfloor q'))%Q)
    by (rewrite H; reflexivity).
  rewrite (Qlt_bool_comp _ _ _ _ Hfrac (Qeq_refl (1 # 2))).
  rewrite (Qlt_bool_comp _ _ _ _ (Qeq_refl (1 # 2)) Hfrac).
  reflexivity.
Qed.

Lemma to_uint8_clamped_range q : 0 <= to_uint8_clamped q <= 255.
Proof. unfold to_uint8_clamped. lia. Qed.

Lemma bytes_lookup buf (i : nat) v :
  bytes buf -> buf !! i = Some v -> 0 <= v <= 255.
Proof.
  intros Hb Hv. unfold bytes in Hb. rewrite Forall_lookup in Hb.
  exact (Hb i v Hv).
Qed.

Lemma inject_Z_scale (v k : Z) : (inject_Z v * inject_Z k)%Q = inject_Z (v * k).
Proof. unfold inject_Z, Qmult. simpl. reflexivity. Qed.

Lemma store_at_length i v buf : length (store_at i v buf) = length buf.
Proof.
  unfold store_at. destruct (i <? 0); [reflexivity | apply length_insert].
Qed.

Lemma cell_at_nat buf (j : nat) : cell_at buf (Z.of_nat j) = buf !! j.
Proof.
  unfold cell_at. destruct (Z.ltb_spec (Z.of_nat j) 0); [lia |].
  rewrite Nat2Z.id. reflexivity.
Qed.

(** A read after a write: the cell written, when there is one, holds
    the clamped value; every other cell is as before. *)
Lemma cell_at_store_at i v buf j :
  cell_at (store_at i v buf) j =
  if decide (0 <= i /\ i = j /\ (Z.to_nat i < length buf)%nat)
  then Some (to_uint8_clamped v)
  else cell_at buf j.
Proof.
  unfold cell_at, store_at.
  destruct (Z.ltb_spec i 0) as [Hi | Hi].
  - rewrite decide_False by lia. reflexivity.
  - destruct (Z.ltb_spec j 0) as [Hj | Hj].
    + rewrite decide_False by lia. reflexivity.
    + destruct (decide (i = j)) as [-> | Hne].
      * destruct (decide (Z.to_nat j < length buf)%nat) as [Hlt | Hge].
        -- rewrite decide_True by lia.
           apply list_lookup_insert_eq. exact Hlt.
        -- rewrite decide_False by lia.
           rewrite list_insert_ge by lia. reflexivity.
      * rewrite decide_False by lia.
        apply list_lookup_insert_ne. lia.
Qed.

(** ** ShadowProjector.project: offsets within half a pixel *)

Section SubPixelCast.
Import ShadowProjector.


Variable mask : list Z.
Variables w h : nat.
Variable lightVector : LightVector.
Variable maxDistance : Q.

Hypothesis offset_x :
  (- (1 # 2) < lv_dx lightVector * maxDistance <= 1 # 2)%Q.
Hypothesis offset_y :
  (- (1 # 2) < lv_dy lightVector * maxDistance <= 1 # 2)%Q.


(** Only pixels of the silhouette are marked. *)
Local Abbreviation within s :=
  (forall j : nat, s !! j = Some 1 -> mask !! j <> Some 0).



End SubPixelCast.


(** ** ShadowProjector.removeOcclusions *)

Section RemoveOcclusionsFacts.
Import ShadowProjector.

(** X6: the mask [removeOcclusions] returns has [width * height] cells,
    each 0 or 1, and a cell is 1 exactly where the shadow mask is 1 and
    the silhouette mask is 0. *)
Theorem removeOcclusions_cells :
  forall (shadowMask silhouetteMask : list Z) (w h : nat),
    let result := removeOcclusions shadowMask silhouetteMask w h in
    length result = (w * h)%nat
    /\ (forall (i : nat) c, result !! i = Some c -> c = 0 \/ c = 1)
    /\ (forall i : nat,
          result !! i = Some 1 <->
          ((i < w * h)%nat /\ shadowMask !! i = Some 1
           /\ silhouetteMask !! i = Some 0)).
Proof.
  intros shadowMask silhouetteMask w h result. subst result.
  split; [apply removeOcclusions_length |].
  split.
  - intros i c. rewrite removeOcclusions_lookup.
    destruct (decide (i < w * h)%nat); [| discriminate].
    destruct (cell_is 1 shadowMask i && cell_is 0 silhouetteMask i);
      intros [= <-]; auto.
  - intros i. rewrite removeOcclusions_lookup.
    destruct (decide (i < w * h)%nat) as [Hi|Hi].
    + destruct (cell_is 1 shadowMask i && cell_is 0 silhouetteMask i) eqn:Hc.
      * apply andb_true_iff in Hc as [H1 H0].
        apply cell_is_true in H1. apply cell_is_true in H0.
        split; [intros _; auto | reflexivity].
      * split; [discriminate |].
        intros (_ & H1 & H0).
        apply cell_is_true in H1. apply cell_is_true in H0.
        rewrite H1, H0 in Hc. discriminate.
    + split; [discriminate | intros (? & _); contradiction].
Qed.

(** X7: a shadow mask of 0s and 1s of the size of the image that no
    silhouette pixel covers is returned as it is. *)
Theorem removeOcclusions_no_occluder :
  forall (shadowMask silhouetteMask : list Z) (w h : nat),
    length shadowMask = (w * h)%nat ->
    (forall (i : nat) c, shadowMask !! i = Some c -> c = 0 \/ c = 1) ->
    (forall i : nat, (i < w * h)%nat -> shadowMask !! i = Some 1 ->
                     silhouetteMask !! i = Some 0) ->
    removeOcclusions shadowMask silhouetteMask w h = shadowMask.
Proof.
  intros shadowMask silhouetteMask w h Hlen Hbin Hfree.
  apply list_eq. intros i. rewrite removeOcclusions_lookup.
  destruct (decide (i < w * h)%nat) as [Hi|Hi].
  - destruct (lookup_lt_is_Some_2 shadowMask i) as [c Hc]; [lia |].
    rewrite Hc. f_equal.
    destruct (Hbin i c Hc) as [-> | ->].
    + unfold cell_is at 1. rewrite Hc. reflexivity.
    + pose proof (Hfree i Hi Hc) as H0.
      apply cell_is_true in Hc, H0. rewrite Hc, H0. reflexivity.
  - symmetry. apply lookup_ge_None_2. lia.
Qed.

Lemma removeOcclusions_no_occluder_witness :
  removeOcclusions [0; 1; 1; 0] [0; 0; 0; 1] 2 2 = [0; 1; 1; 0].
Proof.
  apply removeOcclusions_no_occluder.
  - reflexivity.
  - intros i c H.
    destruct i as [|[|[|[|i]]]]; simpl in H; inversion H; auto.
  - intros i Hi H.
    destruct i as [|[|[|[|i]]]]; simpl in H |- *; try reflexivity;
      try discriminate; lia.
Defined.

End RemoveOcclusionsFacts.

(** ** SilhouetteExtractor *)

Section SilhouetteExtractorFacts.
Import SilhouetteExtractor.

Lemma extract_lookup imageData t (x y : nat) :
  (x < width imageData)%nat -> (y < height imageData)%nat ->
  extract imageData t !! (y * width imageData + x)%nat
  = Some (if JS.Qlt_bool t
               (px (data imageData) ((y * width imageData + x) * 4 + 3))
          then 1 else 0).
Proof.
  intros Hx Hy. unfold extract.
  rewrite (raster_loop_lookup
             (fun y x =>
                if JS.Qlt_bool t
                     (px (data imageData) ((y * width imageData + x) * 4 + 3))
                then 1 else 0)); [reflexivity | exact Hx | exact Hy |].
  rewrite length_replicate. lia.
Qed.

Lemma extract_length imageData t :
  length (extract imageData t) = (width imageData * height imageData)%nat.
Proof.
  unfold extract.
  rewrite (raster_loop_length
             (fun y x =>
                if JS.Qlt_bool t
                     (px (data imageData) ((y * width imageData + x) * 4 + 3))
                then 1 else 0)).
  apply length_replicate.
Qed.

(** X8: the mask [extract] returns has one cell per pixel; the cell of
    a pixel is 1 when its alpha is above the threshold and 0 when it is
    not. *)
Theorem extract_threshold :
  forall (imageData : ImageData) (alphaThreshold : Q),
    let mask := extract imageData alphaThreshold in
    length mask = (width imageData * height imageData)%nat
    /\ forall (x y : nat) (alpha : Z),
         (x < width imageData)%nat -> (y < height imageData)%nat ->
         data imageData !! ((y * width imageData + x) * 4 + 3)%nat = Some alpha ->
         ((alphaThreshold < inject_Z alpha)%Q ->
            mask !! (y * width imageData + x)%nat = Some 1)
         /\ ((inject_Z alpha <= alphaThreshold)%Q ->
            mask !! (y * width imageData + x)%nat = Some 0).
Proof.
  intros imageData t mask. subst mask.
  split; [apply extract_length |].
  intros x y alpha Hx Hy Ha.
  rewrite extract_lookup by assumption.
  unfold px. rewrite Ha.
  split; intros Hcmp.
  - apply Qlt_bool_true in Hcmp. rewrite Hcmp. reflexivity.
  - apply Qlt_bool_false in Hcmp. rewrite Hcmp. reflexivity.
Qed.

(** X9: raising the threshold never adds a pixel to the silhouette: a
    cell that is 1 under a threshold is 1 under every lower one. *)
Theorem extract_threshold_monotone :
  forall (imageData : ImageData) (t1 t2 : Q),
    (t1 <= t2)%Q ->
    forall i : nat,
      extract imageData t2 !! i = Some 1 ->
      extract imageData t1 !! i = Some 1.
Proof.
  intros imageData t1 t2 Hle i Hi.
  assert (Hlt : (i < width imageData * height imageData)%nat).
  { rewrite <- (extract_length imageData t2). eapply lookup_lt_Some; exact Hi. }
  assert (Hw : (0 < width imageData)%nat) by lia.
  destruct (raster_split (width imageData) i Hw) as [Hsplit Hx].
  pose proof (raster_row_lt _ _ _ Hlt) as Hy.
  rewrite Hsplit in Hi |- *.
  rewrite extract_lookup in Hi |- * by assumption.
  destruct (JS.Qlt_bool t2 _) eqn:H2; [| discriminate].
  apply Qlt_bool_true in H2.
  assert (H1 : (t1 < px (data imageData)
                       ((i / width imageData * width imageData
                         + i mod width imageData) * 4 + 3))%Q).
  { eapply Qle_lt_trans; eassumption. }
  apply Qlt_bool_true in H1. rewrite H1. reflexivity.
Qed.

Lemma extract_threshold_monotone_witness :
  extract {| width := 2; height := 1; data := [0; 0; 0; 200; 0; 0; 0; 10] |} 5
    !! 0%nat = Some 1.
Proof.
  apply (extract_threshold_monotone _ 5 10); [discriminate | reflexivity].
Defined.

Lemma maskToImageData_lookup mask w h (i c : nat) :
  (length mask <= w * h)%nat -> (i < length mask)%nat -> (c < 4)%nat ->
  data (maskToImageData mask w h) !! (i * 4 + c)%nat
  = Some (to_uint8_clamped
            (channel c {| col_r := (px mask i * 255)%Q;
                          col_g := (px mask i * 255)%Q;
                          col_b := (px mask i * 255)%Q;
                          col_a := 255%Q |})).
Proof.
  intros Hlen Hi Hc. unfold maskToImageData. simpl.
  rewrite (for_loop_set_rgba_lookup (length mask)
             (fun i => (px mask i * 255, px mask i * 255, px mask i * 255, 255)%Q));
    [reflexivity | exact Hi | exact Hc |].
  rewrite length_replicate. lia.
Qed.

(** X10: for a mask of 0s and 1s with one cell per pixel,
    [maskToImageData] returns an image of the given size in which the
    pixel of a 1 is opaque white and the pixel of a 0 is opaque black. *)
Theorem maskToImageData_pixels :
  forall (mask : list Z) (w h : nat),
    length mask = (w * h)%nat ->
    well_formed (maskToImageData mask w h)
    /\ forall (i : nat) (v : Z),
         mask !! i = Some v -> 0 <= v <= 1 ->
         data (maskToImageData mask w h) !! (i * 4)%nat = Some (v * 255)
         /\ data (maskToImageData mask w h) !! (i * 4 + 1)%nat = Some (v * 255)
         /\ data (maskToImageData mask w h) !! (i * 4 + 2)%nat = Some (v * 255)
         /\ data (maskToImageData mask w h) !! (i * 4 + 3)%nat = Some 255.
Proof.
  intros mask w h Hlen. split.
  - unfold well_formed, maskToImageData. simpl.
    rewrite (for_loop_set_rgba_length (length mask)
               (fun i => (px mask i * 255, px mask i * 255, px mask i * 255, 255)%Q)).
    apply length_replicate.
  - intros i v Hv Hbit.
    assert (Hi : (i < length mask)%nat) by (eapply lookup_lt_Some; exact Hv).
    assert (Hval : to_uint8_clamped (px mask i * 255) = v * 255).
    { unfold px. rewrite Hv.
      change 255%Q with (inject_Z 255). rewrite inject_Z_scale.
      apply to_uint8_clamped_byte. lia. }
    pose proof (maskToImageData_lookup mask w h i 0 ltac:(lia) Hi ltac:(lia)) as H0.
    pose proof (maskToImageData_lookup mask w h i 1 ltac:(lia) Hi ltac:(lia)) as H1.
    pose proof (maskToImageData_lookup mask w h i 2 ltac:(lia) Hi ltac:(lia)) as H2.
    pose proof (maskToImageData_lookup mask w h i 3 ltac:(lia) Hi ltac:(lia)) as H3.
    rewrite Nat.add_0_r in H0. simpl channel in *.
    rewrite Hval in H0, H1, H2.
    repeat split; assumption.
Qed.

Lemma maskToImageData_pixels_witness :
  well_formed (maskToImageData [1; 0] 2 1)
  /\ data (maskToImageData [1; 0] 2 1) !! 0%nat = Some 255
  /\ data (maskToImageData [1; 0] 2 1) !! 4%nat = Some 0.
Proof.
  destruct (maskToImageData_pixels [1; 0] 2 1 eq_refl) as [Hwf Hcells].
  split; [exact Hwf |]. split.
  - destruct (Hcells 0%nat 1 eq_refl ltac:(lia)) as (H0 & _). exact H0.
  - destruct (Hcells 1%nat 0 eq_refl ltac:(lia)) as (H0 & _). exact H0.
Defined.

End SilhouetteExtractorFacts.

(** ** ContactLineDetector: coverage, bounds and the debug view *)

Section ContactLineFacts.
Import SilhouetteExtractor ContactLineDetector.

(** The loop over the columns, after [n] columns: the columns seen are
    covered, and the points are in the order of their columns. *)
Lemma detect_columns_cover mask w h n :
  let pts := for_loop n (detect_column mask w h) [] in
  (forall x y : nat, (x < n)%nat -> (y < h)%nat ->
     mask !! (y * w + x)%nat = Some 1 ->
     exists p, p ∈ pts /\ pt_x p = Z.of_nat x /\ Z.of_nat y <= pt_y p)
  /\ (forall (i j : nat) p q, (i < j)%nat ->
        pts !! i = Some p -> pts !! j = Some q -> pt_x p < pt_x q)
  /\ (forall p, p ∈ pts -> pt_x p < Z.of_nat n)
  /\ (length pts <= n)%nat.
Proof.
  induction n as [|n IH]; cbv zeta.
  - unfold for_loop. simpl. repeat split.
    + intros x y Hx. lia.
    + intros i j p q _ Hi. discriminate.
    + intros p Hp. inversion Hp.
    + lia.
  - rewrite for_loop_S.
    destruct IH as (IHc & IHs & IHx & IHl).
    set (pts := for_loop n (detect_column mask w h) []) in *.
    unfold detect_column.
    destruct (scan_column_spec mask w n h)
      as [[Hm Hall] | (y0 & Hy0 & Hs & Hone & Hbelow)].
    + rewrite Hm. simpl. repeat split.
      * intros x y Hx Hy Hone.
        destruct (decide (x = n)) as [-> | Hne].
        -- exfalso. exact (Hall y Hy Hone).
        -- apply IHc; [lia | exact Hy | exact Hone].
      * exact IHs.
      * intros p Hp. specialize (IHx p Hp). lia.
      * lia.
    + rewrite Hs.
      replace (0 <=? Z.of_nat y0) with true by (symmetry; apply Z.leb_le; lia).
      repeat split.
      * intros x y Hx Hy Hcell.
        destruct (decide (x = n)) as [-> | Hne].
        -- exists {| pt_x := Z.of_nat n; pt_y := Z.of_nat y0 |}.
           split; [apply elem_of_app; right; apply list_elem_of_singleton;
                   reflexivity |].
           simpl. split; [reflexivity |].
           destruct (decide (y <= y0)%nat) as [Hle | Hgt]; [lia |].
           exfalso. apply (Hbelow y); [lia | exact Hcell].
        -- destruct (IHc x y) as (p & Hp & Hpx & Hpy);
             [lia | exact Hy | exact Hcell |].
           exists p. split; [apply elem_of_app; left; exact Hp | auto].
      * intros i j p q Hij Hi Hj.
        apply lookup_app_Some in Hi. apply lookup_app_Some in Hj.
        destruct Hi as [Hi | [Hil Hi]], Hj as [Hj | [Hjl Hj]].
        -- eapply IHs; eassumption.
        -- apply list_lookup_singleton_Some in Hj as [_ <-]. simpl.
           apply list_elem_of_lookup_2 in Hi. apply IHx in Hi. exact Hi.
        -- apply list_lookup_singleton_Some in Hi as [Hi _].
           apply lookup_lt_Some in Hj. lia.
        -- apply list_lookup_singleton_Some in Hi as [Hi _].
           apply list_lookup_singleton_Some in Hj as [Hj _]. lia.
      * intros p [Hp | Hp]%elem_of_app.
        -- specialize (IHx p Hp). lia.
        -- apply list_elem_of_singleton in Hp. subst p. simpl. lia.
      * rewrite length_app. simpl. lia.
Qed.

(** X11: every column of the image that holds a pixel of the mask set
    to 1 has a point on the contact line, at or below that pixel; the
    points come in the order of their columns, from left to right, and
    there is at most one per column of the image. *)
Theorem detect_covers_columns :
  forall (mask : list Z) (w h : nat),
    let line := points (detect mask w h) in
    (forall x y : nat, (x < w)%nat -> (y < h)%nat ->
       mask !! (y * w + x)%nat = Some 1 ->
       exists p, p ∈ line /\ pt_x p = Z.of_nat x /\ Z.of_nat y <= pt_y p)
    /\ (forall (i j : nat) p q, (i < j)%nat ->
          line !! i = Some p -> line !! j = Some q -> pt_x p < pt_x q)
    /\ (length line <= w)%nat.
Proof.
  intros mask w h line.
  destruct (detect_columns_cover mask w h w) as (Hc & Hs & _ & Hl).
  split; [exact Hc |]. split; [exact Hs | exact Hl].
Qed.

(** X12: steps 1 and 3 of the pipeline together.  A contact
    point found on the silhouette extracted from a well-formed image is
    a pixel of the image whose alpha is above the threshold, and no
    pixel below it in its column has an alpha above the threshold. *)
Theorem detect_extract_contact :
  forall (imageData : ImageData) (alphaThreshold : Q) (p : Point),
    well_formed imageData ->
    p ∈ points (detect (extract imageData alphaThreshold)
                  (width imageData) (height imageData)) ->
    exists (x y : nat) (alpha : Z),
      pt_x p = Z.of_nat x /\ pt_y p = Z.of_nat y
      /\ (x < width imageData)%nat /\ (y < height imageData)%nat
      /\ data imageData !! ((y * width imageData + x) * 4 + 3)%nat = Some alpha
      /\ (alphaThreshold < inject_Z alpha)%Q
      /\ forall (y' : nat) (alpha' : Z),
           (y < y' < height imageData)%nat ->
           data imageData !! ((y' * width imageData + x) * 4 + 3)%nat
           = Some alpha' ->
           (inject_Z alpha' <= alphaThreshold)%Q.
Proof.
  intros imageData t p Hwf Hp.
  set (w := width imageData) in *. set (h := height imageData) in *.
  destruct (detect_columns_inv (extract imageData t) w h w (le_n w)) as [Hlow _].
  destruct (Hlow p Hp) as [(x & y & Hx & Hy & Hxw & Hyh & Hone & Hbelow) _].
  assert (Hcell : forall y0 : nat, (y0 < h)%nat ->
            exists a, data imageData !! ((y0 * w + x) * 4 + 3)%nat = Some a
                      /\ extract imageData t !! (y0 * w + x)%nat
                         = Some (if JS.Qlt_bool t (inject_Z a) then 1 else 0)).
  { intros y0 Hy0.
    destruct (lookup_lt_is_Some_2 (data imageData) ((y0 * w + x) * 4 + 3))
      as [a Ha].
    { unfold well_formed in Hwf. rewrite Hwf. fold w h. nia. }
    exists a. split; [exact Ha |].
    unfold w. rewrite extract_lookup by assumption.
    fold w. unfold px. rewrite Ha. reflexivity. }
  destruct (Hcell y Hyh) as (alpha & Halpha & Hmask).
  exists x, y, alpha.
  repeat (split; [assumption |]).
  split.
  - rewrite Hmask in Hone.
    destruct (JS.Qlt_bool t (inject_Z alpha)) eqn:Hlt; [| discriminate].
    apply Qlt_bool_true. exact Hlt.
  - intros y' alpha' Hy' Ha'.
    destruct (Hcell y' ltac:(lia)) as (a & Ha & Hm).
    rewrite Ha' in Ha. injection Ha as <-.
    specialize (Hbelow y' Hy'). rewrite Hm in Hbelow.
    destruct (JS.Qlt_bool t (inject_Z alpha')) eqn:Hlt; [contradiction |].
    apply Qlt_bool_false. exact Hlt.
Qed.

Lemma detect_extract_contact_witness :
  exists (x y : nat) (alpha : Z),
    0 = Z.of_nat x /\ 1 = Z.of_nat y
    /\ (x < 1)%nat /\ (y < 3)%nat
    /\ [0; 0; 0; 0; 9; 9; 9; 200; 0; 0; 0; 10] !! ((y * 1 + x) * 4 + 3)%nat
       = Some alpha
    /\ (10 < inject_Z alpha)%Q
    /\ forall (y' : nat) (alpha' : Z),
         (y < y' < 3)%nat ->
         [0; 0; 0; 0; 9; 9; 9; 200; 0; 0; 0; 10] !! ((y' * 1 + x) * 4 + 3)%nat
         = Some alpha' ->
         (inject_Z alpha' <= 10)%Q.
Proof.
  apply (detect_extract_contact
           {| width := 1; height := 3;
              data := [0; 0; 0; 0; 9; 9; 9; 200; 0; 0; 0; 10] |}
           10 {| pt_x := 0; pt_y := 1 |}).
  - reflexivity.
  - apply list_elem_of_singleton. reflexivity.
Defined.

(** The running box of [getContactLineBounds] after the points [pts]. *)
Lemma bounds_fold pts :
  forall b a0 a1 c0 c1 seen,
    b = {| minX := Int a0; maxX := Int a1; minY := Int c0; maxY := Int c1 |} ->
    (forall p, p ∈ seen -> a0 <= pt_x p <= a1 /\ c0 <= pt_y p <= c1) ->
    (exists p, p ∈ seen /\ pt_x p = a0) ->
    (exists p, p ∈ seen /\ pt_x p = a1) ->
    (exists p, p ∈ seen /\ pt_y p = c0) ->
    (exists p, p ∈ seen /\ pt_y p = c1) ->
    exists a0' a1' c0' c1',
      fold_left (fun b point =>
          {| minX := ext_min (minX b) (pt_x point);
             maxX := ext_max (maxX b) (pt_x point);
             minY := ext_min (minY b) (pt_y point);
             maxY := ext_max (maxY b) (pt_y point) |}) pts b
      = {| minX := Int a0'; maxX := Int a1'; minY := Int c0'; maxY := Int c1' |}
      /\ (forall p, p ∈ seen ++ pts ->
            a0' <= pt_x p <= a1' /\ c0' <= pt_y p <= c1')
      /\ (exists p, p ∈ seen ++ pts /\ pt_x p = a0')
      /\ (exists p, p ∈ seen ++ pts /\ pt_x p = a1')
      /\ (exists p, p ∈ seen ++ pts /\ pt_y p = c0')
      /\ (exists p, p ∈ seen ++ pts /\ pt_y p = c1').
Proof.
  induction pts as [|pt pts IH]; intros b a0 a1 c0 c1 seen -> Hin H0 H1 H2 H3.
  - simpl. exists a0, a1, c0, c1. rewrite app_nil_r. auto 10.
  - simpl.
    assert (Hmem : forall p, p ∈ seen -> p ∈ seen ++ [pt])
      by (intros p Hp; apply elem_of_app; left; exact Hp).
    assert (Hpt : pt ∈ seen ++ [pt])
      by (apply elem_of_app; right; apply list_elem_of_singleton; reflexivity).
    destruct (IH _ (Z.min a0 (pt_x pt)) (Z.max a1 (pt_x pt))
                   (Z.min c0 (pt_y pt)) (Z.max c1 (pt_y pt))
                   (seen ++ [pt]) eq_refl)
      as (a0' & a1' & c0' & c1' & Hfold & Hall & Ha0 & Ha1 & Hc0 & Hc1).
    + intros p [Hp | Hp]%elem_of_app.
      * specialize (Hin p Hp). lia.
      * apply list_elem_of_singleton in Hp. subst p. lia.
    + destruct (Z.min_spec a0 (pt_x pt)) as [[_ ->] | [_ ->]].
      * destruct H0 as (p & Hp & Hx). exists p. auto.
      * exists pt. auto.
    + destruct (Z.max_spec a1 (pt_x pt)) as [[_ ->] | [_ ->]].
      * exists pt. auto.
      * destruct H1 as (p & Hp & Hx). exists p. auto.
    + destruct (Z.min_spec c0 (pt_y pt)) as [[_ ->] | [_ ->]].
      * destruct H2 as (p & Hp & Hx). exists p. auto.
      * exists pt. auto.
    + destruct (Z.max_spec c1 (pt_y pt)) as [[_ ->] | [_ ->]].
      * exists pt. auto.
      * destruct H3 as (p & Hp & Hx). exists p. auto.
    + exists a0', a1', c0', c1'.
      rewrite <- app_assoc in Hall, Ha0, Ha1, Hc0, Hc1. simpl in *.
      auto 10.
Qed.

(** X13: for an empty contact line [getContactLineBounds] returns the
    box of zeros; otherwise it returns four integers, the box contains
    every point of the line, and each of its four sides passes through
    a point of the line. *)
Theorem getContactLineBounds_box :
  forall contactLine : ContactLine,
    (points contactLine = [] ->
       getContactLineBounds contactLine
       = {| minX := Int 0; maxX := Int 0; minY := Int 0; maxY := Int 0 |})
    /\ (points contactLine <> [] ->
        exists x0 x1 y0 y1,
          getContactLineBounds contactLine
          = {| minX := Int x0; maxX := Int x1; minY := Int y0; maxY := Int y1 |}
          /\ (forall p, p ∈ points contactLine ->
                x0 <= pt_x p <= x1 /\ y0 <= pt_y p <= y1)
          /\ (exists p, p ∈ points contactLine /\ pt_x p = x0)
          /\ (exists p, p ∈ points contactLine /\ pt_x p = x1)
          /\ (exists p, p ∈ points contactLine /\ pt_y p = y0)
          /\ (exists p, p ∈ points contactLine /\ pt_y p = y1)).
Proof.
  intros [pts]. simpl. split.
  - intros ->. reflexivity.
  - intros Hne. destruct pts as [|pt pts]; [contradiction |].
    unfold getContactLineBounds. simpl.
    assert (Hpt : pt ∈ [pt]) by (apply list_elem_of_singleton; reflexivity).
    destruct (bounds_fold pts _ (pt_x pt) (pt_x pt) (pt_y pt) (pt_y pt) [pt]
                eq_refl)
      as (a0 & a1 & c0 & c1 & Hfold & Hall & Ha0 & Ha1 & Hc0 & Hc1).
    + intros p Hp. apply list_elem_of_singleton in Hp. subst p. lia.
    + exists pt. auto.
    + exists pt. auto.
    + exists pt. auto.
    + exists pt. auto.
    + exists a0, a1, c0, c1. simpl in *. auto 10.
Qed.

(** The four stores of [visualizeContactLine] at a contact point. *)
Local Abbreviation paint w pixels point :=
  (store_at ((pt_y point * Z.of_nat w + pt_x point) * 4 + 3) 255
     (store_at ((pt_y point * Z.of_nat w + pt_x point) * 4 + 2) 0
        (store_at ((pt_y point * Z.of_nat w + pt_x point) * 4 + 1) 0
           (store_at ((pt_y point * Z.of_nat w + pt_x point) * 4) 255 pixels)))).

Lemma paint_length w pixels point : length (paint w pixels point) = length pixels.
Proof. rewrite !store_at_length. reflexivity. Qed.

Lemma paint_lookup (w h : nat) pixels point (i c : nat) :
  length pixels = (w * h * 4)%nat ->
  0 <= pt_x point < Z.of_nat w -> 0 <= pt_y point < Z.of_nat h ->
  (i < w * h)%nat -> (c < 4)%nat ->
  paint w pixels point !! (i * 4 + c)%nat
  = if decide (pt_y point * Z.of_nat w + pt_x point = Z.of_nat i)
    then Some (match c with 1%nat | 2%nat => 0 | _ => 255 end)
    else pixels !! (i * 4 + c)%nat.
Proof.
  intros Hlen Hx Hy Hi Hc.
  rewrite <- !cell_at_nat.
  set (k := pt_y point * Z.of_nat w + pt_x point) in *.
  assert (Hk : 0 <= k < Z.of_nat (w * h)) by (unfold k; nia).
  rewrite !cell_at_store_at, !store_at_length.
  destruct (decide (k = Z.of_nat i)) as [Heq | Hne].
  - destruct c as [|[|[|[|c]]]]; try lia;
      repeat first
        [ rewrite decide_True by lia; reflexivity
        | rewrite decide_False by lia ].
  - repeat rewrite decide_False by lia. reflexivity.
Qed.

(** X14: for a mask of 0s and 1s with one cell per pixel and a contact
    line within the image, [visualizeContactLine] returns an image of
    the given size in which the pixel of a contact point is opaque red
    and every other pixel is opaque gray, 128 on a 1 of the mask and 0
    on a 0. *)
Theorem visualizeContactLine_pixels :
  forall (mask : list Z) (contactLine : ContactLine) (w h : nat),
    length mask = (w * h)%nat ->
    (forall p, p ∈ points contactLine ->
       0 <= pt_x p < Z.of_nat w /\ 0 <= pt_y p < Z.of_nat h) ->
    let image := visualizeContactLine mask contactLine w h in
    well_formed image
    /\ forall (i c : nat) (v : Z),
         (c < 4)%nat -> mask !! i = Some v -> 0 <= v <= 1 ->
         ((exists p, p ∈ points contactLine
                     /\ pt_y p * Z.of_nat w + pt_x p = Z.of_nat i) ->
            data image !! (i * 4 + c)%nat
            = Some (match c with 1%nat | 2%nat => 0 | _ => 255 end))
         /\ ((forall p, p ∈ points contactLine ->
                        pt_y p * Z.of_nat w + pt_x p <> Z.of_nat i) ->
            data image !! (i * 4 + c)%nat
            = Some (match c with 3%nat => 255 | _ => v * 128 end)).
Proof.
  intros mask [pts] w h Hlen Hpts image. subst image. simpl in Hpts.
  unfold visualizeContactLine. cbn [points data width height].
  set (gray := for_loop (length mask) (fun i pixels =>
                 set_rgba (i * 4)
                   (px mask i * 128, px mask i * 128, px mask i * 128, 255)%Q
                   pixels)
                 (data (new_ImageData w h))).
  assert (Hgl : length gray = (w * h * 4)%nat).
  { unfold gray.
    rewrite (for_loop_set_rgba_length (length mask)
               (fun i => (px mask i * 128, px mask i * 128, px mask i * 128, 255)%Q)).
    apply length_replicate. }
  assert (Hgray : forall (i c : nat) (v : Z),
            (c < 4)%nat -> mask !! i = Some v -> 0 <= v <= 1 ->
            gray !! (i * 4 + c)%nat
            = Some (match c with 3%nat => 255 | _ => v * 128 end)).
  { intros i c v Hc Hv Rv.
    assert (Hi : (i < length mask)%nat) by (eapply lookup_lt_Some; exact Hv).
    unfold gray.
    rewrite (for_loop_set_rgba_lookup (length mask)
               (fun i => (px mask i * 128, px mask i * 128, px mask i * 128, 255)%Q));
      [| exact Hi | exact Hc | simpl; rewrite length_replicate; lia].
    cbv beta iota.
    assert (Hval : to_uint8_clamped (px mask i * 128) = v * 128).
    { unfold px. rewrite Hv.
      change 128%Q with (inject_Z 128). rewrite inject_Z_scale.
      apply to_uint8_clamped_byte. lia. }
    destruct c as [|[|[|c]]]; simpl channel; rewrite ?Hval; try reflexivity.
    assert (c = 0%nat) by lia. subst c. reflexivity. }
  clearbody gray.
  revert Hpts. induction pts as [|pt pts IH] using rev_ind; intros Hpts.
  - simpl. split; [exact Hgl |].
    intros i c v Hc Hv Rv. split.
    + intros (p & Hp & _). inversion Hp.
    + intros _. apply Hgray; assumption.
  - rewrite fold_left_app. simpl fold_left.
    destruct IH as [IHwf IHcells].
    { intros p Hp. apply Hpts. apply elem_of_app. left. exact Hp. }
    unfold well_formed in IHwf. simpl in IHwf.
    destruct (Hpts pt) as [Hx Hy].
    { apply elem_of_app. right. apply list_elem_of_singleton. reflexivity. }
    split.
    + unfold well_formed. simpl. rewrite paint_length. exact IHwf.
    + intros i c v Hc Hv Rv.
      assert (Hi : (i < w * h)%nat).
      { rewrite <- Hlen. eapply lookup_lt_Some; exact Hv. }
      rewrite (paint_lookup w h) by assumption.
      destruct (IHcells i c v Hc Hv Rv) as [IHred IHgray].
      destruct (decide (pt_y pt * Z.of_nat w + pt_x pt = Z.of_nat i))
        as [Heq | Hne].
      * split; [intros _; reflexivity |].
        intros Hnone. exfalso. apply (Hnone pt); [| exact Heq].
        apply elem_of_app. right. apply list_elem_of_singleton. reflexivity.
      * split.
        -- intros (p & [Hp | Hp]%elem_of_app & Hidx).
           ++ apply IHred. exists p. split; assumption.
           ++ apply list_elem_of_singleton in Hp. subst p. contradiction.
        -- intros Hnone. apply IHgray.
           intros p Hp. apply Hnone. apply elem_of_app. left. exact Hp.
Qed.

Lemma visualizeContactLine_pixels_witness :
  data (visualizeContactLine [0; 1] {| points := [ {| pt_x := 0; pt_y := 1 |} ] |}
          1 2) !! (1 * 4 + 0)%nat = Some 255
  /\ data (visualizeContactLine [0; 1] {| points := [ {| pt_x := 0; pt_y := 1 |} ] |}
          1 2) !! (0 * 4 + 3)%nat = Some 255.
Proof.
  destruct (visualizeContactLine_pixels [0; 1]
              {| points := [ {| pt_x := 0; pt_y := 1 |} ] |} 1 2 eq_refl)
    as [_ Hcells].
  - intros p Hp. apply list_elem_of_singleton in Hp. subst p. simpl. lia.
  - split.
    + destruct (Hcells 1%nat 0%nat 1 ltac:(lia) eq_refl ltac:(lia)) as [Hred _].
      apply Hred. exists {| pt_x := 0; pt_y := 1 |}.
      split; [apply list_elem_of_singleton; reflexivity | reflexivity].
    + destruct (Hcells 0%nat 3%nat 0 ltac:(lia) eq_refl ltac:(lia)) as [_ Hgray].
      apply Hgray. intros p Hp. apply list_elem_of_singleton in Hp. subst p.
      simpl. lia.
Defined.

End ContactLineFacts.

(** ** DistanceTransform: the nearest contact point, the statistics *)

Section NearestFacts.
Import DistanceTransform.

Variable distance : Q -> Q -> Q -> Q -> Q.

Local Abbreviation dist_to x y p :=
  (distance (inject_Z (Z.of_nat x)) (inject_Z (Z.of_nat y))
     (inject_Z (pt_x p)) (inject_Z (pt_y p))).




End NearestFacts.


Section StatisticsFacts.
Import DistanceTransform.

Variable distanceMap : DistanceMap.
Variable mask : list Z.

Local Abbreviation counted i q :=
  (mask !! i <> Some 0 /\ dm_data distanceMap !! i = Some (Fin q)).

Local Abbreviation tally_after n :=
  (for_loop n (fun i acc =>
      if cell_is 0 mask i then acc
      else
        match dm_data distanceMap !! i with
        | Some dist =>
            {| t_min := number_min (t_min acc) dist;
               t_max := number_max (t_max acc) dist;
               t_sum := number_add (t_sum acc) dist;
               t_count := S (t_count acc) |}
        | None => acc
        end)
      {| t_min := Infinity; t_max := None; t_sum := Fin 0; t_count := 0 |}).

(** The cells that are counted are finite, as [compute] leaves them. *)
Hypothesis finite_cells :
  forall (i : nat) d,
    mask !! i <> Some 0 -> dm_data distanceMap !! i = Some d ->
    exists q, d = Fin q.

(** After [n] cells either none was counted, or the sum lies between
    the count times the minimum and the count times the maximum. *)
Lemma tally_invariant n :
  (n <= length (dm_data distanceMap))%nat ->
  (tally_after n
     = {| t_min := Infinity; t_max := None; t_sum := Fin 0; t_count := 0 |}
   /\ forall (i : nat) q, (i < n)%nat -> ~ counted i q)
  \/ (exists lo hi s c,
        tally_after n
        = {| t_min := Fin lo; t_max := Some (Fin hi); t_sum := Fin s;
             t_count := S c |}
        /\ (inject_Z (Z.of_nat (S c)) * lo <= s)%Q
        /\ (s <= inject_Z (Z.of_nat (S c)) * hi)%Q
        /\ (lo <= hi)%Q
        /\ forall (i : nat) q, (i < n)%nat -> counted i q -> (lo <= q <= hi)%Q).
Proof.
  induction n as [|n IH]; intros Hn.
  - left. split; [reflexivity | intros i q Hi; lia].
  - rewrite for_loop_S.
    destruct (cell_is 0 mask n) eqn:Hc.
    + apply cell_is_true in Hc.
      destruct IH as [[Hacc Hnone] | (lo & hi & s & c & Hacc & Hlo & Hhi & Hord & Hall)];
        [lia | |].
      * left. split; [exact Hacc |].
        intros i q Hi [Hm Hd].
        destruct (decide (i = n)) as [-> | Hne]; [contradiction |].
        apply (Hnone i q); [lia | split; assumption].
      * right. exists lo, hi, s, c.
        split; [exact Hacc |]. split; [exact Hlo |]. split; [exact Hhi |].
        split; [exact Hord |].
        intros i q Hi Hcq.
        destruct (decide (i = n)) as [-> | Hne];
          [destruct Hcq; contradiction | apply (Hall i q); [lia | exact Hcq]].
    + assert (Hm : mask !! n <> Some 0).
      { intros H. apply cell_is_true in H. congruence. }
      destruct (lookup_lt_is_Some_2 (dm_data distanceMap) n) as [d Hd]; [lia |].
      rewrite Hd.
      destruct (finite_cells n d Hm Hd) as [v ->].
      destruct IH as [[Hacc Hnone] | (lo & hi & s & c & Hacc & Hlo & Hhi & Hord & Hall)];
        [lia | |].
      * right. exists v, v, (0 + v)%Q, 0%nat. rewrite Hacc.
        cbn [t_min t_max t_sum t_count number_min number_max number_add].
        split; [reflexivity |].
        change (inject_Z (Z.of_nat 1)) with 1%Q.
        split; [lra |]. split; [lra |]. split; [lra |].
        intros i q Hi Hcq.
        destruct (decide (i = n)) as [-> | Hne].
        -- destruct Hcq as [_ H0]. rewrite Hd in H0. injection H0 as ->.
           split; apply Qle_refl.
        -- exfalso. apply (Hnone i q); [lia | exact Hcq].
      * right. exists (Qmin lo v), (Qmax hi v), (s + v)%Q, (S c). rewrite Hacc.
        cbn [t_min t_max t_sum t_count number_min number_max number_add].
        pose proof (Q.le_min_l lo v) as Hm1. pose proof (Q.le_min_r lo v) as Hm2.
        pose proof (Q.le_max_l hi v) as HM1. pose proof (Q.le_max_r hi v) as HM2.
        assert (Hcnt : (inject_Z (Z.of_nat (S (S c)))
                        == inject_Z (Z.of_nat (S c)) + 1)%Q).
        { rewrite (Nat2Z.inj_succ (S c)). unfold Z.succ.
          rewrite inject_Z_plus. reflexivity. }
        assert (Hpos : (0 <= inject_Z (Z.of_nat (S c)))%Q).
        { change 0%Q with (inject_Z 0). rewrite <- Zle_Qle. lia. }
        set (k := inject_Z (Z.of_nat (S c))) in *.
        set (mn := Qmin lo v) in *. set (mx := Qmax hi v) in *.
        split; [reflexivity |].
        split; [rewrite Hcnt; nra |].
        split; [rewrite Hcnt; nra |].
        split; [lra |].
        intros i q Hi Hcq.
        destruct (decide (i = n)) as [-> | Hne].
        -- destruct Hcq as [_ H0]. rewrite Hd in H0. injection H0 as ->.
           split; assumption.
        -- destruct (Hall i q ltac:(lia) Hcq). split; lra.
Qed.

(** X16: over a distance map whose counted cells (those whose mask cell
    is not 0) are finite, [getStatistics] returns three finite numbers
    with [min <= average <= max], and every counted cell lies between
    [min] and [max]. *)
Theorem getStatistics_ordered :
  exists lo hi avg,
    getStatistics distanceMap mask
    = {| stat_min := Fin lo; stat_max := Fin hi; stat_average := Fin avg |}
    /\ (lo <= avg)%Q /\ (avg <= hi)%Q
    /\ forall (i : nat) q, mask !! i <> Some 0 ->
         dm_data distanceMap !! i = Some (Fin q) -> (lo <= q <= hi)%Q.
Proof.
  unfold getStatistics.
  destruct (tally_invariant (length (dm_data distanceMap)) (le_n _))
    as [[Hacc Hnone] | (lo & hi & s & c & Hacc & Hlo & Hhi & Hord & Hall)].
  - rewrite Hacc. simpl. exists 0%Q, 0%Q, 0%Q.
    split; [reflexivity |]. split; [lra |]. split; [lra |].
    intros i q Hm Hd. exfalso. apply (Hnone i q).
    + eapply lookup_lt_Some; exact Hd.
    + split; assumption.
  - rewrite Hacc. cbn [t_min t_max t_sum t_count number_div].
    replace (0 <? S c)%nat with true by reflexivity.
    exists lo, hi, (s / inject_Z (Z.of_nat (S c)))%Q.
    split; [reflexivity |].
    assert (Hpos : (0 < inject_Z (Z.of_nat (S c)))%Q).
    { change 0%Q with (inject_Z 0). rewrite <- Zlt_Qlt. lia. }
    split; [| split].
    + apply Qle_shift_div_l; [exact Hpos |]. rewrite Qmult_comm. exact Hlo.
    + apply Qle_shift_div_r; [exact Hpos |]. rewrite Qmult_comm. exact Hhi.
    + intros i q Hm Hd. apply (Hall i q).
      * eapply lookup_lt_Some; exact Hd.
      * split; assumption.
Qed.

End StatisticsFacts.

Lemma getStatistics_ordered_witness :
  let distanceMap :=
    {| dm_data := [Fin 3; Fin 7; Fin 1; Fin 2]; dm_width := 2; dm_height := 2 |} in
  exists lo hi avg,
    DistanceTransform.getStatistics distanceMap [1; 0; 1; 1]
    = {| DistanceTransform.stat_min := Fin lo;
         DistanceTransform.stat_max := Fin hi;
         DistanceTransform.stat_average := Fin avg |}
    /\ (lo <= avg)%Q /\ (avg <= hi)%Q
    /\ forall (i : nat) q, [1; 0; 1; 1] !! i <> Some 0 ->
         dm_data distanceMap !! i = Some (Fin q) -> (lo <= q <= hi)%Q.
Proof.
  intros distanceMap.
  apply (getStatistics_ordered distanceMap [1; 0; 1; 1]).
  intros i d _ Hd.
  destruct i as [|[|[|[|i]]]]; simpl in Hd; inversion Hd; eexists; reflexivity.
Defined.

(** ** LightVectorCalculator, and the default configuration *)

Section LightFacts.
Import LightVectorCalculator ShadowGenerator.

(** X17: whatever [degreesToRadians] and [Math.sin] return, the shadow
    length multiplier is positive and at most 10; it is 10 when the sine
    of the elevation is at most 0.1, and the inverse of that sine
    otherwise. *)
Theorem getShadowLengthMultiplier_range :
  forall (degreesToRadians Math_sin : Q -> Q) (elevationDegrees : Q),
    let m := getShadowLengthMultiplier degreesToRadians Math_sin
               elevationDegrees in
    let s := Math_sin (degreesToRadians elevationDegrees) in
    (0 < m)%Q /\ (m <= 10)%Q
    /\ ((s <= 1 # 10)%Q -> (m == 10)%Q)
    /\ ((1 # 10 <= s)%Q -> (m * s == 1)%Q).
Proof.
  intros degreesToRadians Math_sin e m s. subst m.
  unfold getShadowLengthMultiplier. fold s.
  set (d := Qmax (1 # 10) s).
  assert (Hd : ((1 # 10) <= d)%Q) by apply Q.le_max_l.
  assert (Hd0 : (0 < d)%Q) by lra.
  assert (Hinv : (0 < / d)%Q) by (apply Qinv_lt_0_compat; exact Hd0).
  assert (Hmul : (d * / d == 1)%Q) by (apply Qmult_inv_r; lra).
  unfold Qdiv. rewrite Qmult_1_l.
  repeat split.
  - exact Hinv.
  - nra.
  - intros Hs. assert (Hds : (d == 1 # 10)%Q).
    { unfold d. apply Q.max_l. exact Hs. }
    rewrite Hds. reflexivity.
  - intros Hs. assert (Hds : (d == s)%Q).
    { unfold d. apply Q.max_r. exact Hs. }
    rewrite <- Hds, Qmult_comm. exact Hmul.
Qed.

(** X18: [getDefaultConfig] keeps the angle and the elevation it is
    given, 135 and 45 for those left out.  For an elevation between 0
    and 90 degrees the contact opacity it takes from
    [getSuggestedShadowParams] lies between 0.6 and 0.9 and the falloff
    rate between 3 and 5; the blur radii are 1 and 10 and the maximal
    shadow distance is 150. *)
Theorem getDefaultConfig_ranges :
  forall (angle elevation : option Q) (e : Q),
    e = match elevation with Some v => v | None => 45%Q end ->
    (0 <= e <= 90)%Q ->
    let config := getDefaultConfig angle elevation in
    lightAngle config = match angle with Some v => v | None => 135%Q end
    /\ lightElevation config = e
    /\ ((6 # 10) <= contactOpacity config <= (9 # 10))%Q
    /\ (3 <= falloffRate config <= 5)%Q
    /\ minBlurRadius config = 1%Q /\ maxBlurRadius config = 10%Q
    /\ maxShadowDistance config = 150%Q.
Proof.
  intros angle elevation e He Hrange config. subst config.
  unfold getDefaultConfig, getSuggestedShadowParams. cbv zeta.
  cbn [lightAngle lightElevation contactOpacity falloffRate minBlurRadius
       maxBlurRadius maxShadowDistance suggested_contactOpacity
       suggested_falloffRate].
  rewrite <- He.
  change (e / 90)%Q with (e * (1 # 90))%Q.
  repeat split; try reflexivity; lra.
Qed.

Lemma getDefaultConfig_ranges_witness :
  let config := getDefaultConfig None None in
  lightAngle config = 135%Q
  /\ lightElevation config = 45%Q
  /\ ((6 # 10) <= contactOpacity config <= (9 # 10))%Q
  /\ (3 <= falloffRate config <= 5)%Q
  /\ minBlurRadius config = 1%Q /\ maxBlurRadius config = 10%Q
  /\ maxShadowDistance config = 150%Q.
Proof.
  apply (getDefaultConfig_ranges None None 45); [reflexivity | lra].
Defined.

End LightFacts.

(** ** alphaBlend and the compositor *)

Section BlendFacts.
Import ImageDataUtils ShadowProjector ShadowCompositor.

(** An opaque source replaces the backdrop. *)
Lemma alphaBlend_opaque (bR bG bB bA : Q) (sR sG sB : Z) :
  alphaBlend bR bG bB bA
    (inject_Z sR) (inject_Z sG) (inject_Z sB) (inject_Z 255)
  = {| col_r := inject_Z sR; col_g := inject_Z sG;
       col_b := inject_Z sB; col_a := inject_Z 255 |}.
Proof.
  unfold alphaBlend.
  change (Qeq_bool (inject_Z 255 / 255) 0) with false. cbv iota.
  set (srcA := (inject_Z 255 / 255)%Q).
  set (dstA := (bA / 255)%Q).
  assert (Hsrc : (srcA == 1)%Q) by reflexivity.
  assert (Hout : (srcA + dstA * (1 - srcA) == 1)%Q) by (rewrite Hsrc; ring).
  assert (Hpos : JS.Qlt_bool 0 (srcA + dstA * (1 - srcA)) = true).
  { apply Qlt_bool_true. rewrite Hout. reflexivity. }
  rewrite Hpos.
  assert (Hover : forall s b : Q,
            ((s * srcA + b * dstA * (1 - srcA)) / (srcA + dstA * (1 - srcA)) == s)%Q).
  { intros s b. rewrite Hout, Hsrc. field. }
  rewrite (Math_round_comp _ _ (Hover (inject_Z sR) bR)).
  rewrite (Math_round_comp _ _ (Hover (inject_Z sG) bG)).
  rewrite (Math_round_comp _ _ (Hover (inject_Z sB) bB)).
  assert (Ha : ((srcA + dstA * (1 - srcA)) * 255 == inject_Z 255)%Q).
  { rewrite Hout. reflexivity. }
  rewrite (Math_round_comp _ _ Ha).
  rewrite !Math_round_Z. reflexivity.
Qed.

(** X19: the two ends of [alphaBlend].  A source of alpha 0 leaves the
    backdrop as it is, whatever the backdrop; a source of alpha 255 with
    integer channels is returned as it is, with alpha 255, whatever the
    backdrop. *)
Theorem alphaBlend_extremes :
  forall (backdropR backdropG backdropB backdropA : Q)
         (sourceR sourceG sourceB : Z),
    alphaBlend backdropR backdropG backdropB backdropA
      (inject_Z sourceR) (inject_Z sourceG) (inject_Z sourceB) (inject_Z 0)
    = {| col_r := backdropR; col_g := backdropG;
         col_b := backdropB; col_a := backdropA |}
    /\ alphaBlend backdropR backdropG backdropB backdropA
         (inject_Z sourceR) (inject_Z sourceG) (inject_Z sourceB) (inject_Z 255)
       = {| col_r := inject_Z sourceR; col_g := inject_Z sourceG;
            col_b := inject_Z sourceB; col_a := inject_Z 255 |}.
Proof.
  intros bR bG bB bA sR sG sB. split.
  - apply alphaBlend_transparent.
  - apply alphaBlend_opaque.
Qed.

(** X20: on alphas that are bytes, the alpha [alphaBlend] returns is at
    least the alpha of the backdrop and at least the alpha of the
    source, and at most 255: blending never makes a pixel more
    transparent. *)
Theorem alphaBlend_alpha_grows :
  forall backdropR backdropG backdropB backdropA
         sourceR sourceG sourceB sourceA : Q,
    byteQ backdropA -> byteQ sourceA ->
    let out := alphaBlend backdropR backdropG backdropB backdropA
                 sourceR sourceG sourceB sourceA in
    (backdropA <= col_a out)%Q /\ (sourceA <= col_a out)%Q
    /\ (col_a out <= 255)%Q.
Proof.
  intros bR bG bB bA sR sG sB sA HbA HsA out. subst out.
  pose proof (byteQ_range _ HbA) as RbA.
  pose proof (byteQ_range _ HsA) as RsA.
  destruct HbA as (zb & Hzb & ->). destruct HsA as (zs & Hzs & ->).
  unfold alphaBlend.
  destruct (Qeq_bool (inject_Z zs / 255) 0) eqn:Hsrc.
  - apply Qeq_bool_eq in Hsrc. simpl.
    change (inject_Z zs / 255)%Q with (inject_Z zs * (1 # 255))%Q in Hsrc.
    repeat split; lra.
  - simpl.
    change (inject_Z zs / 255)%Q with (inject_Z zs * (1 # 255))%Q.
    change (inject_Z zb / 255)%Q with (inject_Z zb * (1 # 255))%Q.
    repeat split.
    + rewrite <- Zle_Qle. apply Math_round_ge.
      set (a := inject_Z zs) in *. set (b := inject_Z zb) in *. nra.
    + rewrite <- Zle_Qle. apply Math_round_ge.
      set (a := inject_Z zs) in *. set (b := inject_Z zb) in *. nra.
    + change 255%Q with (inject_Z 255). rewrite <- Zle_Qle.
      apply Math_round_le. change (inject_Z 255) with 255%Q.
      set (a := inject_Z zs) in *. set (b := inject_Z zb) in *. nra.
Qed.

Lemma alphaBlend_alpha_grows_witness :
  let out := alphaBlend 10 20 30 (inject_Z 100) 200 100 50 (inject_Z 50) in
  (inject_Z 100 <= col_a out)%Q /\ (inject_Z 50 <= col_a out)%Q
  /\ (col_a out <= 255)%Q.
Proof.
  apply (alphaBlend_alpha_grows 10 20 30 (inject_Z 100) 200 100 50 (inject_Z 50)).
  - exists 100. split; [lia | reflexivity].
  - exists 50. split; [lia | reflexivity].
Defined.




(** X22: [compositeAttachedShadow] against [composite].  Over a
    silhouette mask that is 0 at every pixel the two return the same
    image; over one that is 0 at no pixel the attached composite is the
    composite under a fully transparent shadow layer: the shadow is
    dropped exactly where the mask is not 0. *)
Theorem compositeAttachedShadow_by_mask :
  forall (background shadow foreground : ImageData) (silhouetteMask : list Z),
    ((forall i : nat, (i < width background * height background)%nat ->
                      silhouetteMask !! i = Some 0) ->
     compositeAttachedShadow background shadow foreground silhouetteMask
     = composite background shadow foreground)
    /\ ((forall i : nat, (i < width background * height background)%nat ->
                         silhouetteMask !! i <> Some 0) ->
        compositeAttachedShadow background shadow foreground silhouetteMask
        = composite background
            (new_ImageData (width background) (height background))
            foreground).
Proof.
  intros background shadow foreground silhouetteMask. split.
  - intros Hmask. unfold compositeAttachedShadow, composite. f_equal.
    apply for_loop_ext. intros i pixels Hi.
    unfold attached_color, composite_color.
    specialize (Hmask i Hi). apply cell_is_true in Hmask. rewrite Hmask.
    reflexivity.
  - intros Hmask. unfold compositeAttachedShadow, composite. f_equal.
    apply for_loop_ext. intros i pixels Hi.
    unfold attached_color, composite_color.
    destruct (cell_is 0 silhouetteMask i) eqn:Hc.
    { apply cell_is_true in Hc. exfalso. exact (Hmask i Hi Hc). }
    assert (Hz : px (data (new_ImageData (width background) (height background)))
                   (i * 4 + 3) = inject_Z 0).
    { unfold px, new_ImageData. simpl.
      rewrite lookup_replicate_2 by lia. reflexivity. }
    rewrite Hz, alphaBlend_transparent. reflexivity.
Qed.

Variable exponentialFalloff : number -> Q -> Q -> Q -> Q.

Lemma createShadowLayer_length shadowMask distanceMap config w h :
  length (data (createShadowLayer exponentialFalloff shadowMask distanceMap
                  config w h)) = (w * h * 4)%nat.
Proof.
  unfold createShadowLayer. simpl.
  rewrite (raster_set_rgba_length
             (fun y x => shadow_color exponentialFalloff shadowMask distanceMap
                           config w y x)).
  apply length_replicate.
Qed.

(** The cells [createShadowLayer] leaves at pixel [(x, y)]. *)
Lemma createShadowLayer_lookup shadowMask distanceMap config w h (x y c : nat) :
  (x < w)%nat -> (y < h)%nat -> (c < 4)%nat ->
  data (createShadowLayer exponentialFalloff shadowMask distanceMap config w h)
    !! ((y * w + x) * 4 + c)%nat
  = Some (to_uint8_clamped
            (channel c
               (let '(r, g, b, a) :=
                  shadow_color exponentialFalloff shadowMask distanceMap
                    config w y x in
                {| col_r := r; col_g := g; col_b := b; col_a := a |}))).
Proof.
  intros Hx Hy Hc. unfold createShadowLayer. simpl.
  apply (raster_set_rgba_lookup
           (fun y x => shadow_color exponentialFalloff shadowMask distanceMap
                         config w y x)); [exact Hx | exact Hy | exact Hc |].
  rewrite length_replicate. lia.
Qed.

(** X23: whatever [exponentialFalloff] returns, the layer
    [createShadowLayer] returns is an image of the given size whose
    cells are bytes; the red, green and blue of every pixel are 0, and
    the alpha is 0 wherever the shadow mask is 0. *)
Theorem createShadowLayer_black :
  forall (shadowMask : list Z) (distanceMap : DistanceMap)
         (config : ShadowConfig) (w h : nat),
    let layer :=
      createShadowLayer exponentialFalloff shadowMask distanceMap config w h in
    well_formed layer /\ bytes (data layer)
    /\ forall x y : nat, (x < w)%nat -> (y < h)%nat ->
         data layer !! ((y * w + x) * 4)%nat = Some 0
         /\ data layer !! ((y * w + x) * 4 + 1)%nat = Some 0
         /\ data layer !! ((y * w + x) * 4 + 2)%nat = Some 0
         /\ (shadowMask !! (y * w + x)%nat = Some 0 ->
             data layer !! ((y * w + x) * 4 + 3)%nat = Some 0).
Proof.
  intros shadowMask distanceMap config w h layer. subst layer.
  pose proof (createShadowLayer_length shadowMask distanceMap config w h) as Hlen.
  split; [exact Hlen |]. split.
  - unfold bytes. apply Forall_lookup. intros j v Hv.
    assert (Hj : (j < w * h * 4)%nat).
    { rewrite <- Hlen. eapply lookup_lt_Some; exact Hv. }
    assert (Hw : (0 < w)%nat) by lia.
    assert (Hi : (j / 4 < w * h)%nat)
      by (apply Nat.Div0.div_lt_upper_bound; lia).
    destruct (raster_split w (j / 4) Hw) as [Hsplit Hx].
    pose proof (raster_row_lt _ _ _ Hi) as Hy.
    assert (Hmod : (j mod 4 < 4)%nat) by (apply Nat.mod_upper_bound; lia).
    assert (Hj4 : (j = (j / 4 / w * w + j / 4 mod w) * 4 + j mod 4)%nat).
    { rewrite <- Hsplit. rewrite (Nat.div_mod_eq j 4) at 1. lia. }
    rewrite Hj4, createShadowLayer_lookup in Hv by assumption.
    injection Hv as <-. apply to_uint8_clamped_range.
  - intros x y Hx Hy.
    pose proof (createShadowLayer_lookup shadowMask distanceMap config w h
                  x y 0 Hx Hy ltac:(lia)) as H0.
    pose proof (createShadowLayer_lookup shadowMask distanceMap config w h
                  x y 1 Hx Hy ltac:(lia)) as H1.
    pose proof (createShadowLayer_lookup shadowMask distanceMap config w h
                  x y 2 Hx Hy ltac:(lia)) as H2.
    pose proof (createShadowLayer_lookup shadowMask distanceMap config w h
                  x y 3 Hx Hy ltac:(lia)) as H3.
    rewrite Nat.add_0_r in H0.
    unfold shadow_color in H0, H1, H2, H3.
    destruct (cell_is 0 shadowMask (y * w + x)) eqn:Hc.
    + repeat split; try assumption. intros _. exact H3.
    + repeat split; try assumption.
      intros Hz. apply cell_is_true in Hz. congruence.
Qed.

(** X24: over a shadow mask that is 0 at every pixel the layer is the
    blank image, transparent black, of the given size. *)
Theorem createShadowLayer_empty_mask :
  forall (shadowMask : list Z) (distanceMap : DistanceMap)
         (config : ShadowConfig) (w h : nat),
    (forall i : nat, (i < w * h)%nat -> shadowMask !! i = Some 0) ->
    createShadowLayer exponentialFalloff shadowMask distanceMap config w h
    = new_ImageData w h.
Proof.
  intros shadowMask distanceMap config w h Hmask.
  assert (Hdata :
    data (createShadowLayer exponentialFalloff shadowMask distanceMap config w h)
    = data (new_ImageData w h)).
  { apply (image_data_eq w h).
    - apply createShadowLayer_length.
    - apply length_replicate.
    - intros x y c Hx Hy Hc.
      rewrite createShadowLayer_lookup by assumption.
      unfold new_ImageData. cbn [data].
      rewrite lookup_replicate_2 by nia.
      unfold shadow_color.
      assert (Hz : cell_is 0 shadowMask (y * w + x) = true).
      { apply cell_is_true. apply Hmask. nia. }
      rewrite Hz.
      destruct c as [|[|[|c]]]; reflexivity. }
  unfold createShadowLayer in *. cbn [data] in Hdata.
  unfold new_ImageData at 2. f_equal. exact Hdata.
Qed.

(** X25: two steps of the pipeline together.  In the layer made from
    the mask [removeOcclusions] returns, the alpha is 0 at every pixel
    where the silhouette mask is not 0: before the blur no shadow lies
    under the foreground. *)
Theorem shadow_layer_clear_of_silhouette :
  forall (shadowMask silhouetteMask : list Z) (distanceMap : DistanceMap)
         (config : ShadowConfig) (w h x y : nat),
    (x < w)%nat -> (y < h)%nat ->
    silhouetteMask !! (y * w + x)%nat <> Some 0 ->
    data (createShadowLayer exponentialFalloff
            (removeOcclusions shadowMask silhouetteMask w h)
            distanceMap config w h) !! ((y * w + x) * 4 + 3)%nat
    = Some 0.
Proof.
  intros shadowMask silhouetteMask distanceMap config w h x y Hx Hy Hsil.
  rewrite createShadowLayer_lookup by (assumption || lia).
  unfold shadow_color.
  assert (Hz : cell_is 0 (removeOcclusions shadowMask silhouetteMask w h)
                 (y * w + x) = true).
  { apply cell_is_true. rewrite removeOcclusions_lookup.
    rewrite decide_True by nia. f_equal.
    destruct (cell_is 0 silhouetteMask (y * w + x)) eqn:Hc.
    - apply cell_is_true in Hc. contradiction.
    - rewrite andb_false_r. reflexivity. }
  rewrite Hz. reflexivity.
Qed.

End BlendFacts.

Lemma createShadowLayer_empty_mask_witness :
  ShadowCompositor.createShadowLayer falloff_rational [0; 0]
    {| dm_data := [Fin 0; Fin 1]; dm_width := 2; dm_height := 1 |}
    (ShadowGenerator.getDefaultConfig None None) 2 1
  = new_ImageData 2 1.
Proof.
  apply createShadowLayer_empty_mask.
  intros i Hi. destruct i as [|[|i]]; [reflexivity | reflexivity | simpl in Hi; lia].
Defined.

Lemma shadow_layer_clear_of_silhouette_witness :
  data (ShadowCompositor.createShadowLayer falloff_rational
          (ShadowProjector.removeOcclusions [1; 1] [1; 0] 2 1)
          {| dm_data := [Fin 0; Fin 1]; dm_width := 2; dm_height := 1 |}
          (ShadowGenerator.getDefaultConfig None None) 2 1)
    !! ((0 * 2 + 0) * 4 + 3)%nat
  = Some 0.
Proof.
  apply shadow_layer_clear_of_silhouette; [lia | lia | discriminate].
Defined.

(** ** BlurEngine.uniformBlur *)

Section UniformBlurFacts.
Import BlurEngine.

Variable clamp : Q -> Q -> Q -> Q.

Lemma uniformBlur_lookup imageData radius (x y c : nat) :
  (x < width imageData)%nat -> (y < height imageData)%nat -> (c < 4)%nat ->
  data (uniformBlur clamp imageData radius)
    !! ((y * width imageData + x) * 4 + c)%nat
  = Some (to_uint8_clamped
            (channel c (gaussianBlurAtPixel clamp imageData
                          (Z.of_nat x) (Z.of_nat y) radius))).
Proof.
  intros Hx Hy Hc. unfold uniformBlur. simpl.
  rewrite (raster_set_rgba_lookup
             (fun y x =>
                let blurred := gaussianBlurAtPixel clamp imageData
                                 (Z.of_nat x) (Z.of_nat y) radius in
                (col_r blurred, col_g blurred, col_b blurred, col_a blurred)));
    [| exact Hx | exact Hy | exact Hc | rewrite length_replicate; lia].
  cbv beta iota zeta. rewrite channel_eta. reflexivity.
Qed.

Lemma uniformBlur_length imageData radius :
  length (data (uniformBlur clamp imageData radius))
  = (width imageData * height imageData * 4)%nat.
Proof.
  unfold uniformBlur. simpl.
  rewrite (raster_set_rgba_length
             (fun y x =>
                let blurred := gaussianBlurAtPixel clamp imageData
                                 (Z.of_nat x) (Z.of_nat y) radius in
                (col_r blurred, col_g blurred, col_b blurred, col_a blurred))).
  apply length_replicate.
Qed.

(** X26: with a radius below 0.5 [uniformBlur] copies the image: on a
    well-formed image whose cells are bytes the result has the same
    size and the same cells, whatever [clamp] does. *)
Theorem uniformBlur_small_radius :
  forall (imageData : ImageData) (radius : Q),
    (radius < 1 # 2)%Q ->
    well_formed imageData -> bytes (data imageData) ->
    width (uniformBlur clamp imageData radius) = width imageData
    /\ height (uniformBlur clamp imageData radius) = height imageData
    /\ data (uniformBlur clamp imageData radius) = data imageData.
Proof.
  intros imageData radius Hr Hwf Hbytes.
  split; [reflexivity |]. split; [reflexivity |].
  apply (image_data_eq (width imageData) (height imageData));
    [apply uniformBlur_length | exact Hwf |].
  intros x y c Hx Hy Hc.
  rewrite uniformBlur_lookup by assumption.
  unfold gaussianBlurAtPixel.
  apply Qlt_bool_true in Hr. rewrite Hr.
  replace (Z.to_nat ((Z.of_nat y * Z.of_nat (width imageData) + Z.of_nat x) * 4))
    with ((y * width imageData + x) * 4)%nat by lia.
  assert (Hlt : ((y * width imageData + x) * 4 + c < length (data imageData))%nat).
  { rewrite Hwf. nia. }
  destruct (lookup_lt_is_Some_2 _ _ Hlt) as [v Hv].
  pose proof (bytes_lookup _ _ _ Hbytes Hv) as Rv.
  rewrite Hv.
  assert (Hpx : px (data imageData) ((y * width imageData + x) * 4 + c)
                = inject_Z v) by (unfold px; rewrite Hv; reflexivity).
  destruct c as [|[|[|c]]]; simpl channel.
  - rewrite Nat.add_0_r in Hpx. rewrite Hpx. f_equal.
    apply to_uint8_clamped_byte. exact Rv.
  - rewrite Hpx. f_equal. apply to_uint8_clamped_byte. exact Rv.
  - rewrite Hpx. f_equal. apply to_uint8_clamped_byte. exact Rv.
  - assert (c = 0%nat) by lia. subst c.
    rewrite Hpx. f_equal. apply to_uint8_clamped_byte. exact Rv.
Qed.

(** What [clamp] is taken to do with a value already in the range. *)
Hypothesis clamp_inside :
  forall v : Q, (0 <= v <= 255)%Q -> (clamp v 0 255 == v)%Q.

(** The sums over the neighborhood of a pixel of an image of one color:
    the count times the color. *)
Lemma neighborhood_constant imageData (r g b a : Z) cx cy radius :
  (forall i : nat, (i < width imageData * height imageData)%nat ->
     data imageData !! (i * 4)%nat = Some r
     /\ data imageData !! (i * 4 + 1)%nat = Some g
     /\ data imageData !! (i * 4 + 2)%nat = Some b
     /\ data imageData !! (i * 4 + 3)%nat = Some a) ->
  let acc := neighborhood imageData cx cy radius in
  let n := inject_Z (Z.of_nat (count acc)) in
  (sum_r acc == n * inject_Z r)%Q /\ (sum_g acc == n * inject_Z g)%Q
  /\ (sum_b acc == n * inject_Z b)%Q /\ (sum_a acc == n * inject_Z a)%Q.
Proof.
  intros Hconst. cbv zeta. unfold neighborhood.
  set (P := fun acc : sums =>
    let n := inject_Z (Z.of_nat (count acc)) in
    (sum_r acc == n * inject_Z r)%Q /\ (sum_g acc == n * inject_Z g)%Q
    /\ (sum_b acc == n * inject_Z b)%Q /\ (sum_a acc == n * inject_Z a)%Q).
  change (P (fold_left (fun acc dy =>
    fold_left (fun acc dx => sample imageData cx cy radius dy dx acc)
      (z_range (- JS.Math_ceil radius) (JS.Math_ceil radius)) acc)
    (z_range (- JS.Math_ceil radius) (JS.Math_ceil radius))
    {| sum_r := 0; sum_g := 0; sum_b := 0; sum_a := 0; count := 0 |})).
  apply fold_left_invariant.
  - intros acc dy Hacc. apply fold_left_invariant; [| exact Hacc].
    clear acc Hacc. intros acc dx Hacc. unfold sample.
    destruct ((cx + dx <? 0) || (Z.of_nat (width imageData) <=? cx + dx)
              || (cy + dy <? 0) || (Z.of_nat (height imageData) <=? cy + dy))
      eqn:Hout; [exact Hacc |].
    destruct (JS.Qlt_bool (radius * radius) (inject_Z (dx * dx + dy * dy)));
      [exact Hacc |].
    apply orb_false_iff in Hout as [Hout Hy1].
    apply orb_false_iff in Hout as [Hout Hy0].
    apply orb_false_iff in Hout as [Hx0 Hx1].
    apply Z.ltb_ge in Hx0, Hy0. apply Z.leb_gt in Hx1, Hy1.
    set (i := (Z.to_nat (cy + dy) * width imageData + Z.to_nat (cx + dx))%nat).
    replace (Z.to_nat (((cy + dy) * Z.of_nat (width imageData) + (cx + dx)) * 4))
      with (i * 4)%nat by (unfold i; nia).
    assert (Hi : (i < width imageData * height imageData)%nat)
      by (unfold i; nia).
    destruct (Hconst i Hi) as (Hr & Hg & Hb & Ha).
    unfold px. rewrite Hr, Hg, Hb, Ha.
    destruct Hacc as (Sr & Sg & Sb & Sa). unfold P. simpl.
    rewrite Sr, Sg, Sb, Sa.
    rewrite Nat2Z.inj_succ. unfold Z.succ. rewrite inject_Z_plus.
    repeat split; ring.
  - unfold P. simpl. repeat split; ring.
Qed.

(** X27: an image of one color is a fixed point of [uniformBlur],
    whatever the radius: when every pixel of a well-formed image holds
    the same four bytes, and [clamp] leaves values between 0 and 255 as
    they are, the result has the cells of the image. *)
Theorem uniformBlur_constant_image :
  forall (imageData : ImageData) (radius : Q) (r g b a : Z),
    well_formed imageData ->
    0 <= r <= 255 -> 0 <= g <= 255 -> 0 <= b <= 255 -> 0 <= a <= 255 ->
    (forall i : nat, (i < width imageData * height imageData)%nat ->
       data imageData !! (i * 4)%nat = Some r
       /\ data imageData !! (i * 4 + 1)%nat = Some g
       /\ data imageData !! (i * 4 + 2)%nat = Some b
       /\ data imageData !! (i * 4 + 3)%nat = Some a) ->
    data (uniformBlur clamp imageData radius) = data imageData.
Proof.
  intros imageData radius r g b a Hwf Rr Rg Rb Ra Hconst.
  apply (image_data_eq (width imageData) (height imageData));
    [apply uniformBlur_length | exact Hwf |].
  intros x y c Hx Hy Hc.
  rewrite uniformBlur_lookup by assumption.
  assert (Hi : (y * width imageData + x < width imageData * height imageData)%nat)
    by nia.
  destruct (Hconst _ Hi) as (Hr & Hg & Hb & Ha).
  unfold gaussianBlurAtPixel.
  destruct (JS.Qlt_bool radius (1 # 2)) eqn:Hrad.
  - replace (Z.to_nat ((Z.of_nat y * Z.of_nat (width imageData) + Z.of_nat x) * 4))
      with ((y * width imageData + x) * 4)%nat by lia.
    unfold px. rewrite Hr, Hg, Hb, Ha.
    destruct c as [|[|[|c]]]; simpl channel.
    + rewrite Nat.add_0_r, Hr. f_equal. apply to_uint8_clamped_byte. exact Rr.
    + rewrite Hg. f_equal. apply to_uint8_clamped_byte. exact Rg.
    + rewrite Hb. f_equal. apply to_uint8_clamped_byte. exact Rb.
    + assert (c = 0%nat) by lia. subst c.
      rewrite Ha. f_equal. apply to_uint8_clamped_byte. exact Ra.
  - apply Qlt_bool_false in Hrad.
    pose proof (neighborhood_count imageData (Z.of_nat x) (Z.of_nat y) radius
                  ltac:(lia) ltac:(lia) Hrad) as Hcount.
    pose proof (neighborhood_constant imageData r g b a
                  (Z.of_nat x) (Z.of_nat y) radius Hconst) as Hsums.
    cbv zeta in Hsums.
    set (acc := neighborhood imageData (Z.of_nat x) (Z.of_nat y) radius) in *.
    destruct Hsums as (Sr & Sg & Sb & Sa).
    replace (0 <? count acc)%nat with true
      by (symmetry; apply Nat.ltb_lt; lia).
    assert (Hn : ~ (inject_Z (Z.of_nat (count acc)) == 0)%Q).
    { intros H. unfold Qeq in H. simpl in H. lia. }
    assert (Havg : forall (s : Q) (v : Z), 0 <= v <= 255 ->
      (s == inject_Z (Z.of_nat (count acc)) * inject_Z v)%Q ->
      to_uint8_clamped
        (clamp (inject_Z (JS.Math_round (s / inject_Z (Z.of_nat (count acc)))))
           0 255) = v).
    { intros s v Rv Hs.
      assert (Hq : (s / inject_Z (Z.of_nat (count acc)) == inject_Z v)%Q).
      { rewrite Hs. field. exact Hn. }
      rewrite (Math_round_comp _ _ Hq), Math_round_Z.
      rewrite (to_uint8_clamped_comp _ (inject_Z v)).
      - apply to_uint8_clamped_byte. exact Rv.
      - apply clamp_inside. split.
        + change 0%Q with (inject_Z 0). rewrite <- Zle_Qle. lia.
        + change 255%Q with (inject_Z 255). rewrite <- Zle_Qle. lia. }
    destruct c as [|[|[|c]]]; simpl channel.
    + rewrite Nat.add_0_r, Hr. f_equal. apply Havg; assumption.
    + rewrite Hg. f_equal. apply Havg; assumption.
    + rewrite Hb. f_equal. apply Havg; assumption.
    + assert (c = 0%nat) by lia. subst c.
      rewrite Ha. f_equal. apply Havg; assumption.
Qed.

End UniformBlurFacts.

Lemma clamp_std_inside (v : Q) : (0 <= v <= 255)%Q -> (clamp_std v 0 255 == v)%Q.
Proof.
  intros [Hlo Hhi]. unfold clamp_std.
  rewrite (Q.min_r 255 v Hhi). apply Q.max_r. exact Hlo.
Qed.

Lemma uniformBlur_small_radius_witness :
  let imageData := {| width := 1; height := 1; data := [10; 20; 30; 255] |} in
  width (BlurEngine.uniformBlur clamp_std imageData (1 # 4)) = 1%nat
  /\ height (BlurEngine.uniformBlur clamp_std imageData (1 # 4)) = 1%nat
  /\ data (BlurEngine.uniformBlur clamp_std imageData (1 # 4))
     = [10; 20; 30; 255].
Proof.
  intros imageData.
  apply (uniformBlur_small_radius clamp_std imageData (1 # 4)).
  - reflexivity.
  - reflexivity.
  - repeat constructor; lia.
Defined.

Lemma uniformBlur_constant_image_witness :
  let imageData :=
    {| width := 2; height := 1; data := [10; 20; 30; 255; 10; 20; 30; 255] |} in
  data (BlurEngine.uniformBlur clamp_std imageData 2)
  = [10; 20; 30; 255; 10; 20; 30; 255].
Proof.
  intros imageData.
  apply (uniformBlur_constant_image clamp_std clamp_std_inside imageData 2
           10 20 30 255); try lia; [reflexivity |].
  intros i Hi. simpl in Hi.
  destruct i as [|[|i]]; [repeat split; reflexivity
                          | repeat split; reflexivity | lia].
Defined.

(** ** utils/imageData: pixels by coordinates *)

Section ImageDataUtilsFacts.
Import ImageDataUtils.

Lemma isInBounds_true x y w h :
  isInBounds x y w h = true
  <-> 0 <= x < Z.of_nat w /\ 0 <= y < Z.of_nat h.
Proof.
  unfold isInBounds. rewrite !andb_true_iff, !Z.leb_le, !Z.ltb_lt. lia.
Qed.

(** Within the bounds [getPixelIndex] names four cells of the buffer,
    and it names different cells for different pixels. *)
Lemma getPixelIndex_in_bounds (x y : Z) (w h : nat) :
  isInBounds x y w h = true ->
  0 <= getPixelIndex x y w
  /\ getPixelIndex x y w + 3 < Z.of_nat (w * h * 4)
  /\ forall x' y' : Z,
       isInBounds x' y' w h = true ->
       getPixelIndex x' y' w = getPixelIndex x y w -> x' = x /\ y' = y.
Proof.
  intros Hin. apply isInBounds_true in Hin.
  unfold getPixelIndex. split; [nia |]. split; [nia |].
  intros x' y' Hin' Heq. apply isInBounds_true in Hin'.
  assert (Hy : y' = y) by nia.
  subst y'. split; [lia | reflexivity].
Qed.

(** X28: [setPixel] then [getPixel].  On a well-formed image and
    coordinates within its bounds, the pixel read back at the
    coordinates written holds the four values written, each rounded and
    clamped to a byte; every other pixel within the bounds reads as
    before, and the image is still well formed. *)
Theorem setPixel_getPixel :
  forall (imageData : ImageData) (x y : Z) (r g b a : Q),
    well_formed imageData ->
    isInBounds x y (width imageData) (height imageData) = true ->
    let after := setPixel imageData x y r g b a in
    well_formed after
    /\ getPixel after x y
       = {| cell_r := Some (to_uint8_clamped r);
            cell_g := Some (to_uint8_clamped g);
            cell_b := Some (to_uint8_clamped b);
            cell_a := Some (to_uint8_clamped a) |}
    /\ forall x' y' : Z,
         isInBounds x' y' (width imageData) (height imageData) = true ->
         (x' <> x \/ y' <> y) ->
         getPixel after x' y' = getPixel imageData x' y'.
Proof.
  intros imageData x y r g b a Hwf Hin after. subst after.
  pose proof Hin as Hxy. apply isInBounds_true in Hxy.
  destruct (getPixelIndex_in_bounds x y _ _ Hin) as (H0 & H3 & Hinj).
  unfold well_formed in Hwf.
  split.
  - unfold well_formed, setPixel. simpl. rewrite !store_at_length. exact Hwf.
  - split.
    + unfold getPixel, setPixel. simpl.
      set (idx := getPixelIndex x y (width imageData)) in *.
      rewrite !cell_at_store_at, !store_at_length.
      f_equal; repeat first
        [ rewrite decide_True by lia; reflexivity
        | rewrite decide_False by lia ].
    + intros x' y' Hin' Hne.
      destruct (getPixelIndex_in_bounds x' y' _ _ Hin') as (H0' & H3' & _).
      assert (Hidx : getPixelIndex x' y' (width imageData)
                     <> getPixelIndex x y (width imageData)).
      { intros Heq. destruct (Hinj x' y' Hin' Heq). lia. }
      assert (Hfour : getPixelIndex x' y' (width imageData)
                        = 4 * (y' * Z.of_nat (width imageData) + x')
                      /\ getPixelIndex x y (width imageData)
                        = 4 * (y * Z.of_nat (width imageData) + x))
        by (unfold getPixelIndex; lia).
      destruct Hfour as [Hf' Hf].
      unfold getPixel, setPixel. simpl.
      set (idx := getPixelIndex x y (width imageData)) in *.
      set (idx' := getPixelIndex x' y' (width imageData)) in *.
      rewrite !cell_at_store_at.
      f_equal; repeat rewrite decide_False by lia; reflexivity.
Qed.

Lemma setPixel_getPixel_witness :
  let imageData :=
    {| width := 2; height := 1; data := [1; 2; 3; 4; 5; 6; 7; 8] |} in
  let after := setPixel imageData 1 0 300 (5 # 2) (-1) 128 in
  well_formed after
  /\ getPixel after 1 0
     = {| cell_r := Some (to_uint8_clamped 300);
          cell_g := Some (to_uint8_clamped (5 # 2));
          cell_b := Some (to_uint8_clamped (-1));
          cell_a := Some (to_uint8_clamped 128) |}
  /\ forall x' y' : Z,
       isInBounds x' y' 2 1 = true ->
       (x' <> 1 \/ y' <> 0) ->
       getPixel after x' y' = getPixel imageData x' y'.
Proof.
  intros imageData.
  apply (setPixel_getPixel imageData 1 0 300 (5 # 2) (-1) 128);
    reflexivity.
Defined.

Lemma fillImageData_lookup imageData r g b a (i c : nat) :
  well_formed imageData ->
  (i < width imageData * height imageData)%nat -> (c < 4)%nat ->
  data (fillImageData imageData r g b a) !! (i * 4 + c)%nat
  = Some (to_uint8_clamped
            (channel c {| col_r := r; col_g := g; col_b := b; col_a := a |})).
Proof.
  intros Hwf Hi Hc. unfold fillImageData. cbn [data].
  unfold well_formed in Hwf. rewrite Hwf.
  replace ((width imageData * height imageData * 4 + 3) / 4)%nat
    with (width imageData * height imageData)%nat.
  2:{ apply Nat.div_unique with (r := 3%nat); lia. }
  rewrite (for_loop_set_rgba_lookup (width imageData * height imageData)
             (fun _ => (r, g, b, a))); [reflexivity | exact Hi | exact Hc | lia].
Qed.

(** X29: after [fillImageData] on a well-formed image, [getPixel] reads
    at every coordinate within the bounds the four values of the fill,
    each rounded and clamped to a byte; the image is still well
    formed. *)
Theorem fillImageData_getPixel :
  forall (imageData : ImageData) (r g b a : Q),
    well_formed imageData ->
    well_formed (fillImageData imageData r g b a)
    /\ forall x y : Z,
         isInBounds x y (width imageData) (height imageData) = true ->
         getPixel (fillImageData imageData r g b a) x y
         = {| cell_r := Some (to_uint8_clamped r);
              cell_g := Some (to_uint8_clamped g);
              cell_b := Some (to_uint8_clamped b);
              cell_a := Some (to_uint8_clamped a) |}.
Proof.
  intros imageData r g b a Hwf. split.
  - unfold well_formed, fillImageData. cbn [data width height].
    rewrite (for_loop_set_rgba_length _ (fun _ => (r, g, b, a))). exact Hwf.
  - intros x y Hin. apply isInBounds_true in Hin.
    set (i := (Z.to_nat y * width imageData + Z.to_nat x)%nat).
    assert (Hi : (i < width imageData * height imageData)%nat)
      by (unfold i; nia).
    assert (Hidx : getPixelIndex x y (width imageData) = Z.of_nat (i * 4))
      by (unfold getPixelIndex, i; lia).
    unfold getPixel. simpl width. rewrite Hidx. unfold cell_at.
    assert (Hcell : forall c : nat, (c < 4)%nat ->
              (if Z.of_nat (i * 4) + Z.of_nat c <? 0 then None
               else data (fillImageData imageData r g b a)
                      !! Z.to_nat (Z.of_nat (i * 4) + Z.of_nat c))
              = Some (to_uint8_clamped
                        (channel c {| col_r := r; col_g := g;
                                      col_b := b; col_a := a |}))).
    { intros c Hc.
      destruct (Z.ltb_spec (Z.of_nat (i * 4) + Z.of_nat c) 0); [lia |].
      replace (Z.to_nat (Z.of_nat (i * 4) + Z.of_nat c))
        with (i * 4 + c)%nat by lia.
      apply fillImageData_lookup; assumption. }
    pose proof (Hcell 0%nat ltac:(lia)) as C0.
    pose proof (Hcell 1%nat ltac:(lia)) as C1.
    pose proof (Hcell 2%nat ltac:(lia)) as C2.
    pose proof (Hcell 3%nat ltac:(lia)) as C3.
    change (Z.of_nat 0) with 0 in C0. rewrite Z.add_0_r in C0.
    change (Z.of_nat 1) with 1 in C1. change (Z.of_nat 2) with 2 in C2.
    change (Z.of_nat 3) with 3 in C3.
    rewrite C0, C1, C2, C3. reflexivity.
Qed.

Lemma fillImageData_getPixel_witness :
  let imageData :=
    {| width := 2; height := 1; data := [1; 2; 3; 4; 5; 6; 7; 8] |} in
  well_formed (fillImageData imageData 255 0 0 (255 # 2))
  /\ forall x y : Z,
       isInBounds x y 2 1 = true ->
       getPixel (fillImageData imageData 255 0 0 (255 # 2)) x y
       = {| cell_r := Some (to_uint8_clamped 255);
            cell_g := Some (to_uint8_clamped 0);
            cell_b := Some (to_uint8_clamped 0);
            cell_a := Some (to_uint8_clamped (255 # 2)) |}.
Proof.
  intros imageData.
  apply (fillImageData_getPixel imageData 255 0 0 (255 # 2)).
  reflexivity.
Defined.

End ImageDataUtilsFacts.

(** ** ImageProcessor.imageToImageData: the size of the result *)

Section ImageProcessorFacts.
Import ImageProcessor.

Lemma inject_nat_pos (n : nat) : (0 < n)%nat -> (0 < inject_Z (Z.of_nat n))%Q.
Proof.
  intros Hn. change 0%Q with (inject_Z 0). rewrite <- Zlt_Qlt. lia.
Qed.

(** The ratio of the downscale: [MAX_DIMENSION] over the longer side. *)
Lemma downscale_ratio (a b : nat) :
  (1200 < a)%nat \/ (1200 < b)%nat ->
  exists ratio,
    number_min (max_over a) (max_over b) = Fin ratio
    /\ (ratio == 1200 / inject_Z (Z.of_nat (Nat.max a b)))%Q.
Proof.
  intros Hbig. unfold max_over, MAX_DIMENSION.
  destruct (Nat.eqb_spec a 0) as [-> | Ha0];
    destruct (Nat.eqb_spec b 0) as [-> | Hb0]; [lia | | |].
  - simpl number_min. eexists. split; [reflexivity |]. reflexivity.
  - simpl number_min. eexists. split; [reflexivity |].
    rewrite Nat.max_0_r. reflexivity.
  - simpl number_min. eexists. split; [reflexivity |].
    pose proof (inject_nat_pos a ltac:(lia)) as Hqa.
    pose proof (inject_nat_pos b ltac:(lia)) as Hqb.
    assert (Hcmp : forall p q : Q, (0 < p)%Q -> (p <= q)%Q ->
              (1200 / q <= 1200 / p)%Q).
    { intros p q Hp Hpq.
      apply Qle_shift_div_l; [exact Hp |].
      assert (Hq : (0 < q)%Q) by lra.
      assert (Hinv : (0 < / q)%Q) by (apply Qinv_lt_0_compat; exact Hq).
      assert (Hone : (q * / q == 1)%Q) by (apply Qmult_inv_r; lra).
      unfold Qdiv. set (iq := (/ q)%Q) in *. nra. }
    destruct (Nat.le_ge_cases a b) as [Hab | Hab].
    + rewrite Nat.max_r by exact Hab.
      apply Q.min_r. apply Hcmp; [exact Hqa |]. rewrite <- Zle_Qle. lia.
    + rewrite Nat.max_l by exact Hab.
      apply Q.min_l. apply Hcmp; [exact Hqb |]. rewrite <- Zle_Qle. lia.
Qed.

(** X30: the width and height [imageToImageData] computes for its
    canvas.  Neither side exceeds 1200; an image within 1200 by 1200
    keeps its size; a larger one has its longer side brought to 1200
    exactly.  Nothing keeps the shorter side from rounding to 0: it
    does for an image wider than 1200 and more than 2400 times as wide
    as it is high. *)
Theorem imageToImageData_size_bounded :
  forall img_width img_height : nat,
    let size := imageToImageData_size img_width img_height in
    0 <= fst size <= 1200 /\ 0 <= snd size <= 1200
    /\ ((img_width <= 1200)%nat -> (img_height <= 1200)%nat ->
        size = (Z.of_nat img_width, Z.of_nat img_height))
    /\ ((1200 < img_width)%nat \/ (1200 < img_height)%nat ->
        Z.max (fst size) (snd size) = 1200)
    /\ ((1200 < img_width)%nat -> (2400 * img_height < img_width)%nat ->
        snd size = 0).
Proof.
  intros a b size. subst size. unfold imageToImageData_size.
  cbv zeta.
  assert (Hlt : forall n : nat,
            JS.Qlt_bool MAX_DIMENSION (inject_Z (Z.of_nat n)) = (1200 <? n)%nat).
  { intros n. destruct (Nat.ltb_spec 1200 n) as [H | H].
    - apply Qlt_bool_true. unfold MAX_DIMENSION.
      change 1200%Q with (inject_Z 1200). rewrite <- Zlt_Qlt. lia.
    - apply Qlt_bool_false. unfold MAX_DIMENSION.
      change 1200%Q with (inject_Z 1200). rewrite <- Zle_Qle. lia. }
  rewrite !Hlt.
  destruct ((1200 <? a)%nat || (1200 <? b)%nat) eqn:Hbig.
  - apply orb_true_iff in Hbig. rewrite !Nat.ltb_lt in Hbig.
    destruct (downscale_ratio a b Hbig) as (ratio & -> & Hratio).
    cbn [fst snd].
    set (m := Nat.max a b) in *.
    assert (Hm : (1200 < m)%nat) by (unfold m; lia).
    pose proof (inject_nat_pos m ltac:(lia)) as Hqm.
    assert (Hside : forall n : nat, (n <= m)%nat ->
              (0 <= inject_Z (Z.of_nat n) * ratio <= 1200)%Q
              /\ (n = m -> (inject_Z (Z.of_nat n) * ratio == 1200)%Q)
              /\ ((2400 * n < m)%nat ->
                  (inject_Z (Z.of_nat n) * ratio < 1 # 2)%Q)).
    { intros n Hn.
      assert (Hqn : (0 <= inject_Z (Z.of_nat n))%Q).
      { change 0%Q with (inject_Z 0). rewrite <- Zle_Qle. lia. }
      assert (Hnm : (inject_Z (Z.of_nat n) <= inject_Z (Z.of_nat m))%Q).
      { rewrite <- Zle_Qle. lia. }
      assert (Hinv : (0 < / inject_Z (Z.of_nat m))%Q)
        by (apply Qinv_lt_0_compat; exact Hqm).
      assert (Hone : (inject_Z (Z.of_nat m) * / inject_Z (Z.of_nat m) == 1)%Q)
        by (apply Qmult_inv_r; lra).
      rewrite Hratio. unfold Qdiv.
      split; [| split].
      - set (im := (/ inject_Z (Z.of_nat m))%Q) in *.
        set (qm := inject_Z (Z.of_nat m)) in *.
        set (qn := inject_Z (Z.of_nat n)) in *. split; nra.
      - intros ->. rewrite Qmult_comm, <- Qmult_assoc.
        rewrite (Qmult_comm (/ _)), Hone. ring.
      - intros Hthin.
        assert (Hq : (2400 * inject_Z (Z.of_nat n) < inject_Z (Z.of_nat m))%Q).
        { change 2400%Q with (inject_Z 2400).
          rewrite <- inject_Z_mult, <- Zlt_Qlt. lia. }
        set (im := (/ inject_Z (Z.of_nat m))%Q) in *.
        set (qm := inject_Z (Z.of_nat m)) in *.
        set (qn := inject_Z (Z.of_nat n)) in *. nra. }
    destruct (Hside a ltac:(unfold m; lia)) as (Ra & Ea & _).
    destruct (Hside b ltac:(unfold m; lia)) as (Rb & Eb & Tb).
    assert (Hround : forall v : Q, (0 <= v <= 1200)%Q ->
              0 <= JS.Math_round v <= 1200).
    { intros v Hv. split.
      - apply Math_round_ge. change (inject_Z 0) with 0%Q. lra.
      - apply Math_round_le. change (inject_Z 1200) with 1200%Q. lra. }
    pose proof (Hround _ Ra) as Ha'. pose proof (Hround _ Rb) as Hb'.
    split; [exact Ha' |]. split; [exact Hb' |].
    split; [intros; lia |].
    split.
    + intros _.
      destruct (Nat.max_spec a b) as [[_ Hmax] | [_ Hmax]]; fold m in Hmax.
      * rewrite (Math_round_comp _ _ (Eb (eq_sym Hmax))).
        change 1200%Q with (inject_Z 1200). rewrite Math_round_Z. lia.
      * rewrite (Math_round_comp _ _ (Ea (eq_sym Hmax))).
        change 1200%Q with (inject_Z 1200). rewrite Math_round_Z. lia.
    + intros Ha Hthin.
      apply Math_round_near; change (inject_Z 0) with 0%Q.
      * lra.
      * assert (Hmb : (2400 * b < m)%nat) by (unfold m; lia).
        specialize (Tb Hmb). lra.
  - apply orb_false_iff in Hbig. rewrite !Nat.ltb_ge in Hbig.
    cbn [fst snd]. repeat split; try lia.
Qed.

End ImageProcessorFacts.
